(** * Portfolio page script: a shallow embedding of [script.js]

    The script is a flat collection of initialisers that attach listeners,
    intersection observers and timers to DOM nodes.  Each component is
    embedded as a small state-passing model over the part of the DOM it
    touches:

    - class lists ([classList]) are finite sets of tokens ([gset string]);
    - nullable lookups ([$('#id')], [getAttribute], [dataset.x]) are [option];
    - timers run on a virtual clock in milliseconds ([EventLoop]), the way a
      fake-timer harness drives [setTimeout] / [setInterval];
    - closures handed to the browser are first-order tasks carrying their
      captured constants, mutable captured variables live in the state.

    Part I holds the model, Part II the properties. *)

From Stdlib Require Import QArith Ascii.
From Stdlib Require PrimFloat SpecFloat FloatOps.
From stdpp Require Import numbers base decidable option strings pretty gmap list.

Set Warnings "-clear-no-such-hyp,-inexact-float".

(** Decide a closed decidable proposition by evaluation. *)
Ltac decide_by_compute :=
  match goal with
  | |- ?P => apply (@bool_decide_unpack P _); vm_compute; exact I
  end.

(* ================================================================== *)
(** * Part I.  The model *)
(* ================================================================== *)

(** ** DOMTokenList *)

Module ClassList.

Definition add (c : string) (cl : gset string) : gset string := cl ∪ {[c]}.
Definition remove (c : string) (cl : gset string) : gset string := cl ∖ {[c]}.
Definition contains (c : string) (cl : gset string) : bool := bool_decide (c ∈ cl).

(** [toggle(c)] returns the new membership together with the list. *)
Definition toggle (c : string) (cl : gset string) : bool * gset string :=
  if contains c cl then (false, remove c cl) else (true, add c cl).

(** [toggle(c, force)] *)
Definition toggle_force (c : string) (force : bool) (cl : gset string) : gset string :=
  if force then add c cl else remove c cl.

End ClassList.

(** ** Timers on a virtual clock

    [setTimeout], [setInterval] and [clearTimeout] over a queue of pending
    timers.  Time is in whole milliseconds.  A timer fires exactly when it
    is due; among timers due at the same instant the one created first goes
    first.  A closure handed to the browser is a first-order [Task]; [exec]
    gives its body, and receives the handle of the timer that runs it. *)

Module EventLoop.
Section Loop.
Context {Task St : Type}.

Record timer := Timer {
  t_id : nat;           (* the handle returned to the script *)
  t_due : N;            (* when it fires *)
  t_every : option N;   (* [Some p] for [setInterval(_, p)] *)
  t_task : Task }.

Record loop := Loop {
  now : N;
  fresh : nat;          (* next handle *)
  timers : list timer;  (* pending timers, oldest first *)
  world : St }.

Definition with_world (f : St → St) (l : loop) : loop :=
  Loop (now l) (fresh l) (timers l) (f (world l)).

Definition setTimeout (task : Task) (delay : N) (l : loop) : nat * loop :=
  (fresh l,
   Loop (now l) (S (fresh l))
     (timers l ++ [Timer (fresh l) (now l + delay) None task]) (world l)).

Definition setInterval (task : Task) (delay : N) (l : loop) : nat * loop :=
  (fresh l,
   Loop (now l) (S (fresh l))
     (timers l ++ [Timer (fresh l) (now l + delay) (Some delay) task]) (world l)).

Definition drop (id : nat) (ts : list timer) : list timer :=
  filter (fun t => t_id t ≠ id) ts.

(** [clearTimeout(h)] / [clearInterval(h)]; [undefined] clears nothing. *)
Definition clearTimeout (h : option nat) (l : loop) : loop :=
  match h with
  | None => l
  | Some id => Loop (now l) (fresh l) (drop id (timers l)) (world l)
  end.

(** The next timer to fire: least due time, oldest first among equals. *)
Fixpoint earliest (ts : list timer) : option timer :=
  match ts with
  | [] => None
  | t :: ts' =>
      match earliest ts' with
      | Some u => if (t_due u <? t_due t)%N then Some u else Some t
      | None => Some t
      end
  end.

Variable exec : Task → nat → loop → loop.

(** Fire one timer: the clock moves to its due time, a timeout leaves the
    queue, an interval is re-armed one period later, then the task runs. *)
Definition fire (t : timer) (l : loop) : loop :=
  let rest := drop (t_id t) (timers l) in
  let ts := match t_every t with
            | Some p => rest ++ [Timer (t_id t) (t_due t + p) (Some p) (t_task t)]
            | None => rest
            end in
  exec (t_task t) (t_id t) (Loop (N.max (now l) (t_due t)) (fresh l) ts (world l)).

(** Let the clock run to [T], firing what falls due on the way. *)
Fixpoint run_until (fuel : nat) (T : N) (l : loop) : option loop :=
  match earliest (timers l) with
  | Some t =>
      if (t_due t <=? T)%N then
        match fuel with
        | O => None
        | S fuel' => run_until fuel' T (fire t l)
        end
      else Some (Loop (N.max (now l) T) (fresh l) (timers l) (world l))
  | None => Some (Loop (N.max (now l) T) (fresh l) (timers l) (world l))
  end.

(** Fire the next [n] timers, however far in the future they are. *)
Fixpoint run_steps (n : nat) (l : loop) : loop :=
  match n with
  | O => l
  | S n' =>
      match earliest (timers l) with
      | Some t => run_steps n' (fire t l)
      | None => l
      end
  end.

End Loop.
Arguments timer : clear implicits.
Arguments loop : clear implicits.
End EventLoop.

(** ** 1. Utilities: [debounce] *)

Module Debounce.
Import EventLoop.
Section Debounce.
Context {A U : Type}.

(** The closure [() => fn(...args)] handed to [setTimeout]: it captures
    the callback and the arguments of the invocation that scheduled it.
    The callback acts on the rest of the page [U]; [A] is its argument
    list. *)
Inductive task := Call (fn : A → U → U) (args : A).

(** [timer] is the variable captured by the wrapper; [calls] records each
    execution of the callback with the time at which it ran. *)
Record env := Env { timer : option nat; page : U; calls : list (N * A) }.

Definition exec (t : task) (_ : nat) (l : loop task env) : loop task env :=
  match t with
  | Call fn args =>
      Loop (now l) (fresh l) (timers l)
        (Env (timer (world l)) (fn args (page (world l)))
             (calls (world l) ++ [(now l, args)]))
  end.

(** The wrapper returned by [debounce(fn, delay)]:
    [clearTimeout(timer); timer = setTimeout(() => fn(...args), delay)]. *)
Definition debounce (fn : A → U → U) (delay : N) (args : A)
    (l : loop task env) : loop task env :=
  let l1 := clearTimeout (timer (world l)) l in
  let '(id, l2) := setTimeout (Call fn args) delay l1 in
  with_world (fun w => Env (Some id) (page w) (calls w)) l2.

(** A fresh wrapper on an idle loop. *)
Definition init (t0 : N) (h0 : nat) (u0 : U) : loop task env :=
  Loop t0 h0 [] (Env None u0 []).

(** A run of invocations of one wrapper, each given with the time elapsed
    since the previous one (for the first: since [init]) and its
    arguments. *)
Fixpoint invoke (wrapper : A → loop task env → loop task env) (fuel : nat)
    (invs : list (N * A)) (l : loop task env) : option (loop task env) :=
  match invs with
  | [] => Some l
  | (gap, args) :: rest =>
      match run_until exec fuel (now l + gap) l with
      | Some l1 => invoke wrapper fuel rest (wrapper args l1)
      | None => None
      end
  end.

(** Time of the last invocation of a run started at [t0]. *)
Definition last_time (t0 : N) (invs : list (N * A)) : N :=
  fold_left (fun t i => (t + i.1)%N) invs t0.

(** Arguments of the last invocation of a run ([a] when it is empty). *)
Definition last_args (a : A) (invs : list (N * A)) : A :=
  fold_left (fun _ i => i.2) invs a.

(** Exactly one execution is scheduled: [fn a], [delay] after time [t],
    and the wrapper's [timer] variable holds its handle. *)
Definition armed (fn : A → U → U) (delay : N) (t : N) (a : A)
    (l : loop task env) : Prop :=
  ∃ id, timers l = [Timer id (t + delay) None (Call fn a)]
        ∧ timer (world l) = Some id.

(** The executions of a run whose invocations are never closer than
    [delay]: one per invocation, [delay] after it. *)
Fixpoint schedule (delay : N) (t : N) (invs : list (N * A)) : list (N * A) :=
  match invs with
  | [] => []
  | (gap, args) :: rest => ((t + gap + delay)%N, args) :: schedule delay (t + gap) rest
  end.

(** The page after the callback ran on each invocation in turn. *)
Definition apply_all (fn : A → U → U) (invs : list (N * A)) (u : U) : U :=
  fold_left (fun u i => fn i.2 u) invs u.

End Debounce.
End Debounce.

(** ** 3. Navbar: scroll state and active link *)

Module Navbar.
Import PrimFloat.

(** A [section[id]] element: its id and its integer [offsetTop]. *)
Record section := Section_ { sec_id : string; offsetTop : Z }.

(** A [.nav-link] element; [getAttribute('href')] is [null] when absent. *)
Record link := Link { href : option string; classList : gset string }.

(** [window.scrollY] and [window.innerHeight]: Numbers, that is IEEE 754
    binary64 values, here the kernel's primitive floats. *)
Record window := Window { scrollY : float; innerHeight : float }.

Record page := Page { navbar : gset string; navLinks : list link }.

(** The Number of an integer: the nearest binary64 value, which is the
    integer itself up to 2^53 in magnitude. *)
Definition of_Z (z : Z) : float :=
  FloatOps.SF2Prim (SpecFloat.binary_normalize 53 1024 z 0 false).

(** [window.scrollY + window.innerHeight * 0.3], each operation rounded to
    binary64; [0.3] denotes the binary64 value nearest to 3/10. *)
Definition scrollPos (w : window) : float := (scrollY w + innerHeight w * 0.3)%float.

(** [sec.offsetTop <= scrollPos] *)
Definition qualifies (pos : float) (s : section) : bool :=
  (of_Z (offsetTop s) <=? pos)%float.

(** [let current = ''; sections.forEach(sec => { if (sec.offsetTop <= scrollPos) current = sec.id; })] *)
Definition current_section (pos : float) (sections : list section) : string :=
  fold_left (fun current sec => if qualifies pos sec then sec_id sec else current)
    sections "".

Definition mark (current : string) (l : link) : link :=
  let cl := ClassList.remove "active" (classList l) in
  if decide (href l = Some ("#" +:+ current))
  then Link (href l) (ClassList.add "active" cl)
  else Link (href l) cl.

Definition updateActiveNavLink (w : window) (sections : list section)
    (links : list link) : list link :=
  let current := current_section (scrollPos w) sections in
  mark current <$> links.

(** The debounced body of [handleScroll]. *)
Definition handleScroll (w : window) (sections : list section) (p : page) : page :=
  let nb := if (60 <? scrollY w)%float then ClassList.add "scrolled" (navbar p)
            else ClassList.remove "scrolled" (navbar p) in
  Page nb (updateActiveNavLink w sections (navLinks p)).

Definition is_active (l : link) : bool := ClassList.contains "active" (classList l).

Definition active_count (ls : list link) : nat := length (filter (fun l => is_active l = true) ls).

(** The section the highlight is meant for: the last one, in document
    order, whose top offset is at most the scroll position. *)
Definition last_qualifying (pos : float) (sections : list section) : option section :=
  last (filter (fun s => qualifies pos s = true) sections).

End Navbar.

(** ** 4. Hamburger menu, and 16. the resize handler *)

Module Hamburger.

(** [#hamburger]: its class list and its [aria-expanded] attribute
    ([None] while the attribute is absent). *)
Record button := Button { classList : gset string; ariaExpanded : option string }.

(** [#hamburger], the class list of [#mobileMenu] (either may be missing),
    [document.body.style.overflow] and [window.innerWidth]. *)
Record page := Page {
  btn : option button;
  menu : option (gset string);
  overflow : string;
  innerWidth : Z }.

(** [String(isOpen)] *)
Definition String_of_bool (b : bool) : string := if b then "true" else "false".

(** The click listener of [#hamburger]; [initHamburger] installs it only
    when both elements exist. *)
Definition click (p : page) : page :=
  match btn p, menu p with
  | Some b, Some m =>
      let '(isOpen, m') := ClassList.toggle "open" m in
      Page (Some (Button (ClassList.toggle_force "open" isOpen (classList b))
                         (Some (String_of_bool isOpen))))
           (Some m')
           (if isOpen then "hidden" else "")
           (innerWidth p)
  | _, _ => p
  end.

(** The click listener of every [.mobile-link]. *)
Definition link_click (p : page) : page :=
  match btn p, menu p with
  | Some b, Some m =>
      Page (Some (Button (ClassList.remove "open" (classList b)) (Some "false")))
           (Some (ClassList.remove "open" m))
           ""
           (innerWidth p)
  | _, _ => p
  end.

(** The debounced body of the [resize] listener. *)
Definition resize (p : page) : page :=
  if (768 <? innerWidth p)%Z then
    match menu p with
    | Some m =>
        if ClassList.contains "open" m then
          Page (match btn p with
                | Some b => Some (Button (ClassList.remove "open" (classList b))
                                         (ariaExpanded b))
                | None => None
                end)
               (Some (ClassList.remove "open" m))
               ""
               (innerWidth p)
        else p
    | None => p
    end
  else p.

(** What can happen to the menu: a click on the hamburger, a click on a
    mobile link, or the resize handler running at a new viewport width. *)
Inductive event := Click | LinkClick | Resize (w : Z).

Definition step (p : page) (ev : event) : page :=
  match ev with
  | Click => click p
  | LinkClick => link_click p
  | Resize w => resize (Page (btn p) (menu p) (overflow p) w)
  end.

Definition run (evs : list event) (p : page) : page := fold_left step evs p.

(** Button, menu and body agree: the button has 'open' exactly when the
    menu has it, and the body's overflow is 'hidden' then and '' otherwise. *)
Definition in_sync (p : page) : Prop :=
  ∃ b m, btn p = Some b ∧ menu p = Some m
         ∧ ("open" ∈ classList b ↔ "open" ∈ m)
         ∧ overflow p = (if ClassList.contains "open" m then "hidden" else "").

(** [aria-expanded] says whether the menu is open. *)
Definition aria_in_sync (p : page) : Prop :=
  ∃ b m, btn p = Some b ∧ menu p = Some m
         ∧ ariaExpanded b = Some (String_of_bool (ClassList.contains "open" m)).

End Hamburger.

(** ** IntersectionObserver *)

Module Observer.

Record entry := Entry { target : nat; isIntersecting : bool }.

#[global] Instance entry_eq_dec : EqDecision entry.
Proof. solve_decision. Defined.

(** Observation targets are kept in [observe] order, each at most once. *)
Definition observe (e : nat) (targets : list nat) : list nat :=
  if decide (e ∈ targets) then targets else targets ++ [e].

Definition unobserve (e : nat) (targets : list nat) : list nat :=
  filter (fun t => t ≠ e) targets.

(** [elements.forEach(el => observer.observe(el))] on a new observer. *)
Definition observe_each (elements : list nat) : list nat :=
  fold_left (fun ts i => observe i ts) elements [].

(** The same when the elements are numbered [0..n-1]. *)
Definition observe_all (n : nat) : list nat := observe_each (seq 0 n).

(** One delivery.  [changes] maps the elements whose intersection changed
    to their new [isIntersecting]; the browser reports only elements that
    are observed at that moment, in observation order, one entry each. *)
Definition entries (changes : gmap nat bool) (targets : list nat) : list entry :=
  omap (fun t => Entry t <$> changes !! t) targets.

(** Every effect was applied to distinct targets, none of which is still
    observed. *)
Definition single_fire (observed fired : list nat) : Prop :=
  NoDup observed ∧ NoDup fired ∧ ∀ i, i ∈ fired → i ∉ observed.

(** The entries still to be handled are for distinct observed targets. *)
Definition deliverable (es : list entry) (observed : list nat) : Prop :=
  NoDup (target <$> es) ∧ ∀ e, e ∈ es → target e ∈ observed.

End Observer.

(** ** 6. Reveal on scroll *)

Module Reveal.
Import EventLoop Observer.

(** An element of the document, numbered in document order: the numbers
    of its ancestors, nearest first (none for the root), and its class
    list. *)
Record node := Node { ancestors : list nat; classList : gset string }.

(** [() => el.classList.add('visible')] *)
Inductive task := Show (el : nat).

(** [fired] is specification state: the targets the callback revealed. *)
Record env := Env { nodes : list node; observed : list nat; fired : list nat }.

Definition add_visible (n : node) : node :=
  Node (ancestors n) (ClassList.add "visible" (classList n)).

Definition exec (t : task) (_ : nat) (l : loop task env) : loop task env :=
  match t with
  | Show el =>
      with_world (fun w => Env (alter add_visible el (nodes w)) (observed w) (fired w)) l
  end.

(** [parent.querySelectorAll('.reveal:not(.visible)')]: the descendants of
    [parent] with class 'reveal' and without 'visible', in document order. *)
Definition hidden_under (parent : nat) (n : node) : bool :=
  bool_decide (parent ∈ ancestors n)
  && ClassList.contains "reveal" (classList n)
  && negb (ClassList.contains "visible" (classList n)).

Definition querySelectorAll_hidden (parent : nat) (ns : list node) : list nat :=
  filter (fun i => (hidden_under parent <$> ns !! i) = Some true) (seq 0 (length ns)).

(** [siblings.forEach((el, idx) => setTimeout(() => ..., idx * 90))] *)
Fixpoint stagger (siblings : list nat) (idx : N) (l : loop task env) : loop task env :=
  match siblings with
  | [] => l
  | el :: rest => stagger rest (idx + 1) (setTimeout (Show el) (idx * 90) l).2
  end.

(** One entry; [None] when [entry.target.parentElement] is [null] and the
    call on it throws. *)
Definition on_entry (l : loop task env) (e : entry) : option (loop task env) :=
  if isIntersecting e then
    match ancestors <$> nodes (world l) !! target e with
    | Some (parent :: _) =>
        let siblings := querySelectorAll_hidden parent (nodes (world l)) in
        let l1 := stagger siblings 0 l in
        Some (with_world
                (fun w => Env (alter add_visible (target e) (nodes w))
                              (unobserve (target e) (observed w))
                              (fired w ++ [target e]))
                l1)
    | _ => None
    end
  else Some l.

(** [entries.forEach(...)]; an exception ends the iteration and keeps
    what was done before it. *)
Fixpoint callback (es : list entry) (l : loop task env) : loop task env :=
  match es with
  | [] => l
  | e :: es' =>
      match on_entry l e with
      | Some l' => callback es' l'
      | None => l
      end
  end.

(** [$$('.reveal')] *)
Definition elements (ns : list node) : list nat :=
  filter (fun i => (ClassList.contains "reveal" <$> (classList <$> ns !! i)) = Some true)
         (seq 0 (length ns)).

Definition initReveal (t0 : N) (ns : list node) : loop task env :=
  Loop t0 0 [] (Env ns (observe_each (elements ns)) []).

Inductive event := Frame (changes : gmap nat bool) | Tick.

Definition step (l : loop task env) (ev : event) : loop task env :=
  match ev with
  | Frame changes => callback (entries changes (observed (world l))) l
  | Tick => run_steps exec 1 l
  end.

Definition run (evs : list event) (l : loop task env) : loop task env :=
  fold_left step evs l.

(** The timers [stagger] adds to the queue: handles from [h] on, the first
    due at [t + idx * 90] and each one 90 ms after the one before. *)
Fixpoint staggered (siblings : list nat) (h : nat) (t idx : N) : list (timer task) :=
  match siblings with
  | [] => []
  | el :: rest =>
      Timer h (t + idx * 90) None (Show el) :: staggered rest (S h) t (idx + 1)
  end.

(** 'visible' added to each of [els] in turn. *)
Definition reveal_all (els : list nat) (ns : list node) : list node :=
  fold_left (fun ns el => alter add_visible el ns) els ns.

End Reveal.

(** ** 7. Skill progress bars *)

Module SkillBars.
Import Observer.

(** A [.skill-fill] element: [dataset.width] ([undefined] when there is no
    [data-width] attribute) and [style.width]. *)
Record bar := Bar { dataWidth : option string; styleWidth : string }.

(** [fired] is specification state: the targets whose width was set, in
    the order it happened. *)
Record state := State { bars : list bar; observed : list nat; fired : list nat }.

(** [entry.target.dataset.width || '80'] *)
Definition width_or_default (w : option string) : string :=
  match w with
  | Some "" | None => "80"
  | Some w => w
  end.

Section Browser.

(** The setter of [style.width] belongs to the browser, not to the script:
    [css_width v] is the serialisation the style holds afterwards when [v]
    parses as a value of the property, and [None] when it does not; the
    assignment is then ignored. *)
Variable css_width : string → option string.

(** [el.style.width = v] *)
Definition set_width (v : string) (b : bar) : bar :=
  match css_width v with
  | Some v' => Bar (dataWidth b) v'
  | None => b
  end.

Definition on_entry (s : state) (e : entry) : state :=
  if isIntersecting e then
    State
      (alter (fun b => set_width (width_or_default (dataWidth b) +:+ "%") b)
             (target e) (bars s))
      (unobserve (target e) (observed s))
      (fired s ++ [target e])
  else s.

(** [entries.forEach(...)] *)
Definition callback (es : list entry) (s : state) : state := fold_left on_entry es s.

Definition frame (changes : gmap nat bool) (s : state) : state :=
  callback (entries changes (observed s)) s.

(** Any sequence of deliveries. *)
Definition run (frames : list (gmap nat bool)) (s : state) : state :=
  fold_left (fun s changes => frame changes s) frames s.

(** The bar after the assignment of its width. *)
Definition filled (b : bar) : bar :=
  set_width (width_or_default (dataWidth b) +:+ "%") b.

End Browser.

(** [bars.forEach(bar => observer.observe(bar))]; with no bars there is no
    observer. *)
Definition initSkillBars (bs : list bar) : state :=
  State bs (observe_all (length bs)) [].

(** The digits of a text made of decimal digits and a final '%'. *)
Fixpoint percent_digits (v : string) : option string :=
  match v with
  | String c v' =>
      match v' with
      | "" => if Ascii.eqb c "%" then Some "" else None
      | _ =>
          if (48 <=? N_of_ascii c)%N && (N_of_ascii c <=? 57)%N
          then String c <$> percent_digits v'
          else None
      end
  | "" => None
  end.

Fixpoint strip_zeros (ds : string) : string :=
  match ds with
  | String "0" (String c ds' as rest) => strip_zeros rest
  | _ => ds
  end.

(** A setter for the examples.  It takes a percentage written as a plain
    decimal numeral and serialises it without leading zeros; it rejects
    every other text.  That is what a browser does with these numerals and
    with text that is no value of [width] at all, such as 'abc%' or '-5%';
    the other notations of a percentage are outside this setter. *)
Definition css_percent (v : string) : option string :=
  match percent_digits v with
  | Some "" | None => None
  | Some ds => Some (strip_zeros ds +:+ "%")
  end.

End SkillBars.

(** ** Strings of JavaScript *)

Module JSString.

(** The text a user types is a JavaScript string: a sequence of UTF-16
    code units, each below 65536.  [trim()] and a regular expression
    without the [u] flag work code unit by code unit. *)

(** The code units of a literal made of ASCII characters. *)
Fixpoint units (s : string) : list N :=
  match s with
  | EmptyString => []
  | String c s' => N_of_ascii c :: units s'
  end.

(** WhiteSpace and LineTerminator of ECMAScript, which are what [trim()]
    strips and what [\s] matches: TAB, LF, VT, FF, CR, space, NBSP, U+1680,
    U+2000 to U+200A, U+2028, U+2029, U+202F, U+205F, U+3000 and U+FEFF. *)
Definition is_space (c : N) : bool :=
  ((0x9 <=? c) && (c <=? 0xD) || (c =? 0x20) || (c =? 0xA0) || (c =? 0x1680)
   || (0x2000 <=? c) && (c <=? 0x200A) || (c =? 0x2028) || (c =? 0x2029)
   || (c =? 0x202F) || (c =? 0x205F) || (c =? 0x3000) || (c =? 0xFEFF))%N.

End JSString.

(** ** Regular expressions *)

(** The fragment of JavaScript regular expressions the script uses:
    character classes, concatenation and [+], matched against a whole
    string (the pattern is anchored with [^] and [$] and has no flags).
    Matching is by Brzozowski derivatives. *)

Module Regex.

Inductive regex :=
| Void
| Eps
| Class (p : N → bool)
| Cat (r1 r2 : regex)
| Alt (r1 r2 : regex)
| Star (r : regex).

(** [r+] *)
Definition Plus (r : regex) : regex := Cat r (Star r).

Fixpoint nullable (r : regex) : bool :=
  match r with
  | Void => false
  | Eps => true
  | Class _ => false
  | Cat r1 r2 => nullable r1 && nullable r2
  | Alt r1 r2 => nullable r1 || nullable r2
  | Star _ => true
  end.

Fixpoint deriv (c : N) (r : regex) : regex :=
  match r with
  | Void => Void
  | Eps => Void
  | Class p => if p c then Eps else Void
  | Cat r1 r2 =>
      if nullable r1 then Alt (Cat (deriv c r1) r2) (deriv c r2)
      else Cat (deriv c r1) r2
  | Alt r1 r2 => Alt (deriv c r1) (deriv c r2)
  | Star r1 => Cat (deriv c r1) (Star r1)
  end.

(** [/^r$/.test(s)] *)
Fixpoint test (r : regex) (s : list N) : bool :=
  match s with
  | [] => nullable r
  | c :: s' => test (deriv c r) s'
  end.

(** The strings a regular expression denotes. *)
Inductive lang : regex → list N → Prop :=
| lang_eps : lang Eps []
| lang_class p c : p c = true → lang (Class p) [c]
| lang_cat r1 r2 s1 s2 : lang r1 s1 → lang r2 s2 → lang (Cat r1 r2) (s1 ++ s2)
| lang_alt_l r1 r2 s : lang r1 s → lang (Alt r1 r2) s
| lang_alt_r r1 r2 s : lang r2 s → lang (Alt r1 r2) s
| lang_star_nil r : lang (Star r) []
| lang_star_cons r s1 s2 : lang r s1 → lang (Star r) s2 → lang (Star r) (s1 ++ s2).

End Regex.

(** ** 9. Contact form *)

Module ContactForm.
Import EventLoop JSString.

Fixpoint trimStart (s : list N) : list N :=
  match s with
  | c :: s' => if is_space c then trimStart s' else s
  | [] => []
  end.

(** [s.trim()] *)
Definition trim (s : list N) : list N :=
  reverse (trimStart (reverse (trimStart s))).

(** [[^\s@]] *)
Definition not_space_at (c : N) : bool :=
  negb (is_space c || (c =? 0x40)%N).

(** [/^[^\s@]+@[^\s@]+\.[^\s@]+$/] *)
Definition emailRx : Regex.regex :=
  Regex.Cat (Regex.Plus (Regex.Class not_space_at))
    (Regex.Cat (Regex.Class (N.eqb 0x40))
       (Regex.Cat (Regex.Plus (Regex.Class not_space_at))
          (Regex.Cat (Regex.Class (N.eqb 0x2E))
             (Regex.Plus (Regex.Class not_space_at))))).

(** Every code unit of [s] is in the class [p]. *)
Definition all_chars (p : N → bool) (s : list N) : bool := forallb p s.

(** A non-empty run of code units other than white space and [@]. *)
Definition word (s : list N) : Prop := s ≠ [] ∧ all_chars not_space_at s = true.

(** A form control of the page.  [onInput] counts the one-shot [input]
    listeners the submit handler has put on it. *)
Record field := Field {
  id : string;
  inForm : bool;             (* inside [#contactForm] *)
  required : bool;           (* has the [required] attribute *)
  value : list N;
  defaultValue : list N;
  borderColor : string;      (* [style.borderColor] *)
  onInput : nat }.

(** [#submitBtn]: [disabled], the text of its first [span] and the class
    name of its first [i], when it has them. *)
Record button := Button {
  disabled : bool;
  span : option string;
  icon : option string }.

(** The controls in document order, [#submitBtn], the class list of
    [#formSuccess], and the control that has the focus. *)
Record dom := Dom {
  fields : list field;
  btn : option button;
  success : option (gset string);
  focused : option nat }.

(** The two timer callbacks: the end of the simulated send, and the one
    that hides the success message. *)
Inductive task := Sent | Hide.

Definition invalid : string := "rgba(252, 90, 90, 0.7)".

Definition set_border (color : string) (f : field) : field :=
  Field (id f) (inForm f) (required f) (value f) (defaultValue f) color (onInput f).

(** [!field.value.trim()] for a field selected by [$$('[required]', form)] *)
Definition missing (f : field) : bool :=
  inForm f && required f && bool_decide (trim (value f) = []).

(** The body of the [forEach] over the required fields. *)
Definition check_required (f : field) : field :=
  if missing f
  then Field (id f) (inForm f) (required f) (value f) (defaultValue f)
             invalid (S (onInput f))
  else f.

(** [$('#email')] *)
Definition emailEl (d : dom) : option (nat * field) :=
  list_find (fun f => id f = "email") (fields d).

(** [btn.disabled = true; if (btnText) btnText.textContent = 'Sending…';
    if (btnIcon) btnIcon.className = 'fas fa-spinner fa-spin'] *)
Definition busy (b : button) : button :=
  Button true
    (match span b with Some _ => Some "Sending…" | None => None end)
    (match icon b with Some _ => Some "fas fa-spinner fa-spin" | None => None end).

(** [btn.disabled = false; if (btnText) btnText.textContent = 'Send Message';
    if (btnIcon) btnIcon.className = 'fas fa-paper-plane'] *)
Definition restored (b : button) : button :=
  Button false
    (match span b with Some _ => Some "Send Message" | None => None end)
    (match icon b with Some _ => Some "fas fa-paper-plane" | None => None end).

(** The simulated send, from [const btnText = btn.querySelector('span')]
    on. *)
Definition send (l : loop task dom) : loop task dom :=
  match btn (world l) with
  | Some b =>
      (setTimeout Sent 1800
         (with_world (fun d => Dom (fields d) (Some (busy b)) (success d) (focused d))
                     l)).2
  | None => l                        (* [btn.querySelector] throws on [null] *)
  end.

(** The [submit] listener of [#contactForm]. *)
Definition submit (l : loop task dom) : loop task dom :=
  let valid := forallb (fun f => negb (missing f)) (fields (world l)) in
  let l1 := with_world
              (fun d => Dom (check_required <$> fields d) (btn d) (success d) (focused d))
              l in
  if negb valid then l1
  else
    match emailEl (world l1) with
    | Some (i, e) =>
        if negb (Regex.test emailRx (value e)) then
          with_world
            (fun d => Dom (<[i := set_border invalid e]> (fields d)) (btn d)
                          (success d) (Some i))
            l1
        else send l1
    | None => send l1
    end.

(** [form.reset()] *)
Definition reset (f : field) : field :=
  if inForm f
  then Field (id f) (inForm f) (required f) (defaultValue f) (defaultValue f)
             (borderColor f) (onInput f)
  else f.

Definition exec (t : task) (_ : nat) (l : loop task dom) : loop task dom :=
  match t with
  | Sent =>
      (setTimeout Hide 5000
         (with_world
            (fun d => Dom (reset <$> fields d)
                          (restored <$> btn d)
                          (ClassList.add "show" <$> success d)
                          (focused d))
            l)).2
  | Hide =>
      with_world
        (fun d => Dom (fields d) (btn d) (ClassList.remove "show" <$> success d)
                      (focused d))
        l
  end.

(** An [input] event on control [i]: its one-shot listeners clear the
    border and are gone. *)
Definition input (i : nat) (v : list N) (l : loop task dom) : loop task dom :=
  with_world
    (fun d => Dom (alter (fun f => Field (id f) (inForm f) (required f) v (defaultValue f)
                                     (match onInput f with
                                      | O => borderColor f
                                      | S _ => ""
                                      end) 0)
                         i (fields d))
                  (btn d) (success d) (focused d))
    l.

(** A page for the examples: a form with a name, an email, an optional
    subject and a message, a submit button with the given label, and a
    success message. *)
Definition sample (name email message label : string) : loop task dom :=
  Loop 0 0 []
    (Dom [Field "name" true true (units name) [] "" 0;
          Field "email" true true (units email) [] "" 0;
          Field "subject" true false [] [] "" 0;
          Field "message" true true (units message) [] "" 0]
         (Some (Button false (Some label) (Some "fas fa-paper-plane")))
         (Some {["form-success"]})
         None).

(** Every required field of the form is filled in, and the email field,
    if the page has one, holds an address of the accepted shape. *)
Definition acceptable (d : dom) : Prop :=
  (∀ f, f ∈ fields d → inForm f = true → required f = true → trim (value f) ≠ [])
  ∧ (∀ i e, emailEl d = Some (i, e) → Regex.test emailRx (value e) = true).

(** The simulated send has started: the button is disabled and the
    1800 ms timer is the newest pending timer. *)
Definition sending (l l' : loop task dom) : Prop :=
  timers l' = timers l ++ [Timer (fresh l) (now l + 1800) None Sent]
  ∧ disabled <$> btn (world l') = Some true.

(** While earlier timers of the form fire, the page stays within these
    states: the controls as they were at the submit or reset, the button
    busy or restored, the success message as it was but for 'show'. *)
Definition in_flight (d0 : dom) (b : button) (d : dom) : Prop :=
  (fields d = fields d0 ∨ fields d = reset <$> fields d0)
  ∧ (btn d = Some (busy b) ∨ btn d = Some (restored b))
  ∧ (match success d0, success d with
     | Some s0, Some s => ∀ c, c ≠ "show" → c ∈ s ↔ c ∈ s0
     | None, None => True
     | _, _ => False
     end)
  ∧ focused d = focused d0.

End ContactForm.

(** ** 11. Typing effect *)

Module Typing.
Import EventLoop.

(** The list the script cycles through.  The model takes the list as a
    parameter so that runs over other lists can be stated. *)
Definition words : list string :=
  ["Software Developer"; "AI Enthusiast"; "IT Support Specialist";
   "SEO & Content Manager"].

(** [s.slice(0, e)]: a negative [e] counts from the end.  A character of
    a word stands for one UTF-16 code unit, which [slice] and [length]
    count; the words of the model have the code units below 256, as those
    of the script have. *)
Definition slice0 (e : Z) (s : string) : string :=
  let len := Z.of_nat (String.length s) in
  let e' := if (e <? 0)%Z then Z.max (len + e) 0 else Z.min e len in
  String.substring 0 (Z.to_nat e') s.

(** The two closures given to [setTimeout]: [tick] itself, and
    [() => { paused = false; deleting = true; tick(); }]. *)
Inductive task := Tick | Resume.

(** The text of [.hero-roles] and the four captured variables.  [shown]
    is specification state: every text written by [tick], with its time. *)
Record env := Env {
  textContent : string;
  wordIdx : nat;
  charIdx : Z;
  deleting : bool;
  paused : bool;
  shown : list (N * string) }.

Section Tick.
Variable words : list string.

Definition tick (l : loop task env) : loop task env :=
  let w := world l in
  match words !! wordIdx w with
  | None => l                        (* [word.slice] throws on [undefined] *)
  | Some word =>
      if negb (deleting w) then
        let text := slice0 (charIdx w + 1) word in
        let charIdx' := (charIdx w + 1)%Z in
        let log := shown w ++ [(now l, text)] in
        if (charIdx' =? Z.of_nat (String.length word))%Z then
          (setTimeout Resume 2000
             (with_world (fun _ => Env text (wordIdx w) charIdx' false true log) l)).2
        else
          let l1 := with_world
                      (fun _ => Env text (wordIdx w) charIdx' false (paused w) log) l in
          if negb (paused w) then (setTimeout Tick 95 l1).2 else l1
      else
        let text := slice0 (charIdx w - 1) word in
        let charIdx' := (charIdx w - 1)%Z in
        let log := shown w ++ [(now l, text)] in
        let done := (charIdx' =? 0)%Z in
        let deleting' := negb done in
        let wordIdx' := if done then ((wordIdx w + 1) mod length words)%nat
                        else wordIdx w in
        let speed := if deleting' then 55%N else 95%N in
        let l1 := with_world
                    (fun _ => Env text wordIdx' charIdx' deleting' (paused w) log) l in
        if negb (paused w) then (setTimeout Tick speed l1).2 else l1
  end.

Definition exec (t : task) (_ : nat) (l : loop task env) : loop task env :=
  match t with
  | Tick => tick l
  | Resume =>
      tick (with_world
              (fun w => Env (textContent w) (wordIdx w) (charIdx w) true false (shown w))
              l)
  end.

(** [hero] is the text of [.hero-roles], [None] when the page has no such
    element: then nothing is scheduled. *)
Definition initTypingEffect (hero : option string) (t0 : N) : loop task env :=
  match hero with
  | None => Loop t0 0 [] (Env "" 0 0 false false [])
  | Some _ => (setTimeout Tick 1200 (Loop t0 0 [] (Env "" 0 0 false false []))).2
  end.

End Tick.

(** The texts of a word being typed from [c] characters on, one every
    95 ms from [t], [m] of them. *)
Fixpoint grow_from (t : N) (word : string) (c m : nat) : list (N * string) :=
  match m with
  | O => []
  | S m' => (t, String.substring 0 (S c) word) :: grow_from (t + 95) word (S c) m'
  end.

(** The texts of a word being deleted from [c] characters on, one every
    55 ms from [t], [m] of them. *)
Fixpoint shrink_from (t : N) (word : string) (c m : nat) : list (N * string) :=
  match m with
  | O => []
  | S m' => (t, String.substring 0 (c - 1) word) :: shrink_from (t + 55) word (c - 1) m'
  end.

(** One cycle on [word] whose first character appears at [t]: typed up to
    the full word, a pause of 2000 ms, deleted down to nothing. *)
Definition cycle_log (t : N) (word : string) : list (N * string) :=
  let len := String.length word in
  grow_from t word 0 len
  ++ shrink_from (t + 95 * N.of_nat (len - 1) + 2000) word len len.

(** From the first character of a word to the first character of the
    next. *)
Definition cycle_time (word : string) : N :=
  let len := String.length word in
  (95 * N.of_nat (len - 1) + 2000 + 55 * N.of_nat (len - 1) + 95)%N.

(** [k] cycles in a row on the same word. *)
Fixpoint cycles_log (t : N) (word : string) (k : nat) : list (N * string) :=
  match k with
  | O => []
  | S k' => cycle_log t word ++ cycles_log (t + cycle_time word) word k'
  end.

(** One pass over a list of words, the first character of the first word
    appearing at [t]. *)
Fixpoint pass_log (t : N) (ws : list string) : list (N * string) :=
  match ws with
  | [] => []
  | w :: ws' => cycle_log t w ++ pass_log (t + cycle_time w) ws'
  end.

(** Timer firings, and time, of one pass. *)
Definition pass_steps (ws : list string) : nat :=
  fold_right (fun w n => (2 * String.length w + n)%nat) 0%nat ws.

Definition pass_time (ws : list string) : N :=
  fold_right (fun w t => (cycle_time w + t)%N) 0%N ws.

End Typing.

(** ** 13. Animated number counters *)

Module Counters.
Import EventLoop Observer.

(** [[0-9]]; [\D] is its complement (the regexes carry no [u] flag). *)
Definition is_digit (c : ascii) : bool :=
  (48 <=? N_of_ascii c)%N && (N_of_ascii c <=? 57)%N.

(** [s.replace(/re/g, '')] for a one-character class: keep the characters
    outside the class, here given by the predicate on those kept. *)
Fixpoint keep (p : ascii → bool) (s : string) : string :=
  match s with
  | EmptyString => EmptyString
  | String c s' => if p c then String c (keep p s') else keep p s'
  end.

(** The Numbers of the animation are binary64 values that are whole and
    not negative, or +∞: [parseInt] of a run of digits, [Math.ceil] of a
    quotient, and sums and minima of these.  [Fin n] is the Number whose
    value is the integer [n]; the operations below only build it for an
    [n] that binary64 holds. *)
Inductive num := Fin (n : N) | Inf.

(** [a / b] rounded to the nearest integer, a tie to the even one. *)
Definition round_div (a b : N) : N :=
  let q := (a / b)%N in
  let r := (a mod b)%N in
  if (b <? 2 * r)%N || ((2 * r =? b)%N && N.odd q) then (q + 1)%N else q.

Definition fin_or_inf (v : N) : num :=
  if (2 ^ 1024 <=? v)%N then Inf else Fin v.

(** The binary64 value of the integer [n], round to nearest, ties to
    even: [n] itself below 2^53; from there on the 53 leading bits are
    kept and the [s] bits below them rounded away; +∞ when the result
    passes the largest finite value. *)
Definition toNumber (n : N) : num :=
  if (n <? 2 ^ 53)%N then Fin n
  else let s := (N.log2 n - 52)%N in fin_or_inf (round_div n (2 ^ s) * 2 ^ s).

(** [x + y] *)
Definition num_add (x y : num) : num :=
  match x, y with
  | Fin a, Fin b => toNumber (a + b)
  | _, _ => Inf
  end.

(** [Math.min(x, y)] *)
Definition num_min (x y : num) : num :=
  match x, y with
  | Fin a, Fin b => Fin (N.min a b)
  | Fin a, Inf => Fin a
  | Inf, y => y
  end.

(** [x === y] *)
Definition num_eqb (x y : num) : bool :=
  match x, y with
  | Fin a, Fin b => (a =? b)%N
  | Inf, Inf => true
  | _, _ => false
  end.


(** [Math.ceil(x / 35)]: the quotient is rounded to binary64 first.  For
    [x] below 35 and not 0 the quotient lies in (0, 1) and its ceiling is
    1.  Otherwise, with 2^e ≤ x/35 < 2^(e+1), the quotient is rounded to
    a multiple of 2^(e-52): for [e < 52] to [m / 2^t] with [t = 52 - e]
    and [m] the nearest integer to [x * 2^t / 35], whose ceiling is
    taken; for [52 ≤ e] to a whole number, which is its own ceiling. *)
Definition ceil_quot35 (x : num) : num :=
  match x with
  | Inf => Inf
  | Fin a =>
      let k := (a / 35)%N in
      if (k =? 0)%N then Fin (if (a =? 0)%N then 0 else 1)
      else
        let e := N.log2 k in
        if (e <? 52)%N then
          let t := (52 - e)%N in
          let m := round_div (a * 2 ^ t) 35 in
          Fin ((m + 2 ^ t - 1) / 2 ^ t)
        else
          let s := (e - 52)%N in
          fin_or_inf (round_div a (35 * 2 ^ s) * 2 ^ s)
  end.

(** The decimal numeral with the fewest significant digits that reads
    back as the Number [Fin v]: for [j] trailing zeros, [j] descending,
    the two multiples of 10^j around [v] are tried; of two that read back
    as [v] the nearer one is taken, the even one on a tie. *)
Fixpoint shortest (v : N) (j : nat) : N :=
  match j with
  | O => v
  | S j' =>
      let p := (10 ^ N.of_nat j)%N in
      let lo := (v / p * p)%N in
      let hi := (lo + p)%N in
      let ok c := num_eqb (toNumber c) (Fin v) in
      if ok lo && ok hi then
        if (v - lo <? hi - v)%N then lo
        else if (hi - v <? v - lo)%N then hi
        else if N.even (lo / p) then lo else hi
      else if ok lo then lo
      else if ok hi then hi
      else shortest v j'
  end.

Fixpoint drop_zeros_end (s : string) : string :=
  match s with
  | EmptyString => EmptyString
  | String c s' =>
      match drop_zeros_end s' with
      | EmptyString => if Ascii.eqb c "0" then EmptyString else String c EmptyString
      | r => String c r
      end
  end.

(** [d.ddd…e+x] for the integer [c], used from 10^21 on. *)
Definition exponential (c : N) : string :=
  let digits := pretty c in
  match drop_zeros_end digits with
  | EmptyString => "0"
  | String d EmptyString =>
      String d EmptyString +:+ "e+" +:+ pretty (String.length digits - 1)%nat
  | String d rest =>
      String d EmptyString +:+ "." +:+ rest +:+ "e+"
        +:+ pretty (String.length digits - 1)%nat
  end.

(** [String(x)], as in [start + suffix]. *)
Definition toString (x : num) : string :=
  match x with
  | Inf => "Infinity"
  | Fin v =>
      let c := shortest v (String.length (pretty v)) in
      if (c <? 10 ^ 21)%N then pretty c else exponential c
  end.

(** [parseInt(s, 10)] on a string that starts with neither white space nor
    a sign (here it is made of digits only): [parse_digits] is the integer
    that the leading run of digits spells, [None] when there is no digit;
    [parseInt] is the Number nearest to it, [None] for [NaN].  (From the
    21st significant digit on the standard lets an implementation read a
    digit as 0; the engines in use do not.) *)
Fixpoint parse_digits (s : string) (acc : option N) : option N :=
  match s with
  | String c s' =>
      if is_digit c
      then parse_digits s' (Some (10 * default 0 acc + (N_of_ascii c - 48)))%N
      else acc
  | EmptyString => acc
  end.

Definition parseInt (s : string) : option num := toNumber <$> parse_digits s None.

(** ceil (a / b) in exact arithmetic. *)
Definition ceil_div (a b : N) : N := ((a + b - 1) / b)%N.

(** The interval callback of one animation; it captures the element, the
    step, the target and the suffix. *)
Inductive task := Step (el : nat) (step end_ : num) (suffix : string).

(** [texts]: the [textContent] of each [.stat-number] element.  [starts]:
    the captured variable [start] of each running animation, under the
    handle of its interval.  [fired] is specification state: the targets
    whose animation was started, in order. *)
Record env := Env {
  texts : list string;
  observed : list nat;
  starts : gmap nat num;
  fired : list nat }.

Definition exec (t : task) (timer : nat) (l : loop task env) : loop task env :=
  match t with
  | Step el step end_ suffix =>
      let start :=
        num_min (num_add (default (Fin 0) (starts (world l) !! timer)) step) end_ in
      let l1 := with_world
                  (fun w => Env (<[el := toString start +:+ suffix]> (texts w))
                                (observed w) (<[timer := start]> (starts w)) (fired w))
                  l in
      if num_eqb start end_ then clearTimeout (Some timer) l1 else l1
  end.

Definition on_entry (l : loop task env) (e : entry) : loop task env :=
  if isIntersecting e then
    match texts (world l) !! target e with
    | Some textContent =>
        let text := keep is_digit textContent in
        let suffix := keep (fun c => negb (is_digit c)) textContent in
        match parseInt text with
        | None | Some (Fin 0%N) => l                   (* [if (!end) return] *)
        | Some end_ =>
            let step := ceil_quot35 end_ in
            let '(timer, l1) := setInterval (Step (target e) step end_ suffix) 38 l in
            with_world
              (fun w => Env (texts w) (unobserve (target e) (observed w))
                            (<[timer := Fin 0]> (starts w)) (fired w ++ [target e]))
              l1
        end
    | None => l
    end
  else l.

Definition callback (es : list entry) (l : loop task env) : loop task env :=
  fold_left on_entry es l.

(** [counters.forEach(el => observer.observe(el))] at time [t0]. *)
Definition initCounters (t0 : N) (ts : list string) : loop task env :=
  Loop t0 0 []
    (Env ts (observe_all (length ts)) ∅ []).

(** What can happen next: the observer delivers a batch, or the next
    pending timer fires. *)
Inductive event := Frame (changes : gmap nat bool) | Tick.

Definition step (l : loop task env) (ev : event) : loop task env :=
  match ev with
  | Frame changes => callback (entries changes (observed (world l))) l
  | Tick => run_steps exec 1 l
  end.

Definition run (evs : list event) (l : loop task env) : loop task env :=
  fold_left step evs l.

(** The element a pending interval animates. *)
Definition animated (t : timer task) : nat :=
  match t_task t with Step el _ _ _ => el end.

(** In exact arithmetic, which the Numbers follow for a target below
    2^53: the number of ticks of an animation towards [end_] in steps of
    [step]. *)
Definition ticks (step end_ : N) : nat := N.to_nat (ceil_div end_ step).


(** The variable [start] after [k] firings of an interval that is alone
    on the queue: once the target is reached the interval is cleared and
    [start] stays. *)
Fixpoint count (step end_ : num) (k : nat) : num :=
  match k with
  | O => Fin 0
  | S k' =>
      let start := count step end_ k' in
      if num_eqb start end_ then start
      else num_min (num_add start step) end_
  end.



(** The same Numbers as binary64 floats of the kernel, to compare the
    operations above with the machine's. *)
Definition to_float (x : num) : PrimFloat.float :=
  match x with
  | Fin n => Navbar.of_Z (Z.of_N n)
  | Inf => PrimFloat.infinity
  end.

(** [Math.ceil] of a float that is finite and not negative. *)
Definition ceil_float (x : PrimFloat.float) : PrimFloat.float :=
  match FloatOps.Prim2SF x with
  | SpecFloat.S754_finite false m e =>
      Navbar.of_Z (if (0 <=? e)%Z then Z.pos m * 2 ^ e
                   else (Z.pos m + 2 ^ (- e) - 1) / 2 ^ (- e))
  | _ => x
  end.

End Counters.

(** ** 8. Back-to-top button *)

Module BackTop.
Import EventLoop.

(** [window.scrollY] and the class list of [#backTop]. *)
Record state := State { scrollY : Q; classList : gset string }.

(** [() => { btn.classList.toggle('show', window.scrollY > 500); }]; the
    argument is the scroll event, which the callback ignores.  An event is
    identified with the scroll position at which it was dispatched. *)
Definition update (_ : Q) (p : state) : state :=
  State (scrollY p)
       (ClassList.toggle_force "show" (negb (Qle_bool (scrollY p) (inject_Z 500)))
                               (classList p)).

(** A [scroll] event with the window at [y]: the listener is
    [debounce(update, 50)]. *)
Definition scroll (y : Q) (l : loop (@Debounce.task Q state) (@Debounce.env Q state))
    : loop (@Debounce.task Q state) (@Debounce.env Q state) :=
  Debounce.debounce update 50 y
    (with_world
       (fun w => Debounce.Env (Debounce.timer w)
                              (State y (classList (Debounce.page w)))
                              (Debounce.calls w))
       l).

End BackTop.

(** ** 14. prefers-reduced-motion *)

Module ReducedMotion.
Import Reveal.

(** What the function touches: the inline [--ease-spring] of the root
    element, the inline [style.animation] of the elements that have one (by
    element number), and the elements themselves. *)
Record doc := Doc {
  easeSpring : option string;
  animation : gmap nat string;
  dom : list node }.

(** [document.querySelectorAll('.blob, .scroll-line::after')]: a selector
    with a pseudo-element matches no element, which leaves the elements of
    class 'blob'. *)
Definition blobs (ns : list node) : list nat :=
  filter (fun i => (ClassList.contains "blob" <$> (classList <$> ns !! i)) = Some true)
         (seq 0 (length ns)).

(** [matches] is the result of the media query. *)
Definition respectReducedMotion (matches : bool) (d : doc) : doc :=
  if matches then
    Doc (Some "linear")
        (fold_left (fun m el => <[el := "none"]> m) (blobs (dom d)) (animation d))
        (reveal_all (elements (dom d)) (dom d))
  else d.

(** Every element of class 'reveal' has 'visible'. *)
Definition all_visible (ns : list node) : Prop :=
  ∀ i n, ns !! i = Some n → "reveal" ∈ classList n → "visible" ∈ classList n.

End ReducedMotion.

(* ================================================================== *)
(** * Part II.  Properties *)
(* ================================================================== *)

Section ClassListProps.

Lemma elem_of_add c d (m : gset string) : c ∈ ClassList.add d m ↔ c ∈ m ∨ c = d.
Proof. unfold ClassList.add. set_solver. Qed.

Lemma add_elem c (m : gset string) : c ∈ m → ClassList.add c m = m.
Proof. unfold ClassList.add. set_solver. Qed.

Lemma elem_of_remove c d (m : gset string) : c ∈ ClassList.remove d m ↔ c ∈ m ∧ c ≠ d.
Proof. unfold ClassList.remove. set_solver. Qed.

End ClassListProps.

Section LoopProps.
Import EventLoop.
Context {Task St : Type}.
Variable exec : Task → nat → loop Task St → loop Task St.

Lemma run_steps_idle n (l : loop Task St) :
  earliest (timers l) = None → run_steps exec n l = l.
Proof. intros E. destruct n; cbn; by rewrite ?E. Qed.

Lemma run_steps_add a b (l : loop Task St) :
  run_steps exec (a + b) l = run_steps exec b (run_steps exec a l).
Proof.
  revert l; induction a as [|a IH]; intros l; [done|]. cbn.
  destruct (earliest (timers l)) eqn:E; [apply IH|].
  by rewrite run_steps_idle.
Qed.

Lemma run_steps_S n (l : loop Task St) :
  run_steps exec (S n) l = run_steps exec n (run_steps exec 1 l).
Proof. apply (run_steps_add 1 n). Qed.

Lemma earliest_elem (ts : list (timer Task)) t : earliest ts = Some t → t ∈ ts.
Proof.
  revert t; induction ts as [|u ts IH]; intros t; cbn; [done|].
  destruct (earliest ts) as [v|].
  - destruct (_ <? _)%N; intros [= <-]; [right; by apply IH|left].
  - intros [= <-]. left.
Qed.

Lemma elem_of_drop id (ts : list (timer Task)) t : t ∈ drop id ts → t ∈ ts.
Proof. unfold drop. rewrite list_elem_of_filter. tauto. Qed.


Lemma earliest_min (ts : list (timer Task)) t :
  earliest ts = Some t → ∀ u, u ∈ ts → (t_due t ≤ t_due u)%N.
Proof.
  revert t; induction ts as [|v ts IH]; intros t; cbn; [done|].
  destruct (earliest ts) as [w|] eqn:E.
  - destruct (N.ltb_spec (t_due w) (t_due v)); intros [= <-] u [->|Hu]%elem_of_cons.
    + lia.
    + by apply IH.
    + lia.
    + specialize (IH w eq_refl u Hu). lia.
  - intros [= <-] u [->|Hu]%elem_of_cons; [lia|].
    destruct ts; [by apply elem_of_nil in Hu|]. cbn in E.
    destruct (earliest ts); [by destruct (_ <? _)%N|done].
Qed.


Lemma drop_single id due every (task : Task) :
  drop id [Timer id due every task] = [].
Proof. unfold drop. cbn. by rewrite decide_False by (intros H; by apply H). Qed.

(** One firing of the only pending timer, an interval. *)
Lemma run_steps_interval (l : loop Task St) id due p task :
  timers l = [Timer id due (Some p) task] →
  run_steps exec 1 l
  = exec task id (Loop (N.max (now l) due) (fresh l)
                       [Timer id (due + p) (Some p) task] (world l)).
Proof.
  intros E. cbn. rewrite E. cbn. unfold fire. rewrite E. cbn [t_id t_every t_due t_task].
  by rewrite drop_single.
Qed.

(** One firing of the only pending timer, a timeout. *)
Lemma run_steps_timeout (l : loop Task St) id due task :
  timers l = [Timer id due None task] →
  run_steps exec 1 l
  = exec task id (Loop (N.max (now l) due) (fresh l) [] (world l)).
Proof.
  intros E. cbn. rewrite E. cbn. unfold fire. rewrite E. cbn [t_id t_every t_due t_task].
  by rewrite drop_single.
Qed.

Lemma run_until_empty fuel T (l : loop Task St) :
  timers l = [] →
  run_until exec fuel T l = Some (Loop (N.max (now l) T) (fresh l) [] (world l)).
Proof. intros E. destruct fuel; cbn; by rewrite E. Qed.

Lemma run_until_before fuel T (l : loop Task St) t :
  timers l = [t] → (T < t_due t)%N →
  run_until exec fuel T l = Some (Loop (N.max (now l) T) (fresh l) [t] (world l)).
Proof.
  intros E Hlt. assert ((t_due t <=? T)%N = false) as Hb by by apply N.leb_gt.
  destruct fuel; cbn; by rewrite E; cbn; rewrite Hb.
Qed.

Lemma run_until_fire fuel T (l : loop Task St) id due task :
  timers l = [Timer id due None task] → (due ≤ T)%N →
  run_until exec (S fuel) T l
  = run_until exec fuel T
      (exec task id (Loop (N.max (now l) due) (fresh l) [] (world l))).
Proof.
  intros E Hle. assert ((due <=? T)%N = true) as Hb by by apply N.leb_le.
  cbn. rewrite E. cbn. rewrite Hb. unfold fire. rewrite E.
  cbn [t_id t_every t_due t_task]. by rewrite drop_single.
Qed.

End LoopProps.

Section LoopOrder.
Import EventLoop.
Context {Task St : Type}.
Variable exec : Task → nat → loop Task St → loop Task St.

(** The timer that fires next is the first of those with the least due
    time. *)
Lemma earliest_split (ts : list (timer Task)) t :
  earliest ts = Some t →
  ∃ a b, ts = a ++ t :: b
         ∧ (∀ u, u ∈ a → (t_due t < t_due u)%N)
         ∧ (∀ u, u ∈ b → (t_due t ≤ t_due u)%N).
Proof.
  revert t. induction ts as [|v ts IH]; intros t; cbn; [done|].
  destruct (earliest ts) as [w|] eqn:E.
  - destruct (N.ltb_spec (t_due w) (t_due v)) as [Hlt|Hge]; intros [= <-].
    + destruct (IH w eq_refl) as (a & b & -> & Ha & Hb).
      exists (v :: a), b. split; [done|]. split; [|done].
      intros u [->|Hu]%elem_of_cons; [done|by apply Ha].
    + exists [], ts. split; [done|]. split; [by intros u ?%elem_of_nil|].
      intros u Hu. pose proof (earliest_min _ _ E u Hu). lia.
  - intros [= <-]. exists [], ts. split; [done|]. split; [by intros u ?%elem_of_nil|].
    destruct ts as [|u ts]; [by intros ? ?%elem_of_nil|]. cbn in E.
    destruct (earliest ts); [by destruct (_ <? _)%N|done].
Qed.

(** Nothing fires while every pending timer is due later. *)
Lemma run_until_all_later fuel T (l : loop Task St) :
  (∀ tm, tm ∈ timers l → (T < t_due tm)%N) →
  run_until exec fuel T l = Some (Loop (N.max (now l) T) (fresh l) (timers l) (world l)).
Proof.
  intros H.
  assert (match earliest (timers l) with
          | Some t => (t_due t <=? T)%N = false
          | None => True
          end) as He.
  { destruct (earliest (timers l)) as [t|] eqn:E; [|done].
    apply earliest_elem, H in E. apply N.leb_gt. lia. }
  destruct fuel; cbn; destruct (earliest (timers l)); try done; by rewrite He.
Qed.

End LoopOrder.

Section ObserverProps.
Import Observer.

Lemma observe_all_seq n : observe_all n = seq 0 n.
Proof.
  unfold observe_all, observe_each. induction n as [|n IH]; [done|].
  rewrite seq_S, fold_left_app, IH. cbn. unfold observe.
  rewrite decide_False; [done|]. rewrite elem_of_seq. lia.
Qed.

Lemma elem_of_entries changes targets t b :
  Entry t b ∈ entries changes targets ↔ t ∈ targets ∧ changes !! t = Some b.
Proof.
  unfold entries. rewrite list_elem_of_omap. split.
  - intros (t' & Ht & E). destruct (changes !! t') as [b'|] eqn:Eb; [|done].
    cbn in E. by simplify_eq.
  - intros [Ht E]. exists t. by rewrite E.
Qed.

Lemma entries_targets changes targets :
  NoDup targets →
  NoDup (target <$> entries changes targets)
  ∧ ∀ e, e ∈ entries changes targets → target e ∈ targets.
Proof.
  intros Hnd. split.
  - unfold entries. induction Hnd as [|t ts Ht Hnd IH]; cbn; [constructor|].
    destruct (changes !! t) as [b|]; cbn; [|done].
    constructor; [|done]. rewrite list_elem_of_fmap.
    intros ([t' b'] & -> & He). apply elem_of_entries in He. cbn in Ht. tauto.
  - intros [t b] He. by apply elem_of_entries in He as [? _].
Qed.

Lemma unobserve_spec e targets t : t ∈ unobserve e targets ↔ t ∈ targets ∧ t ≠ e.
Proof. unfold unobserve. by rewrite list_elem_of_filter, (comm and). Qed.

Lemma unobserve_NoDup e targets : NoDup targets → NoDup (unobserve e targets).
Proof. apply NoDup_filter. Qed.

Lemma observe_each_from els : ∀ ts,
  NoDup ts → NoDup (fold_left (fun ts i => observe i ts) els ts).
Proof.
  induction els as [|i els IH]; intros ts Hts; [done|]. cbn. apply IH.
  unfold observe. destruct (decide (i ∈ ts)); [done|].
  apply NoDup_app. split; [done|]. split; [|apply NoDup_singleton].
  intros x Hx ->%list_elem_of_singleton. done.
Qed.

Lemma observe_each_NoDup els : NoDup (observe_each els).
Proof. apply observe_each_from. constructor. Qed.

Lemma single_fire_init els : single_fire (observe_each els) [].
Proof.
  split; [apply observe_each_NoDup|]. split; [constructor|].
  intros i Hi. by apply elem_of_nil in Hi.
Qed.

Lemma deliverable_entries changes obs :
  NoDup obs → deliverable (entries changes obs) obs.
Proof. apply entries_targets. Qed.

Lemma deliverable_tail e es obs : deliverable (e :: es) obs → deliverable es obs.
Proof.
  intros [Hnd Hin]. rewrite fmap_cons in Hnd. apply NoDup_cons in Hnd as [_ Hnd].
  split; [done|]. intros e' He'. apply Hin. by right.
Qed.

(** Handling an entry by applying the effect and unobserving its target
    keeps the record of effects duplicate-free and off the observer. *)
Lemma single_fire_trigger e es obs fd :
  single_fire obs fd → deliverable (e :: es) obs →
  single_fire (unobserve (target e) obs) (fd ++ [target e])
  ∧ deliverable es (unobserve (target e) obs).
Proof.
  intros (Hobs & Hfd & Hsep) [Hnd Hin].
  rewrite fmap_cons in Hnd. apply NoDup_cons in Hnd as [Hhd Hnd].
  assert (target e ∈ obs) as He by (apply Hin; left).
  split; [split; [|split]|split].
  - by apply unobserve_NoDup.
  - apply NoDup_app. split; [done|]. split; [|apply NoDup_singleton].
    intros x Hx ->%list_elem_of_singleton. by apply (Hsep (target e)).
  - intros i [Hi| ->%list_elem_of_singleton]%elem_of_app; rewrite unobserve_spec.
    + intros [Hio _]. by apply (Hsep i).
    + intros [_ Hne]. by apply Hne.
  - done.
  - intros e' He'. apply unobserve_spec. split; [apply Hin; by right|].
    intros E. apply Hhd. rewrite <-E. by apply list_elem_of_fmap_2.
Qed.

End ObserverProps.

Section NavbarProps.
Import PrimFloat Navbar.

Lemma current_section_fold pos secs cur :
  fold_left (fun current sec => if qualifies pos sec then sec_id sec else current)
    secs cur
  = from_option sec_id cur (last_qualifying pos secs).
Proof.
  revert cur; induction secs as [|s secs IH] using rev_ind; intros cur; [done|].
  rewrite fold_left_app; cbn [fold_left].
  unfold last_qualifying. rewrite filter_app, filter_cons, filter_nil.
  destruct (qualifies pos s) eqn:E.
  - rewrite decide_True by done. by rewrite last_snoc.
  - rewrite decide_False by done. rewrite app_nil_r. apply IH.
Qed.

Lemma mark_active current l :
  "active" ∈ classList (mark current l) ↔ href l = Some ("#" +:+ current).
Proof.
  unfold mark, ClassList.add, ClassList.remove.
  destruct (decide _) as [E|E]; cbn; set_solver.
Qed.

Lemma mark_frame current l c :
  c ≠ "active" → c ∈ classList (mark current l) ↔ c ∈ classList l.
Proof.
  intros Hc. unfold mark, ClassList.add, ClassList.remove.
  destruct (decide _); cbn; set_solver.
Qed.

Lemma mark_href current l : href (mark current l) = href l.
Proof. unfold mark. by destruct (decide _). Qed.

Lemma is_active_true l : is_active l = true ↔ "active" ∈ classList l.
Proof. unfold is_active, ClassList.contains. apply bool_decide_eq_true. Qed.

Lemma active_count_mark current links :
  active_count (mark current <$> links)
  = length (filter (fun l => href l = Some ("#" +:+ current)) links).
Proof.
  unfold active_count. induction links as [|l links IH]; [done|].
  rewrite fmap_cons, !filter_cons.
  destruct (decide (href l = _)) as [E|E].
  - rewrite decide_True by (by apply is_active_true, mark_active). cbn. by rewrite IH.
  - rewrite decide_False; [done|]. by rewrite is_active_true, mark_active.
Qed.

(** C1 (as amended). After [updateActiveNavLink], a navigation link carries
    'active' exactly when its href is '#' followed by [current], the id of
    the last section in document order whose top offset is at most
    scrollY + innerHeight * 0.3 as the script computes it, in binary64
    arithmetic, or the empty string when no section qualifies.  Hrefs and
    all other classes are untouched, and the number of active links is the
    number of links with that href: it is one only when exactly one link
    points at the current section. *)
Theorem updateActiveNavLink_marks_current w secs links :
  let current := from_option sec_id "" (last_qualifying (scrollPos w) secs) in
  let links' := updateActiveNavLink w secs links in
  length links' = length links ∧
  (∀ i l, links !! i = Some l →
     ∃ l', links' !! i = Some l' ∧ href l' = href l ∧
       ("active" ∈ classList l' ↔ href l = Some ("#" +:+ current)) ∧
       (∀ c, c ≠ "active" → c ∈ classList l' ↔ c ∈ classList l)) ∧
  active_count links'
  = length (filter (fun l => href l = Some ("#" +:+ current)) links).
Proof.
  cbn zeta. unfold updateActiveNavLink, current_section.
  rewrite current_section_fold.
  set (current := from_option _ _ _).
  split; [apply length_fmap|]. split; [|apply active_count_mark].
  intros i l Hl. exists (mark current l). rewrite list_lookup_fmap, Hl.
  split; [done|]. split; [apply mark_href|].
  split; [apply mark_active|]. intros c Hc. by apply mark_frame.
Qed.

(** C1 fails as stated: on a page whose first section starts below the
    fold, at the top of the page no section qualifies and no link is
    active. *)
Lemma updateActiveNavLink_none_active :
  active_count
    (updateActiveNavLink (Window 0 600)
       [Section_ "about" 700; Section_ "projects" 1500]
       [Link (Some "#about") ∅; Link (Some "#projects") ∅])
  ≠ 1%nat.
Proof. by vm_compute. Qed.

Example updateActiveNavLink_scrolled :
  (fun l => (href l, is_active l)) <$>
    updateActiveNavLink (Window 900 600)
      [Section_ "about" 700; Section_ "projects" 1500]
      [Link (Some "#about") ∅; Link (Some "#projects") {["active"]}]
  = [(Some "#about", true); (Some "#projects", false)].
Proof. by vm_compute. Qed.

(** The threshold is the rounded one: 19.6 + 768 * 0.3 is
    249.99999999999997 in binary64, below a section that starts at 250,
    although 19.6 + 230.4 is 250. *)
Example updateActiveNavLink_rounding :
  scrollPos (Window 19.6 768) = 249.99999999999997%float
  ∧ (fun l => (href l, is_active l)) <$>
      updateActiveNavLink (Window 19.6 768)
        [Section_ "home" 0; Section_ "about" 250]
        [Link (Some "#home") ∅; Link (Some "#about") ∅]
    = [(Some "#home", true); (Some "#about", false)]
  ∧ (fun l => (href l, is_active l)) <$>
      updateActiveNavLink (Window 19.7 768)
        [Section_ "home" 0; Section_ "about" 250]
        [Link (Some "#home") ∅; Link (Some "#about") ∅]
    = [(Some "#home", false); (Some "#about", true)].
Proof. split; [|split]; by vm_compute. Qed.

End NavbarProps.

Section DebounceProps.
Import EventLoop Debounce.
Context {A U : Type}.
Variable fn : A → U → U.
Variable delay : N.

Local Abbreviation loop := (EventLoop.loop (@task A U) (@env A U)).
Local Abbreviation armed := (Debounce.armed fn delay).
Local Abbreviation wrapper := (debounce fn delay).

Lemma run_until_late fuel T (l : loop) id due a :
  timers l = [Timer id due None (Call fn a)] → (due ≤ T)%N → (now l ≤ due)%N →
  run_until exec (S fuel) T l
  = Some (Loop T (fresh l) []
            (Env (timer (world l)) (fn a (page (world l)))
                 (calls (world l) ++ [(due, a)]))).
Proof.
  intros E Hle Hnow.
  rewrite (run_until_fire _ _ _ _ _ _ _ E) by done. cbn.
  rewrite run_until_empty by done. cbn.
  by rewrite (N.max_r (now l) due), (N.max_r due T) by lia.
Qed.

Lemma debounce_rearms a (l : loop) :
  (timers l = [] ∧ timer (world l) = None ∨ ∃ t b, armed t b l) →
  armed (now l) a (wrapper a l)
  ∧ now (wrapper a l) = now l
  ∧ world (wrapper a l)
    = Env (Some (fresh l)) (page (world l)) (calls (world l)).
Proof.
  intros [[Et Ev]|(t & b & id & Et & Ev)]; unfold debounce, Debounce.armed;
    rewrite Ev; cbn.
  - rewrite Et. eauto.
  - unfold drop. rewrite Et. cbn.
    rewrite decide_False by (intros H; by apply H). cbn. eauto.
Qed.

Lemma invoke_burst fuel invs : ∀ (l : loop) a,
  armed (now l) a l →
  Forall (fun i => (i.1 < delay)%N) invs →
  ∃ l', invoke wrapper fuel invs l = Some l'
        ∧ now l' = last_time (now l) invs
        ∧ armed (now l') (last_args a invs) l'
        ∧ page (world l') = page (world l)
        ∧ calls (world l') = calls (world l).
Proof.
  induction invs as [|[gap b] invs IH]; intros l a Harm Hgaps.
  { exists l. by cbn. }
  apply Forall_cons in Hgaps as [Hgap Hgaps]. cbn in Hgap.
  destruct Harm as (id & Et & Ev). cbn [invoke].
  rewrite (run_until_before _ _ _ _ _ Et) by (cbn; lia).
  set (l1 := Loop _ _ _ _).
  destruct (debounce_rearms b l1) as (Harm1 & Hnow1 & Hw1).
  { right. exists (now l), a, id. by cbn. }
  destruct (IH (wrapper b l1) b) as (l' & Hinv & Hnow & Harm' & Hp & Hc);
    [by rewrite Hnow1|done|].
  rewrite Hnow1 in Hnow. rewrite Hw1 in Hp, Hc.
  assert (now l1 = (now l + gap)%N) as E1 by (subst l1; cbn; lia).
  exists l'. split; [done|]. split; [by rewrite Hnow, E1|].
  split; [exact Harm'|]. by rewrite Hp, Hc.
Qed.

(** C2. For every callback [fn], delay and run of N ≥ 1 invocations of the
    wrapper returned by [debounce(fn, delay)] in which each invocation
    follows the previous one by less than [delay]: after the run a single
    execution is pending (every earlier one was cancelled by the next
    invocation); until [delay] after the last invocation [fn] has not run,
    and from then on it has run exactly once, at that instant, with the
    arguments of the last invocation. *)
Theorem debounce_burst_fires_once
    (t0 : N) (h0 : nat) (u0 : U) (gap1 : N) (a1 : A) (rest : list (N * A))
    (fuel : nat) :
  Forall (fun i => (i.1 < delay)%N) rest →
  (1 ≤ fuel)%nat →
  let tN := last_time t0 ((gap1, a1) :: rest) in
  let aN := last_args a1 rest in
  ∃ l : loop,
    invoke (debounce fn delay) fuel ((gap1, a1) :: rest) (init t0 h0 u0) = Some l
    ∧ now l = tN
    ∧ (∃ id, timers l = [Timer id (tN + delay) None (Call fn aN)])
    ∧ (∀ T, (T < tN + delay)%N →
         ∃ l', run_until exec fuel T l = Some l'
               ∧ calls (world l') = [] ∧ page (world l') = u0)
    ∧ (∀ T, (tN + delay ≤ T)%N →
         ∃ l', run_until exec fuel T l = Some l'
               ∧ calls (world l') = [(tN + delay, aN)]%N
               ∧ page (world l') = fn aN u0
               ∧ timers l' = []).
Proof.
  intros Hgaps Hfuel tN aN. cbn [invoke].
  rewrite run_until_empty by done. set (l0 := Loop _ _ _ _).
  destruct (debounce_rearms a1 l0) as (Harm1 & Hnow1 & Hw1); [by left|].
  destruct (invoke_burst fuel rest (wrapper a1 l0) a1) as
    (l & Hinv & Hnow & (id & Et & Ev) & Hp & Hc); [by rewrite Hnow1|done|].
  assert (now l = tN) as HtN.
  { rewrite Hnow, Hnow1. subst tN l0. unfold last_time. cbn. f_equal. lia. }
  rewrite Hw1 in Hp, Hc. cbn in Hp, Hc. rewrite HtN in Et.
  exists l. split; [done|]. split; [done|]. split; [by exists id|]. split.
  - intros T HT. rewrite (run_until_before _ _ _ _ _ Et) by done. eauto.
  - intros T HT. destruct fuel as [|fuel']; [lia|].
    rewrite (run_until_late _ _ _ _ _ _ Et) by (done || lia).
    eexists. split; [done|]. cbn. by rewrite Hp, Hc.
Qed.

End DebounceProps.

Section DebounceExamples.
Import EventLoop Debounce.

(** Three calls 10 ms and 19 ms apart with a 20 ms delay: one execution,
    20 ms after the third call, with its argument. *)
Lemma debounce_burst_fires_once_witness :
  Forall (fun i : N * nat => (i.1 < 20)%N) [(10%N, 2%nat); (19%N, 3%nat)]
  ∧ (1 ≤ 1)%nat
  ∧ ∃ l : loop (@task nat (list nat)) (@env nat (list nat)),
      invoke (debounce cons 20) 1 [(5%N, 1%nat); (10%N, 2%nat); (19%N, 3%nat)]
        (init 0 0 []) = Some l
      ∧ now l = 34%N
      ∧ (∃ id, timers l = [Timer id 54 None (Call cons 3%nat)])
      ∧ (∀ T, (T < 54)%N →
           ∃ l', run_until exec 1 T l = Some l'
                 ∧ calls (world l') = [] ∧ page (world l') = [])
      ∧ (∀ T, (54 ≤ T)%N →
           ∃ l', run_until exec 1 T l = Some l'
                 ∧ calls (world l') = [(54%N, 3%nat)]
                 ∧ page (world l') = [3%nat]
                 ∧ timers l' = []).
Proof.
  split; [repeat constructor; cbn; lia|]. split; [lia|].
  apply (debounce_burst_fires_once cons 20 0 0 [] 5 1%nat
           [(10%N, 2%nat); (19%N, 3%nat)] 1).
  - repeat constructor; cbn; lia.
  - lia.
Defined.

(** The same wrapper called with a quiet period in between runs twice. *)
Example debounce_two_bursts :
  (l ← invoke (debounce cons 20) 2 [(5%N, 1%nat); (20%N, 2%nat)] (init 0 0 []);
   l' ← run_until exec 2 100 l;
   Some (calls (world l'), page (world l')))
  = Some ([(25%N, 1%nat); (45%N, 2%nat)], [2%nat; 1%nat]).
Proof. reflexivity. Qed.

End DebounceExamples.

Section HamburgerProps.
Import Hamburger.

Lemma contains_elem c (m : gset string) : c ∈ m → ClassList.contains c m = true.
Proof. intros H. unfold ClassList.contains. by case_bool_decide. Qed.

Lemma contains_not_elem c (m : gset string) : c ∉ m → ClassList.contains c m = false.
Proof. intros H. unfold ClassList.contains. by case_bool_decide. Qed.

Lemma toggle_open_closed m :
  "open" ∉ m → ClassList.toggle "open" m = (true, ClassList.add "open" m).
Proof. intros H. unfold ClassList.toggle. by rewrite contains_not_elem. Qed.

Lemma toggle_open_opened m :
  "open" ∈ m → ClassList.toggle "open" m = (false, ClassList.remove "open" m).
Proof. intros H. unfold ClassList.toggle. by rewrite contains_elem. Qed.

Lemma add_remove_fresh c (m : gset string) :
  c ∉ m → ClassList.remove c (ClassList.add c m) = m.
Proof. unfold ClassList.add, ClassList.remove. set_solver. Qed.

(** C10. When the resize handler runs with [innerWidth > 768] and the menu
    has 'open', it removes 'open' from the menu and from the button and
    clears the body's overflow, and leaves the button's aria-expanded as it
    was: after the menu was opened with the hamburger it stays 'true'.  The
    two other close paths, a hamburger click on the open menu and a
    mobile-link click, set aria-expanded to 'false'. *)
Theorem resize_keeps_aria_expanded (b : button) (m : gset string) (o : string) (w : Z) :
  (768 < w)%Z →
  "open" ∈ m →
  (resize (Page (Some b) (Some m) o w)
   = Page (Some (Button (classList b ∖ {["open"]}) (ariaExpanded b)))
          (Some (m ∖ {["open"]})) "" w)
  ∧ (resize (Page None (Some m) o w) = Page None (Some (m ∖ {["open"]})) "" w)
  ∧ (ariaExpanded <$> btn (click (Page (Some b) (Some m) o w)) = Some (Some "false"))
  ∧ (ariaExpanded <$> btn (link_click (Page (Some b) (Some m) o w)) = Some (Some "false"))
  ∧ (∀ m0, "open" ∉ m0 →
       let opened := click (Page (Some b) (Some m0) o w) in
       ariaExpanded <$> btn opened = Some (Some "true")
       ∧ ariaExpanded <$> btn (resize opened) = Some (Some "true")
       ∧ menu (resize opened) = Some m0
       ∧ overflow (resize opened) = "").
Proof.
  intros Hw Hopen.
  assert ((768 <? w)%Z = true) as Hb by by apply Z.ltb_lt.
  split; [|split; [|split; [|split]]].
  - unfold resize; cbn. by rewrite Hb, contains_elem.
  - unfold resize; cbn. by rewrite Hb, contains_elem.
  - unfold click; cbn. by rewrite toggle_open_opened.
  - done.
  - intros m0 Hm0. unfold click; cbn. rewrite toggle_open_closed by done.
    unfold resize; cbn. rewrite Hb.
    rewrite contains_elem by (unfold ClassList.add; set_solver). cbn.
    by rewrite add_remove_fresh.
Qed.

Lemma resize_keeps_aria_expanded_witness :
  (768 < 1024)%Z
  ∧ "open" ∈ ({["mobile-menu"; "open"]} : gset string)
  ∧ resize (Page (Some (Button {["hamburger"; "open"]} (Some "true")))
                 (Some {["mobile-menu"; "open"]}) "hidden" 1024)
    = Page (Some (Button ({["hamburger"; "open"]} ∖ {["open"]}) (Some "true")))
           (Some ({["mobile-menu"; "open"]} ∖ {["open"]})) "" 1024.
Proof.
  assert (768 < 1024)%Z as Hw by lia.
  assert ("open" ∈ ({["mobile-menu"; "open"]} : gset string)) as Ho
    by (by vm_compute).
  split; [exact Hw|]. split; [exact Ho|].
  exact (proj1 (resize_keeps_aria_expanded
                  (Button {["hamburger"; "open"]} (Some "true"))
                  {["mobile-menu"; "open"]} "hidden" 1024 Hw Ho)).
Defined.

(** Below the breakpoint, or with the menu closed, [resize] does nothing. *)
Lemma resize_noop p :
  (innerWidth p ≤ 768)%Z ∨ (∀ m, menu p = Some m → "open" ∉ m) → resize p = p.
Proof.
  unfold resize. intros [H|H].
  - by rewrite (proj2 (Z.ltb_ge _ _) H).
  - destruct (_ <? _)%Z; [|done]. destruct (menu p) as [m|] eqn:E; [|done].
    by rewrite contains_not_elem by by apply H.
Qed.

End HamburgerProps.

Section NumberProps.
Import Counters.

Lemma round_div_bounds a b :
  (0 < b)%N →
  (a / b ≤ round_div a b ≤ a / b + 1)%N
  ∧ ((a mod b = 0)%N → round_div a b = (a / b)%N)
  ∧ ((b < 2 * (a mod b))%N → round_div a b = (a / b + 1)%N).
Proof.
  intros Hb. unfold round_div.
  destruct (N.ltb_spec b (2 * (a mod b))) as [H|H]; cbn [orb].
  - split; [lia|]. split; [lia|done].
  - destruct (N.eqb_spec (2 * (a mod b)) b) as [E|E]; cbn [andb].
    + destruct (N.odd (a / b)); (split; [lia|]); (split; lia).
    + split; [lia|]. split; [done|lia].
Qed.

(** Below 2^53 every integer is a Number. *)
Lemma toNumber_small n : (n < 2 ^ 53)%N → toNumber n = Fin n.
Proof. intros Hn. unfold toNumber. by rewrite (proj2 (N.ltb_lt _ _) Hn). Qed.

(** From 2^53 on the Number of an integer is 2^53 at least. *)
Lemma toNumber_large n m : (2 ^ 53 ≤ n)%N → toNumber n = Fin m → (2 ^ 53 ≤ m)%N.
Proof.
  intros Hn. unfold toNumber. rewrite (proj2 (N.ltb_ge _ _) Hn). cbn zeta.
  unfold fin_or_inf. destruct (_ <=? _)%N; [done|]. intros [= <-].
  assert (53 ≤ N.log2 n)%N as Hlog.
  { rewrite <-(N.log2_pow2 53) by lia. by apply N.log2_le_mono. }
  change (2 ^ 53)%N with 9007199254740992%N in *.
  destruct (N.log2_spec n) as [Hlo _]; [lia|].
  set (s := (N.log2 n - 52)%N) in *.
  replace (N.log2 n) with (s + 52)%N in Hlo by lia. rewrite N.pow_add_r in Hlo.
  change (2 ^ 52)%N with 4503599627370496%N in Hlo.
  assert (2 ^ 1 ≤ 2 ^ s)%N as Hs by (apply N.pow_le_mono_r; lia).
  change (2 ^ 1)%N with 2%N in Hs.
  assert (4503599627370496 ≤ n / 2 ^ s)%N as Hq
    by (apply N.div_le_lower_bound; lia).
  destruct (round_div_bounds n (2 ^ s)) as [[Hr _] _]; [lia|].
  revert Hs Hq Hr. generalize (round_div n (2 ^ s)) (n / 2 ^ s)%N (2 ^ s)%N.
  intros r q p ???. nia.
Qed.

(** One step of the count towards a target below 2^53 is exact. *)
Lemma step_value v st n :
  (n < 2 ^ 53)%N →
  num_min (num_add (Fin v) (Fin st)) (Fin n) = Fin (N.min (v + st) n).
Proof.
  intros Hn. cbn [num_add]. destruct (N.lt_ge_cases (v + st) (2 ^ 53)) as [H|H].
  - by rewrite toNumber_small.
  - destruct (toNumber (v + st)) as [m|] eqn:E; cbn; f_equal; [|lia].
    apply toNumber_large in E; [lia|done].
Qed.

Lemma toNumber_above v c :
  (v < 2 ^ 53)%N → (v < c)%N → num_eqb (toNumber c) (Fin v) = false.
Proof.
  intros Hv Hc. destruct (N.lt_ge_cases c (2 ^ 53)) as [H|H].
  - rewrite toNumber_small by done. cbn. apply N.eqb_neq. lia.
  - destruct (toNumber c) as [m|] eqn:E; [|done]. cbn. apply N.eqb_neq.
    apply toNumber_large in E; [lia|done].
Qed.

Lemma shortest_small v j : (v < 2 ^ 53)%N → shortest v j = v.
Proof.
  intros Hv. induction j as [|j IH]; [done|]. cbn [shortest].
  set (p := (10 ^ N.of_nat (S j))%N).
  assert (p ≠ 0)%N as Hp by (apply N.pow_nonzero; lia).
  pose proof (N.div_mod v p Hp) as Hdm. pose proof (N.mod_lt v p Hp) as Hlt.
  clearbody p. revert Hdm Hlt. generalize (v / p)%N (v mod p)%N. intros q r Hdm Hlt.
  rewrite (toNumber_above v (q * p + p)) by (done || lia).
  rewrite andb_false_r.
  rewrite (toNumber_small (q * p)) by lia. cbn [num_eqb].
  by destruct (N.eqb_spec (q * p) v).
Qed.

(** Below 2^53 a Number prints as its decimal numeral. *)
Lemma toString_small v : (v < 2 ^ 53)%N → toString (Fin v) = pretty v.
Proof.
  intros Hv. unfold toString. rewrite shortest_small by done.
  assert (2 ^ 53 < 10 ^ 21)%N as H by reflexivity.
  by rewrite (proj2 (N.ltb_lt v (10 ^ 21)) ltac:(lia)).
Qed.

Lemma ceil_div_bounds a b :
  (0 < a)%N → (0 < b)%N →
  (1 ≤ ceil_div a b)%N
  ∧ ((ceil_div a b - 1) * b < a)%N
  ∧ (a ≤ ceil_div a b * b)%N.
Proof.
  intros Ha Hb. unfold ceil_div.
  assert (b ≠ 0)%N as Hb0 by lia.
  pose proof (N.div_mod (a + b - 1) b Hb0) as Hdm.
  pose proof (N.mod_lt (a + b - 1) b Hb0) as Hlt.
  revert Hdm Hlt.
  generalize ((a + b - 1) / b)%N ((a + b - 1) mod b)%N. intros q r Hdm Hlt.
  assert (1 ≤ q)%N as Hq by (destruct (decide (q = 0%N)); [nia|lia]).
  split; [done|]. split; nia.
Qed.

(** Below 2^53 the rounding of the quotient does not reach its ceiling:
    [Math.ceil(n / 35)] is the ceiling of the exact quotient. *)
Lemma ceil_quot35_small n :
  (n < 2 ^ 53)%N → ceil_quot35 (Fin n) = Fin (ceil_div n 35).
Proof.
  intros Hn. change (2 ^ 53)%N with 9007199254740992%N in Hn.
  unfold ceil_quot35.
  pose proof (N.div_mod n 35 ltac:(lia)) as Hdm.
  pose proof (N.mod_lt n 35 ltac:(lia)) as Hlt.
  revert Hdm Hlt. generalize (n / 35)%N (n mod 35)%N. intros k r Hdm Hlt.
  destruct (N.eqb_spec k 0) as [E|E].
  - f_equal. unfold ceil_div. destruct (N.eqb_spec n 0) as [->|Hn0]; [done|].
    apply (N.div_unique _ _ _ (n - 1)); lia.
  - assert (0 < n)%N as Hpos by lia.
    destruct (ceil_div_bounds n 35 Hpos) as (Hc1 & Hclo & Hchi); [lia|].
    set (c := ceil_div n 35) in *.
    assert (N.log2 k < 48)%N as He.
    { apply N.log2_lt_pow2; [lia|]. change (2 ^ 48)%N with 281474976710656%N. lia. }
    rewrite (proj2 (N.ltb_lt (N.log2 k) 52)) by lia.
    set (t := (52 - N.log2 k)%N).
    assert (2 ^ 5 ≤ 2 ^ t)%N as HP by (apply N.pow_le_mono_r; lia).
    change (2 ^ 5)%N with 32%N in HP.
    revert HP. generalize (2 ^ t)%N. clearbody c. clear t He. intros P HP.
    destruct (round_div_bounds (n * P) 35) as ([Hm1 Hm2] & Hm0 & Hmup); [lia|].
    pose proof (N.div_mod (n * P) 35 ltac:(lia)) as HA.
    pose proof (N.mod_lt (n * P) 35 ltac:(lia)) as HR.
    revert Hm1 Hm2 Hm0 Hmup HA HR.
    generalize (round_div (n * P) 35) ((n * P) / 35)%N ((n * P) mod 35)%N.
    intros m Q R Hm1 Hm2 Hm0 Hmup HA HR.
    assert (m ≤ c * P)%N as Hup.
    { destruct (decide (n * P = 35 * (c * P))%N) as [Eq|Ne].
      - assert (R = 0%N) as -> by nia. rewrite (Hm0 eq_refl). nia.
      - assert (Q < c * P)%N by nia. lia. }
    assert ((c - 1) * P < m)%N as Hdown.
    { destruct (decide ((c - 1) * P < Q)%N) as [?|Hle]; [lia|].
      assert (35 * ((c - 1) * P) + P ≤ n * P)%N as Hgap by nia.
      assert (Q = (c - 1) * P)%N as EQ by nia.
      rewrite Hmup by nia. lia. }
    f_equal. symmetry. apply (N.div_unique _ _ _ (m + P - 1 - P * c)); nia.
Qed.

Lemma num_eqb_eq x y : num_eqb x y = true ↔ x = y.
Proof.
  destruct x as [a|], y as [b|]; cbn; try (split; done || congruence).
  rewrite N.eqb_eq. split; congruence.
Qed.



Lemma count_done step end_ k j :
  count step end_ k = end_ → (k ≤ j)%nat → count step end_ j = end_.
Proof.
  intros E Hkj. induction Hkj as [|j _ IH]; [done|].
  cbn [count]. rewrite IH. by rewrite (proj2 (num_eqb_eq end_ end_) eq_refl).
Qed.


End NumberProps.

Section CounterProps.
Import EventLoop Observer Counters.

Local Abbreviation loop := (EventLoop.loop task env).

Lemma on_entry_starts (l : loop) el t end_ :
  texts (world l) !! el = Some t →
  parseInt (keep is_digit t) = Some end_ → end_ ≠ Fin 0 →
  on_entry l (Entry el true)
  = Loop (now l) (S (fresh l))
      (timers l ++ [Timer (fresh l) (now l + 38) (Some 38%N)
                      (Step el (ceil_quot35 end_) end_
                            (keep (fun c => negb (is_digit c)) t))])
      (Env (texts (world l)) (unobserve el (observed (world l)))
           (<[fresh l := Fin 0]> (starts (world l))) (fired (world l) ++ [el])).
Proof.
  intros Ht Hn Hn0. unfold on_entry. cbn. rewrite Ht, Hn.
  destruct end_ as [n|]; [by destruct n|done].
Qed.

Lemma on_entry_returns (l : loop) e t :
  texts (world l) !! target e = Some t →
  parseInt (keep is_digit t) = None ∨ parseInt (keep is_digit t) = Some (Fin 0) →
  on_entry l e = l.
Proof.
  intros Ht Hz. unfold on_entry. rewrite Ht.
  destruct (isIntersecting e); [|done]. by destruct Hz as [-> | ->].
Qed.

(** One firing of an interval that is alone on the queue. *)
Lemma tick_alone (l : loop) id due el step end_ suffix :
  timers l = [Timer id due (Some 38%N) (Step el step end_ suffix)] →
  let v := num_min (num_add (default (Fin 0) (starts (world l) !! id)) step) end_ in
  run_steps exec 1 l
  = Loop (N.max (now l) due) (fresh l)
      (if num_eqb v end_ then []
       else [Timer id (due + 38) (Some 38%N) (Step el step end_ suffix)])
      (Env (<[el := toString v +:+ suffix]> (texts (world l)))
           (observed (world l))
           (<[id := v]> (starts (world l)))
           (fired (world l))).
Proof.
  intros Et v. rewrite (run_steps_interval _ _ _ _ _ _ Et).
  unfold exec. cbn. fold v.
  destruct (num_eqb v end_); [|done]. unfold clearTimeout. cbn.
  by rewrite decide_False by (intros H; by apply H).
Qed.

Lemma tick_once (l : loop) id due el step n suffix v :
  timers l = [Timer id due (Some 38%N) (Step el (Fin step) (Fin n) suffix)] →
  starts (world l) !! id = Some (Fin v) →
  (now l ≤ due)%N →
  (n < 2 ^ 53)%N →
  run_steps exec 1 l
  = Loop due (fresh l)
      (if (N.min (v + step) n =? n)%N then []
       else [Timer id (due + 38) (Some 38%N) (Step el (Fin step) (Fin n) suffix)])
      (Env (<[el := pretty (N.min (v + step) n) +:+ suffix]> (texts (world l)))
           (observed (world l))
           (<[id := Fin (N.min (v + step) n)]> (starts (world l)))
           (fired (world l))).
Proof.
  intros Et Ev Hnow Hn. rewrite (tick_alone _ _ _ _ _ _ _ Et).
  rewrite Ev. change (default (Fin 0) (Some (Fin v))) with (Fin v).
  rewrite step_value by done.
  rewrite toString_small by lia. cbn [num_eqb]. by rewrite N.max_r.
Qed.


(** While the target is not reached, after [k] ticks the value is [k]
    steps and the interval is armed for the next tick. *)
Lemma counter_ticking (l : loop) el t n (k : nat) :
  timers l = [] →
  texts (world l) !! el = Some t →
  parseInt (keep is_digit t) = Some (Fin n) → n ≠ 0%N → (n < 2 ^ 53)%N →
  let step := ceil_div n 35 in
  let suffix := keep (fun c => negb (is_digit c)) t in
  (N.of_nat k * step < n)%N →
  let lk := run_steps exec k (on_entry l (Entry el true)) in
  now lk = (now l + 38 * N.of_nat k)%N
  ∧ timers lk = [Timer (fresh l) (now l + 38 * N.of_nat (S k)) (Some 38%N)
                   (Step el (Fin step) (Fin n) suffix)]
  ∧ starts (world lk) !! fresh l = Some (Fin (N.of_nat k * step))
  ∧ length (texts (world lk)) = length (texts (world l))
  ∧ ((1 ≤ k)%nat →
       texts (world lk) !! el = Some (pretty (N.of_nat k * step)%N +:+ suffix)).
Proof.
  intros Et Ht Hn Hn0 Hn53 step suffix.
  assert (Fin n ≠ Fin 0) as Hne by congruence.
  induction k as [|k IH]; intros Hlt lk.
  - subst lk. cbn [run_steps]. rewrite (on_entry_starts _ _ _ _ Ht Hn Hne), Et.
    rewrite ceil_quot35_small by done. cbn.
    rewrite lookup_insert_eq. repeat split; try done; try (f_equal; lia).
  - destruct IH as (Hnow & Htm & Hst & Hlen & Htx); [lia|].
    subst lk. replace (S k) with (k + 1)%nat by lia.
    rewrite run_steps_add. set (lk := run_steps exec k _) in *.
    rewrite (tick_once _ _ _ _ _ _ _ _ Htm Hst) by (done || lia).
    replace (N.min (N.of_nat k * step + step) n) with (N.of_nat (k + 1) * step)%N by lia.
    replace (N.of_nat (k + 1) * step =? n)%N with false by (symmetry; apply N.eqb_neq; lia).
    cbn. rewrite lookup_insert_eq, length_insert.
    repeat split; try done; try (f_equal; lia).
    + do 2 f_equal. lia.
    + intros _. apply list_lookup_insert_eq. rewrite Hlen. by eapply lookup_lt_Some.
Qed.

(** The tick that reaches the target shows it and clears the interval. *)
Lemma counter_last_tick (l : loop) el t n (k : nat) :
  timers l = [] →
  texts (world l) !! el = Some t →
  parseInt (keep is_digit t) = Some (Fin n) → n ≠ 0%N → (n < 2 ^ 53)%N →
  let step := ceil_div n 35 in
  let suffix := keep (fun c => negb (is_digit c)) t in
  (N.of_nat k * step < n ≤ N.of_nat (S k) * step)%N →
  let lk := run_steps exec (S k) (on_entry l (Entry el true)) in
  now lk = (now l + 38 * N.of_nat (S k))%N
  ∧ timers lk = []
  ∧ texts (world lk) !! el = Some (pretty n +:+ suffix).
Proof.
  intros Et Ht Hn Hn0 Hn53 step suffix [Hlt Hle] lk.
  destruct (counter_ticking l el t n k Et Ht Hn Hn0 Hn53 Hlt)
    as (Hnow & Htm & Hst & Hlen & _).
  subst lk. replace (S k) with (k + 1)%nat by lia.
  rewrite run_steps_add. set (lk := run_steps exec k _) in *.
  rewrite (tick_once _ _ _ _ _ _ _ _ Htm Hst) by (done || lia).
  replace (N.min (N.of_nat k * ceil_div n 35 + ceil_div n 35) n) with n by (fold step; lia).
  rewrite N.eqb_refl. cbn. split; [f_equal; lia|]. split; [done|].
  apply list_lookup_insert_eq. rewrite Hlen. by eapply lookup_lt_Some.
Qed.









(** Above 2^53 the count is not the exact one.  The text 9625628285290814
    is a Number; its step is 275017951008309, and 35 exact steps would
    pass the target, but the sums round: tick 35 shows 9625628285290812
    and leaves the interval pending, tick 36 shows the target.  The text
    9007199254740993 is no Number: [parseInt] gives 9007199254740992, and
    the animation ends on that. *)
Example counter_beyond_2_53 :
  let shown t k := run_steps exec k (on_entry (initCounters 0 [t]) (Entry 0 true)) in
  parseInt "9625628285290814" = Some (Fin 9625628285290814)
  ∧ ceil_quot35 (Fin 9625628285290814) = Fin 275017951008309
  ∧ (9625628285290814 < 35 * 275017951008309)%N
  ∧ texts (world (shown "9625628285290814" 35%nat)) = ["9625628285290812"]
  ∧ timers (shown "9625628285290814" 35%nat)
    = [Timer 0 1368 (Some 38%N)
         (Step 0 (Fin 275017951008309) (Fin 9625628285290814) "")]
  ∧ texts (world (shown "9625628285290814" 36%nat)) = ["9625628285290814"]
  ∧ timers (shown "9625628285290814" 36%nat) = []
  ∧ parseInt "9007199254740993" = Some (Fin 9007199254740992)
  ∧ texts (world (shown "9007199254740993+" 35%nat)) = ["9007199254740992+"]
  ∧ timers (shown "9007199254740993+" 35%nat) = [].
Proof. vm_compute. repeat split; reflexivity. Qed.

(** What one entry does: nothing, or it starts the animation of its
    target, whose text then parses to a non-zero number. *)
Lemma on_entry_cases (l : loop) e :
  on_entry l e = l
  ∨ ∃ t n, isIntersecting e = true
      ∧ texts (world l) !! target e = Some t
      ∧ parseInt (keep is_digit t) = Some n ∧ n ≠ Fin 0
      ∧ on_entry l e
        = Loop (now l) (S (fresh l))
            (timers l ++ [Timer (fresh l) (now l + 38) (Some 38%N)
                            (Step (target e) (ceil_quot35 n) n
                                  (keep (fun c => negb (is_digit c)) t))])
            (Env (texts (world l)) (unobserve (target e) (observed (world l)))
                 (<[fresh l := Fin 0]> (starts (world l)))
                 (fired (world l) ++ [target e])).
Proof.
  destruct e as [el b]. destruct b; [|by left]. cbn [target isIntersecting].
  destruct (texts (world l) !! el) as [t|] eqn:Ht;
    [|left; unfold on_entry; cbn; by rewrite Ht].
  destruct (parseInt (keep is_digit t)) as [n|] eqn:Hn.
  - destruct (num_eqb n (Fin 0)) eqn:E.
    + apply num_eqb_eq in E as ->.
      left. apply on_entry_returns with t; [done|by right].
    + assert (n ≠ Fin 0) as Hn0 by (intros E'%num_eqb_eq; congruence).
      right. exists t, n. split; [done|]. split; [done|]. split; [done|].
      split; [done|]. by apply on_entry_starts.
  - left. apply on_entry_returns with t; [done|by left].
Qed.

(** A tick touches only the text of the element its interval animates,
    and neither the observer nor the record of started animations. *)
Lemma tick_frame (l : loop) :
  let l' := run_steps exec 1 l in
  observed (world l') = observed (world l)
  ∧ fired (world l') = fired (world l)
  ∧ (∀ tm, tm ∈ timers l' → ∃ tm0, tm0 ∈ timers l ∧ animated tm = animated tm0)
  ∧ (∀ i, (∀ tm, tm ∈ timers l → animated tm ≠ i) →
       texts (world l') !! i = texts (world l) !! i).
Proof.
  cbn. destruct (earliest (timers l)) as [tm|] eqn:E; [|naive_solver].
  apply earliest_elem in E. unfold fire.
  set (ts := match t_every tm with Some _ => _ | None => _ end).
  assert (∀ u, u ∈ ts → ∃ tm0, tm0 ∈ timers l ∧ animated u = animated tm0) as Hts.
  { intros u Hu. subst ts. destruct (t_every tm).
    - apply elem_of_app in Hu as [Hu|Hu%list_elem_of_singleton].
      + exists u. split; [by eapply elem_of_drop|done].
      + exists tm. by subst u.
    - exists u. split; [by eapply elem_of_drop|done]. }
  unfold exec. destruct (t_task tm) as [el step n suffix] eqn:Etask.
  assert (animated tm = el) as Hel by (unfold animated; by rewrite Etask).
  destruct (num_eqb _ _); cbn.
  - repeat split; try done.
    + intros u Hu%elem_of_drop. by apply Hts.
    + intros i Hi. apply list_lookup_insert_ne. intros <-. by apply (Hi tm).
  - repeat split; try done.
    intros i Hi. apply list_lookup_insert_ne. intros <-. by apply (Hi tm).
Qed.

(** A counter with no digits, or whose digits parse to 0, is left alone
    by every event: observed, text unchanged, never animated. *)
Lemma zero_counter_step (l : loop) el t ev :
  parseInt (keep is_digit t) = None ∨ parseInt (keep is_digit t) = Some (Fin 0) →
  texts (world l) !! el = Some t
  ∧ el ∈ observed (world l)
  ∧ (el ∉ fired (world l))
  ∧ (∀ tm, tm ∈ timers l → animated tm ≠ el) →
  texts (world (step l ev)) !! el = Some t
  ∧ el ∈ observed (world (step l ev))
  ∧ (el ∉ fired (world (step l ev)))
  ∧ (∀ tm, tm ∈ timers (step l ev) → animated tm ≠ el).
Proof.
  intros Hz Hinv. destruct ev as [changes|]; unfold step.
  - unfold callback. generalize (entries changes (observed (world l))).
    intros es. revert l Hinv. induction es as [|e es IH]; intros l Hinv; [done|].
    cbn [fold_left]. apply IH. destruct Hinv as (Ht & Ho & Hf & Htm).
    destruct (on_entry_cases l e) as [->|(t' & n & _ & Ht' & Hn & Hn0 & ->)]; [done|].
    assert (target e ≠ el) as Hne.
    { intros E. rewrite E, Ht in Ht'. simplify_eq. destruct Hz; congruence. }
    cbn. split; [done|]. split; [by apply unobserve_spec|].
    split; [rewrite elem_of_app, list_elem_of_singleton; naive_solver|].
    intros tm [Hin| ->%list_elem_of_singleton]%elem_of_app; [by apply Htm|done].
  - destruct Hinv as (Ht & Ho & Hf & Htm).
    destruct (tick_frame l) as (Eo & Ef & Hts & Htx).
    rewrite Eo, Ef, Htx by done. repeat split; try done.
    intros tm (tm0 & Hin & ->)%Hts. by apply Htm.
Qed.

(** C9. A counter whose text has no digits, or whose digits parse to 0:
    its intersection callback returns at once, leaving every timer, text
    and observation as they were; and whatever happens on the page from
    [initCounters] on, the element keeps its text, stays observed and
    is never animated, so that each later change of its intersection is
    delivered to the callback again, which again does nothing. *)
Theorem zero_counter_stays_observed (t0 : N) (ts : list string) el t
    (evs : list event) :
  ts !! el = Some t →
  keep is_digit t = "" ∨ parseInt (keep is_digit t) = Some (Fin 0) →
  let l := run evs (initCounters t0 ts) in
  on_entry l (Entry el true) = l
  ∧ texts (world l) !! el = Some t
  ∧ el ∈ observed (world l)
  ∧ (el ∉ fired (world l))
  ∧ (∀ tm, tm ∈ timers l → animated tm ≠ el)
  ∧ ∀ changes b, changes !! el = Some b →
      Entry el b ∈ entries changes (observed (world l)).
Proof.
  intros Ht Hz l.
  assert (parseInt (keep is_digit t) = None ∨ parseInt (keep is_digit t) = Some (Fin 0))
    as Hz' by (destruct Hz as [->|]; [by left|by right]).
  assert (texts (world l) !! el = Some t
          ∧ el ∈ observed (world l)
          ∧ (el ∉ fired (world l))
          ∧ (∀ tm, tm ∈ timers l → animated tm ≠ el)) as Hinv.
  { subst l. unfold run. induction evs as [|ev evs IH] using rev_ind.
    - cbn. rewrite observe_all_seq, elem_of_seq. split; [done|].
      split; [apply lookup_lt_Some in Ht; lia|].
      split; [apply not_elem_of_nil|]. intros tm Hin. by apply elem_of_nil in Hin.
    - rewrite fold_left_app. cbn [fold_left]. by apply zero_counter_step. }
  destruct Hinv as (Htx & Ho & Hf & Htm).
  split; [by apply on_entry_returns with t|]. repeat split; try done.
  intros changes b Hb. by apply elem_of_entries.
Qed.

Lemma zero_counter_stays_observed_witness :
  ["12+"; "N/A"] !! 1%nat = Some "N/A"
  ∧ (keep is_digit "N/A" = "" ∨ parseInt (keep is_digit "N/A") = Some (Fin 0))
  ∧ 1%nat ∈ observed (world (run [Frame {[0%nat := true; 1%nat := true]}; Tick;
                                  Frame {[1%nat := false]}; Tick]
                               (initCounters 0 ["12+"; "N/A"]))).
Proof.
  assert (keep is_digit "N/A" = "" ∨ parseInt (keep is_digit "N/A") = Some (Fin 0))
    as Hz by (left; reflexivity).
  split; [reflexivity|]. split; [exact Hz|].
  exact (proj1 (proj2 (proj2
    (zero_counter_stays_observed 0 ["12+"; "N/A"] 1 "N/A"
       [Frame {[0%nat := true; 1%nat := true]}; Tick; Frame {[1%nat := false]}; Tick]
       eq_refl Hz)))).
Defined.

End CounterProps.

Section CounterExamples.
Import EventLoop Observer Counters.

Example counter_42_plus :
  (fun k => texts (world (run (Frame {[0%nat := true]} :: replicate k Tick)
                            (initCounters 1000 ["42+"]))))
    <$> [0; 1; 2; 20; 21; 22]%nat
  = [["42+"]; ["2+"]; ["4+"]; ["40+"]; ["42+"]; ["42+"]].
Proof. by vm_compute. Qed.

Example counter_37_percent_times :
  (fun k => let l := run (Frame {[0%nat := true]} :: replicate k Tick)
                         (initCounters 1000 ["37 %"]) in
            (now l, texts (world l), length (timers l)))
    <$> [1; 18; 19; 20]%nat
  = [(1038%N, ["2 %"], 1%nat); (1684%N, ["36 %"], 1%nat);
     (1722%N, ["37 %"], 0%nat); (1722%N, ["37 %"], 0%nat)].
Proof. by vm_compute. Qed.

(** The Numbers against the binary64 floats of the kernel: the rounding of
    an integer, the sum and the ceiling of the quotient by 35 agree with
    the machine's, on values around 2^53, on ties, on large values and at
    the overflow to +∞. *)
Example numbers_as_floats :
  let ns := [0; 1; 34; 35; 36; 42; 1200; 2 ^ 53 - 1; 2 ^ 53; 2 ^ 53 + 1; 2 ^ 53 + 2;
             2 ^ 53 + 3; 9625628285290814; 9007199254740993; 2 ^ 54 - 1; 2 ^ 54 + 2;
             2 ^ 54 + 6; 2 ^ 60 + 2 ^ 7; 2 ^ 60 + 2 ^ 7 + 1; 3 * 2 ^ 60 + 2 ^ 8;
             10 ^ 21; 10 ^ 22; 10 ^ 23; 123456789012345678901234567890;
             35 * (2 ^ 52 + 1); 35 * (2 ^ 53 - 1) + 17; 2 ^ 1023; 2 ^ 1024 - 2 ^ 970 - 1;
             2 ^ 1024 - 2 ^ 970; 2 ^ 1024; 10 ^ 400]%N in
  forallb (fun n => PrimFloat.eqb (to_float (toNumber n)) (Navbar.of_Z (Z.of_N n))) ns
  = true
  ∧ forallb (fun a =>
       forallb (fun b =>
          PrimFloat.eqb (to_float (num_add (toNumber a) (toNumber b)))
            (PrimFloat.add (Navbar.of_Z (Z.of_N a)) (Navbar.of_Z (Z.of_N b)))) ns) ns
    = true
  ∧ forallb (fun a =>
       PrimFloat.eqb (to_float (ceil_quot35 (toNumber a)))
         (ceil_float (PrimFloat.div (Navbar.of_Z (Z.of_N a)) (Navbar.of_Z 35)))) ns
    = true.
Proof. vm_compute. repeat split; reflexivity. Qed.

Example toString_examples :
  toString <$> [Fin 0; Fin 42; Fin 1200; toNumber (2 ^ 53 + 1); toNumber (2 ^ 60);
                toNumber (2 ^ 64); toNumber 123456789012345678901; toNumber (10 ^ 21);
                toNumber (2 ^ 70); toNumber (10 ^ 23); toNumber (2 ^ 1023);
                toNumber (10 ^ 400)]
  = ["0"; "42"; "1200"; "9007199254740992"; "1152921504606847000";
     "18446744073709552000"; "123456789012345680000"; "1e+21";
     "1.1805916207174113e+21"; "1e+23"; "8.98846567431158e+307"; "Infinity"].
Proof. by vm_compute. Qed.

End CounterExamples.

Section RevealExamples.
Import EventLoop Observer Reveal.

(** Three cards in a grid below a heading; the first card enters. *)
Example reveal_staggers :
  (fun k => let l := run (Frame {[2%nat := true]} :: replicate k Tick)
                         (initReveal 0
                            [Node [] ∅; Node [0%nat] {["reveal"]};
                             Node [0%nat] {["reveal"]}; Node [0%nat] {["reveal"]}]) in
            (now l, (fun n => bool_decide ("visible" ∈ classList n)) <$> nodes (world l),
             observed (world l)))
    <$> [0; 1; 2; 3; 4]%nat
  = [(0%N, [false; false; true; false], [1; 3]%nat);
     (0%N, [false; true; true; false], [1; 3]%nat);
     (90%N, [false; true; true; false], [1; 3]%nat);
     (180%N, [false; true; true; true], [1; 3]%nat);
     (180%N, [false; true; true; true], [1; 3]%nat)].
Proof. by vm_compute. Qed.

End RevealExamples.

Section SkillBarProps.
Import Observer SkillBars.
Variable css : string → option string.

Local Abbreviation set_width := (SkillBars.set_width css).
Local Abbreviation on_entry := (SkillBars.on_entry css).
Local Abbreviation callback := (SkillBars.callback css).
Local Abbreviation frame := (SkillBars.frame css).
Local Abbreviation run := (SkillBars.run css).
Local Abbreviation filled := (SkillBars.filled css).

Lemma filled_idemp b : filled (filled b) = filled b.
Proof.
  unfold SkillBars.filled, SkillBars.set_width.
  destruct (css (width_or_default (dataWidth b) +:+ "%")) as [v|] eqn:E; cbn; by rewrite E.
Qed.

Lemma filled_width b :
  dataWidth (filled b) = dataWidth b
  ∧ styleWidth (filled b)
    = from_option id (styleWidth b) (css (width_or_default (dataWidth b) +:+ "%")).
Proof.
  unfold SkillBars.filled, SkillBars.set_width. by destruct (css _).
Qed.

Lemma on_entry_bar s e i b :
  bars s !! i = Some b →
  bars (on_entry s e) !! i
  = Some (if bool_decide (e = Entry i true) then filled b else b).
Proof.
  intros Hb. destruct e as [t [|]]; unfold SkillBars.on_entry; cbn.
  - destruct (decide (t = i)) as [->|Hne].
    + rewrite list_lookup_alter_eq, Hb. by rewrite bool_decide_eq_true_2.
    + rewrite list_lookup_alter_ne, Hb by done.
      rewrite bool_decide_eq_false_2; [done|]. by intros [= ->].
  - by rewrite Hb, bool_decide_eq_false_2.
Qed.

Lemma callback_filled_stable es : ∀ s i b,
  bars s !! i = Some (filled b) → bars (callback es s) !! i = Some (filled b).
Proof.
  induction es as [|e es IH]; intros s i b Hb; [done|]. cbn. apply IH.
  rewrite (on_entry_bar _ _ _ _ Hb). destruct (bool_decide _); by rewrite ?filled_idemp.
Qed.

Lemma callback_fills es : ∀ s i b,
  Entry i true ∈ es → bars s !! i = Some b →
  bars (callback es s) !! i = Some (filled b).
Proof.
  induction es as [|e es IH]; intros s i b Hin Hb; [by apply elem_of_nil in Hin|].
  cbn. pose proof (on_entry_bar s e i b Hb) as H1.
  destruct (decide (e = Entry i true)) as [E|E].
  - rewrite bool_decide_eq_true_2 in H1 by done. by apply callback_filled_stable.
  - rewrite bool_decide_eq_false_2 in H1 by done. apply IH; [|done].
    apply elem_of_cons in Hin as [E'|]; [by destruct E|done].
Qed.

(** C8 (as amended). When the observer fires for a skill bar, the script
    assigns to its width style '80%' if [data-width] is absent or empty, and
    [w] followed by '%' if [data-width] is the non-empty string [w].  The
    style then holds the browser's serialisation of the assigned text, and
    keeps its old value when the browser rejects the text.  So the width is
    '80%' in the first case; in the second it is [w] followed by '%' when
    the browser takes that text as it stands, and unchanged when the
    browser rejects it. *)
Theorem skill_bar_width (s : state) (changes : gmap nat bool) i b :
  bars s !! i = Some b →
  i ∈ observed s →
  changes !! i = Some true →
  ∃ b', bars (frame changes s) !! i = Some b'
        ∧ dataWidth b' = dataWidth b
        ∧ (dataWidth b = None ∨ dataWidth b = Some "" →
           styleWidth b' = from_option id (styleWidth b) (css "80%"))
        ∧ (∀ w, dataWidth b = Some w → w ≠ "" →
           styleWidth b' = from_option id (styleWidth b) (css (w +:+ "%")))
        ∧ (dataWidth b = None ∨ dataWidth b = Some "" →
           css "80%" = Some "80%" → styleWidth b' = "80%")
        ∧ (∀ w, dataWidth b = Some w → w ≠ "" →
           css (w +:+ "%") = Some (w +:+ "%") → styleWidth b' = w +:+ "%")
        ∧ (∀ w, dataWidth b = Some w → w ≠ "" →
           css (w +:+ "%") = None → styleWidth b' = styleWidth b).
Proof.
  intros Hb Hobs Hch. exists (filled b). split.
  { apply callback_fills; [|done]. by apply elem_of_entries. }
  destruct (filled_width b) as [Hd Hw]. split; [done|].
  assert (dataWidth b = None ∨ dataWidth b = Some "" →
          styleWidth (filled b) = from_option id (styleWidth b) (css "80%")) as H80.
  { intros [E|E]; rewrite Hw, E; done. }
  assert (∀ w, dataWidth b = Some w → w ≠ "" →
          styleWidth (filled b) = from_option id (styleWidth b) (css (w +:+ "%"))) as Hany.
  { intros w E Hne. rewrite Hw, E. by destruct w. }
  split; [done|]. split; [done|]. split; [|split].
  - intros Hdw E. by rewrite (H80 Hdw), E.
  - intros w E Hne Hcss. by rewrite (Hany w E Hne), Hcss.
  - intros w E Hne Hcss. by rewrite (Hany w E Hne), Hcss.
Qed.

Lemma skill_callback_single_fire es : ∀ s,
  single_fire (observed s) (fired s) → deliverable es (observed s) →
  single_fire (observed (callback es s)) (fired (callback es s)).
Proof.
  induction es as [|e es IH]; intros s Hsf Hdel; [done|]. cbn.
  assert (observed (on_entry s e) = unobserve (target e) (observed s)
          ∧ fired (on_entry s e) = fired s ++ [target e]
          ∨ on_entry s e = s) as [[Eo Ef]| ->].
  { unfold SkillBars.on_entry. destruct (isIntersecting e); [by left|by right]. }
  - destruct (single_fire_trigger _ _ _ _ Hsf Hdel). apply IH; by rewrite Eo, ?Ef.
  - apply IH; [done|]. by eapply deliverable_tail.
Qed.

Lemma skill_run_single_fire frames : ∀ s,
  single_fire (observed s) (fired s) →
  single_fire (observed (run frames s)) (fired (run frames s)).
Proof.
  induction frames as [|c frames IH]; intros s Hsf; [done|]. cbn. apply IH.
  apply skill_callback_single_fire; [done|].
  apply deliverable_entries, Hsf.
Qed.

Lemma skill_run_bars frames : ∀ s i b,
  bars s !! i = Some b ∨ bars s !! i = Some (filled b) →
  bars (run frames s) !! i = Some b ∨ bars (run frames s) !! i = Some (filled b).
Proof.
  induction frames as [|c frames IH]; intros s i b Hs; [done|]. cbn. apply IH.
  unfold SkillBars.frame. generalize (entries c (observed s)). intros es. revert s Hs.
  induction es as [|e es IHes]; intros s Hs; [done|]. cbn. apply IHes.
  destruct Hs as [H|H]; rewrite (on_entry_bar _ e _ _ H);
    destruct (bool_decide _); rewrite ?filled_idemp; auto.
Qed.

End SkillBarProps.

Section SkillBarExamples.
Import Observer SkillBars.

Lemma skill_bar_width_witness :
  ∃ b', bars (frame css_percent {[0%nat := true; 1%nat := true]}
                (initSkillBars [Bar (Some "95") ""; Bar None ""])) !! 1%nat
        = Some b'
        ∧ dataWidth b' = None
        ∧ styleWidth b' = "80%".
Proof.
  assert (1%nat ∈ observed (initSkillBars [Bar (Some "95") ""; Bar None ""]))
    as Ho by decide_by_compute.
  assert (({[0%nat := true; 1%nat := true]} : gmap nat bool) !! 1%nat = Some true)
    as Hc by reflexivity.
  destruct (skill_bar_width css_percent (initSkillBars [Bar (Some "95") ""; Bar None ""])
              {[0%nat := true; 1%nat := true]} 1 (Bar None "") eq_refl Ho Hc)
    as (b' & Hb' & Hd & _ & _ & H80 & _).
  exists b'. split; [exact Hb'|]. split; [exact Hd|].
  apply H80; [by left|reflexivity].
Defined.

(** C8 fails as stated for a [data-width] that gives no CSS value: the
    assignment of 'abc%' or of '-5%' is ignored, and the width style keeps
    the value it had, while the bar is unobserved all the same. *)
Lemma skill_bar_width_rejected :
  css_percent "abc%" = None
  ∧ css_percent "-5%" = None
  ∧ (λ s, (bars s, observed s))
      (frame css_percent {[0%nat := true; 1%nat := true]}
         (initSkillBars [Bar (Some "abc") ""; Bar (Some "-5") "40%"]))
    = ([Bar (Some "abc") ""; Bar (Some "-5") "40%"], []).
Proof. split; [|split]; by vm_compute. Qed.

Example skill_bars_filled :
  styleWidth <$> bars (frame css_percent {[0%nat := true; 2%nat := true; 3%nat := false]}
                         (initSkillBars [Bar (Some "95") ""; Bar None "";
                                         Bar (Some "") ""; Bar (Some "70") ""]))
  = ["95%"; ""; "80%"; ""].
Proof. by vm_compute. Qed.

Example css_percent_examples :
  css_percent <$> ["80%"; "95%"; "090%"; "0%"; "%"; "abc%"; "-5%"; "90"; "9 0%"]
  = [Some "80%"; Some "95%"; Some "90%"; Some "0%"; None; None; None; None; None].
Proof. reflexivity. Qed.

End SkillBarExamples.

Section CounterOnce.
Import EventLoop Observer Counters.

Lemma counter_callback_single_fire es : ∀ l : loop task env,
  single_fire (observed (world l)) (fired (world l)) →
  deliverable es (observed (world l)) →
  single_fire (observed (world (callback es l))) (fired (world (callback es l))).
Proof.
  induction es as [|e es IH]; intros l Hsf Hdel; [done|]. cbn.
  destruct (on_entry_cases l e) as [->|(t & n & _ & _ & _ & _ & ->)].
  - apply IH; [done|]. by eapply deliverable_tail.
  - destruct (single_fire_trigger _ _ _ _ Hsf Hdel). by apply IH.
Qed.

Lemma counter_run_single_fire evs : ∀ l : loop task env,
  single_fire (observed (world l)) (fired (world l)) →
  single_fire (observed (world (run evs l))) (fired (world (run evs l))).
Proof.
  induction evs as [|ev evs IH]; intros l Hsf; [done|]. cbn. apply IH.
  destruct ev as [changes|]; unfold step.
  - apply counter_callback_single_fire; [done|]. apply deliverable_entries, Hsf.
  - destruct (tick_frame l) as (-> & -> & _). done.
Qed.

End CounterOnce.

Section RevealOnce.
Import EventLoop Observer Reveal.

Lemma stagger_world sibs : ∀ idx (l : loop task env),
  world (stagger sibs idx l) = world l.
Proof. induction sibs as [|el sibs IH]; intros idx l; [done|]. cbn. by rewrite IH. Qed.

Lemma reveal_on_entry_cases (l : loop task env) e :
  on_entry l e = None
  ∨ on_entry l e = Some l
  ∨ ∃ l', on_entry l e = Some l'
          ∧ isIntersecting e = true
          ∧ observed (world l') = unobserve (target e) (observed (world l))
          ∧ fired (world l') = fired (world l) ++ [target e].
Proof.
  unfold on_entry. destruct (isIntersecting e); [|by right; left].
  destruct (ancestors <$> _) as [[|parent rest]|]; [by left| |by left].
  right; right. eexists. split; [done|]. cbn. by rewrite stagger_world.
Qed.

Lemma reveal_callback_single_fire es : ∀ l : loop task env,
  single_fire (observed (world l)) (fired (world l)) →
  deliverable es (observed (world l)) →
  single_fire (observed (world (callback es l))) (fired (world (callback es l))).
Proof.
  induction es as [|e es IH]; intros l Hsf Hdel; [done|]. cbn.
  destruct (reveal_on_entry_cases l e) as [->|[->|(l' & -> & _ & Eo & Ef)]].
  - done.
  - apply IH; [done|]. by eapply deliverable_tail.
  - destruct (single_fire_trigger _ _ _ _ Hsf Hdel). apply IH; by rewrite Eo, ?Ef.
Qed.

Lemma reveal_tick_frame (l : loop task env) :
  observed (world (run_steps exec 1 l)) = observed (world l)
  ∧ fired (world (run_steps exec 1 l)) = fired (world l).
Proof.
  cbn. destruct (earliest (timers l)) as [tm|]; [|done].
  unfold fire, exec. by destruct (t_task tm).
Qed.

Lemma reveal_run_single_fire evs : ∀ l : loop task env,
  single_fire (observed (world l)) (fired (world l)) →
  single_fire (observed (world (run evs l))) (fired (world (run evs l))).
Proof.
  induction evs as [|ev evs IH]; intros l Hsf; [done|]. cbn. apply IH.
  destruct ev as [changes|]; unfold step.
  - apply reveal_callback_single_fire; [done|]. apply deliverable_entries, Hsf.
  - destruct (reveal_tick_frame l) as [-> ->]. done.
Qed.

Lemma add_visible_idemp n : add_visible (add_visible n) = add_visible n.
Proof.
  unfold add_visible, ClassList.add. cbn. f_equal. set_solver.
Qed.

Lemma alter_add_visible (ns : list node) (el i : nat) n :
  ns !! i = Some n →
  alter add_visible el ns !! i = Some n
  ∨ alter add_visible el ns !! i = Some (add_visible n).
Proof.
  intros Hn. destruct (decide (el = i)) as [->|Hne].
  - right. by rewrite list_lookup_alter_eq, Hn.
  - left. by rewrite list_lookup_alter_ne.
Qed.

(** Every event leaves each node as it was or with 'visible' added. *)
Lemma reveal_step_nodes (l : loop task env) ev i n :
  nodes (world l) !! i = Some n ∨ nodes (world l) !! i = Some (add_visible n) →
  nodes (world (step l ev)) !! i = Some n
  ∨ nodes (world (step l ev)) !! i = Some (add_visible n).
Proof.
  assert (∀ (ns : list node) (el : nat),
    ns !! i = Some n ∨ ns !! i = Some (add_visible n) →
    alter add_visible el ns !! i = Some n
    ∨ alter add_visible el ns !! i = Some (add_visible n)) as Halter.
  { intros ns el [H|H].
    - by apply alter_add_visible.
    - right. destruct (alter_add_visible ns el i _ H) as [E|E]; [done|].
      by rewrite E, add_visible_idemp. }
  destruct ev as [changes|]; unfold step.
  - generalize (entries changes (observed (world l))). intros es. revert l.
    induction es as [|e es IH]; intros l Hl; [done|]. cbn.
    destruct (on_entry l e) as [l'|] eqn:E; [|done]. apply IH.
    revert E. unfold on_entry. destruct (isIntersecting e); [|by intros [= <-]].
    destruct (ancestors <$> _) as [[|p r]|]; try done. intros [= <-]. cbn.
    rewrite stagger_world. by apply Halter.
  - intros Hl. cbn. destruct (earliest (timers l)) as [tm|]; [|done].
    unfold fire, exec. destruct (t_task tm). cbn. by apply Halter.
Qed.

Lemma reveal_run_nodes evs : ∀ (l : loop task env) i n,
  nodes (world l) !! i = Some n ∨ nodes (world l) !! i = Some (add_visible n) →
  nodes (world (run evs l)) !! i = Some n
  ∨ nodes (world (run evs l)) !! i = Some (add_visible n).
Proof.
  induction evs as [|ev evs IH]; intros l i n Hl; [done|]. cbn.
  by apply IH, reveal_step_nodes.
Qed.

End RevealOnce.

Section ObserversOnce.
Import EventLoop Observer.

(** C7 (as amended). For each of the three observers: an entry with
    isIntersecting true whose effect is applied (the reveal of the target,
    the width of the bar, the start of the counter animation, which needs a
    text that parses to a non-zero number) unobserves its target; and
    whatever deliveries and timers follow [init], each element has its
    effect applied at most once and is no longer observed afterwards.  A
    revealed element only ever gains 'visible', and a bar only ever gets the
    one width computed from its [data-width]. *)
Theorem observers_fire_once :
  (∀ (l l' : loop Reveal.task Reveal.env) i,
     Reveal.on_entry l (Entry i true) = Some l' →
     (i ∉ Reveal.observed (world l'))
     ∧ Reveal.fired (world l') = Reveal.fired (world l) ++ [i])
  ∧ (∀ t0 ns evs,
       let l := Reveal.run evs (Reveal.initReveal t0 ns) in
       NoDup (Reveal.fired (world l))
       ∧ (∀ i, i ∈ Reveal.fired (world l) → i ∉ Reveal.observed (world l))
       ∧ ∀ i n, ns !! i = Some n →
           Reveal.nodes (world l) !! i = Some n
           ∨ Reveal.nodes (world l) !! i = Some (Reveal.add_visible n))
  ∧ (∀ css s i,
       (i ∉ SkillBars.observed (SkillBars.on_entry css s (Entry i true)))
       ∧ SkillBars.fired (SkillBars.on_entry css s (Entry i true))
         = SkillBars.fired s ++ [i])
  ∧ (∀ css bs frames,
       let s := SkillBars.run css frames (SkillBars.initSkillBars bs) in
       NoDup (SkillBars.fired s)
       ∧ (∀ i, i ∈ SkillBars.fired s → i ∉ SkillBars.observed s)
       ∧ ∀ i b, bs !! i = Some b →
           SkillBars.bars s !! i = Some b
           ∨ SkillBars.bars s !! i = Some (SkillBars.filled css b))
  ∧ (∀ (l : loop Counters.task Counters.env) i t n,
       Counters.texts (world l) !! i = Some t →
       Counters.parseInt (Counters.keep Counters.is_digit t) = Some n →
       n ≠ Counters.Fin 0 →
       (i ∉ Counters.observed (world (Counters.on_entry l (Entry i true))))
       ∧ Counters.fired (world (Counters.on_entry l (Entry i true)))
         = Counters.fired (world l) ++ [i])
  ∧ (∀ t0 ts evs,
       let l := Counters.run evs (Counters.initCounters t0 ts) in
       NoDup (Counters.fired (world l))
       ∧ ∀ i, i ∈ Counters.fired (world l) → i ∉ Counters.observed (world l)).
Proof.
  split; [|split; [|split; [|split; [|split]]]].
  - intros l l' i H.
    destruct (reveal_on_entry_cases l (Entry i true))
      as [E|[E|(l'' & E & _ & Eo & Ef)]]; rewrite E in H; try done.
    + exfalso. revert E. unfold Reveal.on_entry. cbn.
      destruct (Reveal.ancestors <$> _) as [[|p r]|]; try done.
      intros [= E]. apply (f_equal (fun x => length (Reveal.fired (world x)))) in E.
      cbn in E. rewrite stagger_world, length_app in E. cbn in E. lia.
    + injection H as <-. rewrite Eo, Ef. split; [|done].
      rewrite unobserve_spec. cbn. tauto.
  - intros t0 ns evs l.
    destruct (reveal_run_single_fire evs (Reveal.initReveal t0 ns)) as (_ & ? & ?);
      [apply single_fire_init|].
    split; [done|]. split; [done|]. intros i n Hn.
    apply reveal_run_nodes. by left.
  - intros css s i. cbn. split; [|done]. rewrite unobserve_spec. tauto.
  - intros css bs frames s.
    destruct (skill_run_single_fire css frames (SkillBars.initSkillBars bs)) as (_ & ? & ?);
      [apply single_fire_init|].
    split; [done|]. split; [done|]. intros i b Hb.
    apply skill_run_bars. by left.
  - intros l i t n Ht Hn Hn0. rewrite (on_entry_starts _ _ _ _ Ht Hn Hn0). cbn.
    split; [|done]. rewrite unobserve_spec. tauto.
  - intros t0 ts evs l.
    destruct (counter_run_single_fire evs (Counters.initCounters t0 ts)) as (_ & ? & ?);
      [apply single_fire_init|done].
Qed.

(** C7 fails as stated for a counter that shows 0: its callback runs with
    isIntersecting true and the element is still observed afterwards. *)
Lemma counter_zero_still_observed :
  entries {[0%nat := true]} (Counters.observed (world (Counters.initCounters 0 ["0"])))
  = [Entry 0 true]
  ∧ Counters.observed
      (world (Counters.step (Counters.initCounters 0 ["0"]) (Counters.Frame {[0%nat := true]})))
    = [0%nat].
Proof. split; by vm_compute. Qed.

End ObserversOnce.

Section TypingProps.
Import EventLoop Typing.
Variable words : list string.

Local Abbreviation exec := (Typing.exec words).

Lemma slice0_prefix w (k : nat) :
  (k ≤ String.length w)%nat → slice0 (Z.of_nat k) w = String.substring 0 k w.
Proof.
  intros Hk. unfold slice0.
  replace (Z.of_nat k <? 0)%Z with false by (symmetry; apply Z.ltb_ge; lia).
  by rewrite Z.min_l, Nat2Z.id by lia.
Qed.

(** A typing tick before the last character. *)
Lemma tick_types nw h id t i c w txt log :
  (nw ≤ t)%N → words !! i = Some w → (S c < String.length w)%nat →
  run_steps exec 1
    (Loop nw h [Timer id t None Tick] (Env txt i (Z.of_nat c) false false log))
  = Loop t (S h) [Timer h (t + 95) None Tick]
      (Env (String.substring 0 (S c) w) i (Z.of_nat (S c)) false false
           (log ++ [(t, String.substring 0 (S c) w)])).
Proof.
  intros Hnw Hw Hc. rewrite (run_steps_timeout _ _ id t Tick) by done.
  unfold Typing.exec, tick. cbn [world wordIdx deleting negb charIdx shown now paused].
  rewrite Hw. replace (Z.of_nat c + 1)%Z with (Z.of_nat (S c)) by lia.
  rewrite slice0_prefix by lia.
  replace (Z.of_nat (S c) =? Z.of_nat (String.length w))%Z with false
    by (symmetry; apply Z.eqb_neq; lia).
  unfold setTimeout, with_world. cbn. by rewrite N.max_r.
Qed.

(** The tick that types the last character starts the pause. *)
Lemma tick_completes nw h id t i c w txt log :
  (nw ≤ t)%N → words !! i = Some w → S c = String.length w →
  run_steps exec 1
    (Loop nw h [Timer id t None Tick] (Env txt i (Z.of_nat c) false false log))
  = Loop t (S h) [Timer h (t + 2000) None Resume]
      (Env (String.substring 0 (S c) w) i (Z.of_nat (S c)) false true
           (log ++ [(t, String.substring 0 (S c) w)])).
Proof.
  intros Hnw Hw Hc. rewrite (run_steps_timeout _ _ id t Tick) by done.
  unfold Typing.exec, tick. cbn [world wordIdx deleting negb charIdx shown now paused].
  rewrite Hw. replace (Z.of_nat c + 1)%Z with (Z.of_nat (S c)) by lia.
  rewrite slice0_prefix by lia.
  replace (Z.of_nat (S c) =? Z.of_nat (String.length w))%Z with true
    by (symmetry; apply Z.eqb_eq; lia).
  unfold setTimeout, with_world. cbn. by rewrite N.max_r.
Qed.

(** A deleting step: the end of the pause, or a tick while deleting. *)
Lemma step_deletes tk d p nw h id t i c w txt log :
  tk = Resume ∨ (tk = Tick ∧ d = true ∧ p = false) →
  (nw ≤ t)%N → words !! i = Some w → (S c ≤ String.length w)%nat →
  run_steps exec 1
    (Loop nw h [Timer id t None tk] (Env txt i (Z.of_nat (S c)) d p log))
  = Loop t (S h)
      [Timer h (t + match c with O => 95 | S _ => 55 end) None Tick]
      (Env (String.substring 0 c w)
           (match c with O => (i + 1) mod length words | S _ => i end)%nat
           (Z.of_nat c)
           (match c with O => false | S _ => true end) false
           (log ++ [(t, String.substring 0 c w)])).
Proof.
  intros Htk Hnw Hw Hc. rewrite (run_steps_timeout _ _ id t tk) by done.
  cbn [now fresh world timers].
  assert (Typing.exec words tk id
            (Loop (N.max nw t) h [] (Env txt i (Z.of_nat (S c)) d p log))
          = tick words
              (Loop t h [] (Env txt i (Z.of_nat (S c)) true false log))) as ->.
  { rewrite N.max_r by done. by destruct Htk as [->|(-> & -> & ->)]. }
  unfold tick. cbn [world wordIdx deleting negb charIdx shown now paused].
  rewrite Hw. replace (Z.of_nat (S c) - 1)%Z with (Z.of_nat c) by lia.
  rewrite slice0_prefix by lia.
  unfold setTimeout, with_world. by destruct c.
Qed.

(** [m] typing ticks that stay short of the last character. *)
Lemma grow_phase i w m : ∀ nw h id t c txt log,
  (nw ≤ t)%N → words !! i = Some w → (c + m < String.length w)%nat →
  ∃ nw' h' id' txt',
    (nw' ≤ t + 95 * N.of_nat m)%N
    ∧ run_steps exec m
        (Loop nw h [Timer id t None Tick] (Env txt i (Z.of_nat c) false false log))
      = Loop nw' h' [Timer id' (t + 95 * N.of_nat m) None Tick]
          (Env txt' i (Z.of_nat (c + m)) false false (log ++ grow_from t w c m)).
Proof.
  induction m as [|m IH]; intros nw h id t c txt log Hnw Hw Hc.
  { exists nw, h, id, txt. split; [lia|]. cbn [run_steps grow_from].
    by rewrite N.add_0_r, Nat.add_0_r, app_nil_r. }
  rewrite run_steps_S.
  rewrite (tick_types _ _ _ _ _ _ w) by (done || lia).
  destruct (IH t (S h) h (t + 95)%N (S c) (String.substring 0 (S c) w)
              (log ++ [(t, String.substring 0 (S c) w)]))
    as (nw' & h' & id' & txt' & Hnw' & ->); [lia|done|lia|].
  exists nw', h', id', txt'. split; [lia|].
  replace (t + 95 + 95 * N.of_nat m)%N with (t + 95 * N.of_nat (S m))%N by lia.
  replace (S c + m)%nat with (c + S m)%nat by lia.
  by rewrite <-app_assoc.
Qed.

(** Deleting the [S m] characters that are left, starting with the step
    [tk]; then the next word is due. *)
Lemma shrink_phase i w m : ∀ tk d p nw h id t txt log,
  tk = Resume ∨ (tk = Tick ∧ d = true ∧ p = false) →
  (nw ≤ t)%N → words !! i = Some w → (S m ≤ String.length w)%nat →
  ∃ nw' h' id',
    (nw' ≤ t + 55 * N.of_nat m + 95)%N
    ∧ run_steps exec (S m)
        (Loop nw h [Timer id t None tk] (Env txt i (Z.of_nat (S m)) d p log))
      = Loop nw' h' [Timer id' (t + 55 * N.of_nat m + 95) None Tick]
          (Env "" ((i + 1) mod length words)%nat 0 false false
               (log ++ shrink_from t w (S m) (S m))).
Proof.
  induction m as [|m IH]; intros tk d p nw h id t txt log Htk Hnw Hw Hm.
  { exists t, (S h), h. split; [lia|].
    rewrite (step_deletes tk d p _ _ _ _ _ 0 w) by done.
    cbn [shrink_from Nat.sub]. replace (String.substring 0 0 w) with "" by by destruct w.
    do 2 f_equal. f_equal. lia. }
  rewrite run_steps_S.
  rewrite (step_deletes tk d p _ _ _ _ _ (S m) w) by done.
  destruct (IH Tick true false t (S h) h (t + 55)%N (String.substring 0 (S m) w)
              (log ++ [(t, String.substring 0 (S m) w)]))
    as (nw' & h' & id' & Hnw' & ->); [by right|lia|done|lia|].
  exists nw', h', id'. split; [lia|].
  replace (t + 55 + 55 * N.of_nat m + 95)%N with (t + 55 * N.of_nat (S m) + 95)%N by lia.
  assert (shrink_from t w (S (S m)) (S (S m))
          = (t, String.substring 0 (S m) w) :: shrink_from (t + 55) w (S m) (S m)) as ->.
  { cbn [shrink_from Nat.sub]. by rewrite Nat.sub_0_r. }
  by rewrite <-app_assoc.
Qed.

Lemma grow_from_snoc w : ∀ m t c,
  grow_from t w c (S m)
  = grow_from t w c m ++ [((t + 95 * N.of_nat m)%N, String.substring 0 (S (c + m)) w)].
Proof.
  induction m as [|m IH]; intros t c.
  { cbn [grow_from app]. by rewrite N.add_0_r, Nat.add_0_r. }
  change (grow_from t w c (S (S m)))
    with ((t, String.substring 0 (S c) w) :: grow_from (t + 95) w (S c) (S m)).
  rewrite IH. cbn [grow_from app].
  replace (t + 95 + 95 * N.of_nat m)%N with (t + 95 * N.of_nat (S m))%N by lia.
  by replace (S c + m)%nat with (c + S m)%nat by lia.
Qed.

(** One whole cycle: from a pending first tick on word [i] to the pending
    first tick on the next word. *)
Lemma typing_cycle i w nw h id t txt log :
  (nw ≤ t)%N → words !! i = Some w → w ≠ "" →
  ∃ nw' h' id',
    (nw' ≤ t + cycle_time w)%N
    ∧ run_steps exec (2 * String.length w)
        (Loop nw h [Timer id t None Tick] (Env txt i 0 false false log))
      = Loop nw' h' [Timer id' (t + cycle_time w) None Tick]
          (Env "" ((i + 1) mod length words)%nat 0 false false
               (log ++ cycle_log t w)).
Proof.
  intros Hnw Hw Hne. unfold cycle_time, cycle_log.
  destruct (String.length w) as [|n] eqn:Hlen; [by destruct w|].
  replace (2 * S n)%nat with (n + (1 + S n))%nat by lia.
  rewrite !run_steps_add. replace (S n - 1)%nat with n by lia.
  destruct (grow_phase i w n nw h id t 0%nat txt log)
    as (nw1 & h1 & id1 & txt1 & Hnw1 & E1); [done|done|lia|].
  change 0%Z with (Z.of_nat 0). rewrite E1. cbn [Nat.add].
  rewrite (tick_completes _ _ _ _ _ _ w) by (done || lia).
  destruct (shrink_phase i w n Resume false true (t + 95 * N.of_nat n)%N (S h1) h1
              (t + 95 * N.of_nat n + 2000)%N (String.substring 0 (S n) w)
              ((log ++ grow_from t w 0 n)
               ++ [((t + 95 * N.of_nat n)%N, String.substring 0 (S n) w)]))
    as (nw2 & h2 & id2 & Hnw2 & E2); [by left|lia|done|lia|].
  rewrite E2. exists nw2, h2, id2. split; [lia|].
  rewrite grow_from_snoc, <-!app_assoc. cbn [Nat.add].
  by replace (t + (95 * N.of_nat n + 2000 + 55 * N.of_nat n + 95))%N
    with (t + 95 * N.of_nat n + 2000 + 55 * N.of_nat n + 95)%N by lia.
Qed.

End TypingProps.

Section TypingDisplay.
Import EventLoop Typing.
Variable words : list string.

Local Abbreviation exec := (Typing.exec words).

(** A tick that finds its word writes one text to the element and logs
    exactly that text with the current time; a tick that finds none throws
    before it writes. *)
Lemma tick_log (l : loop task env) :
  tick words l = l
  ∨ (shown (world (tick words l))
     = shown (world l) ++ [(now l, textContent (world (tick words l)))]
     ∧ now (tick words l) = now l).
Proof.
  unfold tick. destruct (words !! wordIdx (world l)) as [word|]; [|by left]. right.
  destruct (deleting (world l)); cbn [negb].
  - by destruct (paused (world l)).
  - destruct (_ =? _)%Z; [done|]. by destruct (paused (world l)).
Qed.

Lemma step_log (l : loop task env) :
  shown (world (run_steps exec 1 l)) = shown (world l)
  ∨ shown (world (run_steps exec 1 l))
    = shown (world l)
      ++ [(now (run_steps exec 1 l), textContent (world (run_steps exec 1 l)))].
Proof.
  cbn [run_steps]. destruct (earliest (timers l)) as [tm|]; [|by left].
  unfold fire, Typing.exec.
  set (l1 := Loop _ _ _ _).
  destruct (t_task tm).
  - destruct (tick_log l1) as [->|[-> ->]]; [by left|by right].
  - set (l2 := with_world _ l1).
    destruct (tick_log l2) as [->|[-> ->]]; [by left|by right].
Qed.

Lemma run_log j : ∀ l : loop task env,
  ∃ ex, shown (world (run_steps exec j l)) = shown (world l) ++ ex
        ∧ (length ex ≤ j)%nat
        ∧ (length ex = j → (1 ≤ j)%nat →
           last ex = Some (now (run_steps exec j l),
                           textContent (world (run_steps exec j l)))).
Proof.
  induction j as [|j IH]; intros l.
  { exists []. rewrite app_nil_r. split; [done|]. split; [done|]. lia. }
  replace (S j) with (j + 1)%nat by lia. rewrite run_steps_add.
  destruct (IH l) as (ex & E & Hlen & _).
  destruct (step_log (run_steps exec j l)) as [E1|E1]; rewrite E1, E.
  - exists ex. split; [done|]. split; [lia|]. lia.
  - eexists. rewrite <-app_assoc. split; [done|]. rewrite length_app. cbn.
    split; [lia|]. intros _ _. by rewrite last_snoc.
Qed.

(** When [J] firings have logged [J] texts, the text of the element after
    each firing is the text logged by that firing, written at the logged
    time. *)
Lemma display_follows_log (l : loop task env) (J : nat) (L : list (N * string)) :
  shown (world (run_steps exec J l)) = shown (world l) ++ L →
  length L = J →
  ∀ j, (1 ≤ j ≤ J)%nat →
    L !! (j - 1)%nat
    = Some (now (run_steps exec j l), textContent (world (run_steps exec j l))).
Proof.
  intros HL Hlen j Hj.
  destruct (run_log j l) as (ex & E & Hex & Hlast).
  destruct (run_log (J - j) (run_steps exec j l)) as (ex2 & E2 & Hex2 & _).
  rewrite <-run_steps_add in E2. replace (j + (J - j))%nat with J in E2 by lia.
  rewrite HL, E, <-app_assoc in E2. apply app_inv_head in E2. clear HL. subst L.
  rewrite length_app in Hlen.
  assert (length ex = j) as Hj' by lia.
  rewrite lookup_app_l by lia. rewrite <-Hlast by (done || lia).
  rewrite last_lookup. f_equal. lia.
Qed.

Lemma length_grow_from w : ∀ m t c, length (grow_from t w c m) = m.
Proof. induction m as [|m IH]; intros t c; cbn; [done|]. by rewrite IH. Qed.

Lemma length_shrink_from w : ∀ m t c, length (shrink_from t w c m) = m.
Proof. induction m as [|m IH]; intros t c; cbn; [done|]. by rewrite IH. Qed.

Lemma length_cycle_log t w : length (cycle_log t w) = (2 * String.length w)%nat.
Proof.
  unfold cycle_log. rewrite length_app, length_grow_from, length_shrink_from. lia.
Qed.

Lemma length_cycles_log w k : ∀ t,
  length (cycles_log t w k) = (k * (2 * String.length w))%nat.
Proof.
  induction k as [|k IH]; intros t; [done|]. cbn [cycles_log].
  rewrite length_app, length_cycle_log, IH. lia.
Qed.

Lemma length_pass_log ws : ∀ t, length (pass_log t ws) = pass_steps ws.
Proof.
  induction ws as [|w ws IH]; intros t; [done|]. cbn [pass_log pass_steps fold_right].
  rewrite length_app, length_cycle_log, IH. done.
Qed.

End TypingDisplay.

Section TypingCycles.
Import EventLoop Typing.

(** With a single word the cycle repeats on that word. *)
Lemma typing_cycles w k : ∀ nw h id t txt log,
  (nw ≤ t)%N → w ≠ "" →
  ∃ nw' h' id' txt',
    (nw' ≤ t + N.of_nat k * cycle_time w)%N
    ∧ run_steps (exec [w]) (k * (2 * String.length w))
        (Loop nw h [Timer id t None Tick] (Env txt 0 0 false false log))
      = Loop nw' h' [Timer id' (t + N.of_nat k * cycle_time w) None Tick]
          (Env txt' 0 0 false false (log ++ cycles_log t w k)).
Proof.
  induction k as [|k IH]; intros nw h id t txt log Hnw Hne.
  { exists nw, h, id, txt. split; [lia|]. cbn [run_steps Nat.mul cycles_log N.of_nat].
    by rewrite N.add_0_r, app_nil_r. }
  replace (S k * (2 * String.length w))%nat
    with (2 * String.length w + k * (2 * String.length w))%nat by lia.
  rewrite run_steps_add.
  destruct (typing_cycle [w] 0 w nw h id t txt log) as (nw1 & h1 & id1 & Hnw1 & ->);
    [done..|].
  destruct (IH nw1 h1 id1 (t + cycle_time w)%N "" (log ++ cycle_log t w))
    as (nw2 & h2 & id2 & txt2 & Hnw2 & E2); [done..|].
  change ((0 + 1) mod length [w])%nat with 0%nat. rewrite E2.
  exists nw2, h2, id2, txt2. split; [lia|].
  replace (t + cycle_time w + N.of_nat k * cycle_time w)%N
    with (t + N.of_nat (S k) * cycle_time w)%N by lia.
  cbn [cycles_log]. by rewrite <-app_assoc.
Qed.

Lemma cycle_log_AI_Enthusiast t :
  cycle_log t "AI Enthusiast"
  = [(t, "A"); (t + 95, "AI"); (t + 190, "AI "); (t + 285, "AI E");
     (t + 380, "AI En"); (t + 475, "AI Ent"); (t + 570, "AI Enth");
     (t + 665, "AI Enthu"); (t + 760, "AI Enthus"); (t + 855, "AI Enthusi");
     (t + 950, "AI Enthusia"); (t + 1045, "AI Enthusias");
     (t + 1140, "AI Enthusiast");
     (t + 3140, "AI Enthusias"); (t + 3195, "AI Enthusia");
     (t + 3250, "AI Enthusi"); (t + 3305, "AI Enthus"); (t + 3360, "AI Enthu");
     (t + 3415, "AI Enth"); (t + 3470, "AI Ent"); (t + 3525, "AI En");
     (t + 3580, "AI E"); (t + 3635, "AI "); (t + 3690, "AI"); (t + 3745, "A");
     (t + 3800, "")]%N.
Proof.
  unfold cycle_log.
  cbn [String.length grow_from shrink_from Nat.sub app].
  rewrite <-!N.add_assoc. reflexivity.
Qed.

(** C6. With the word list ["AI Enthusiast"], the texts written to the
    element from the first tick on are, for every number of cycles, the same
    cycle again and again: "A", "AI", ... one character more every 95 ms up
    to the full word, then after a pause of 2000 ms one character less every
    55 ms down to the empty string, and 95 ms later the next cycle begins; a
    tick is always pending, so the effect never stops.  After its [j]-th
    firing the element shows the [j]-th text of that sequence, written at
    the time given with it.  With any word list, a cycle on the word at index
    [i] shows the texts of that word's cycle in the same way and ends on the
    empty string with the word index advanced to (i + 1) modulo the length
    of the list. *)
Theorem typing_effect_cycles :
  (∀ hero t0 k,
     ∃ nw h id txt,
       run_steps (exec ["AI Enthusiast"]) (k * 26)
         (initTypingEffect (Some hero) t0)
       = Loop nw h [Timer id (t0 + 1200 + N.of_nat k * 3895) None Tick]
           (Env txt 0 0 false false (cycles_log (t0 + 1200) "AI Enthusiast" k)))
  ∧ (∀ hero t0 k j, (1 ≤ j ≤ k * 26)%nat →
       cycles_log (t0 + 1200) "AI Enthusiast" k !! (j - 1)%nat
       = Some (now (run_steps (exec ["AI Enthusiast"]) j
                      (initTypingEffect (Some hero) t0)),
               textContent (world (run_steps (exec ["AI Enthusiast"]) j
                                     (initTypingEffect (Some hero) t0)))))
  ∧ (∀ t,
       cycle_log t "AI Enthusiast"
       = [(t, "A"); (t + 95, "AI"); (t + 190, "AI "); (t + 285, "AI E");
          (t + 380, "AI En"); (t + 475, "AI Ent"); (t + 570, "AI Enth");
          (t + 665, "AI Enthu"); (t + 760, "AI Enthus"); (t + 855, "AI Enthusi");
          (t + 950, "AI Enthusia"); (t + 1045, "AI Enthusias");
          (t + 1140, "AI Enthusiast");
          (t + 3140, "AI Enthusias"); (t + 3195, "AI Enthusia");
          (t + 3250, "AI Enthusi"); (t + 3305, "AI Enthus"); (t + 3360, "AI Enthu");
          (t + 3415, "AI Enth"); (t + 3470, "AI Ent"); (t + 3525, "AI En");
          (t + 3580, "AI E"); (t + 3635, "AI "); (t + 3690, "AI"); (t + 3745, "A");
          (t + 3800, "")]%N)
  ∧ (∀ words i w nw h id t txt log,
       (nw ≤ t)%N → words !! i = Some w → w ≠ "" →
       (∃ nw' h' id',
          run_steps (exec words) (2 * String.length w)
            (Loop nw h [Timer id t None Tick] (Env txt i 0 false false log))
          = Loop nw' h' [Timer id' (t + cycle_time w) None Tick]
              (Env "" ((i + 1) mod length words)%nat 0 false false
                   (log ++ cycle_log t w)))
       ∧ ∀ j, (1 ≤ j ≤ 2 * String.length w)%nat →
           cycle_log t w !! (j - 1)%nat
           = Some (now (run_steps (exec words) j
                          (Loop nw h [Timer id t None Tick]
                                (Env txt i 0 false false log))),
                   textContent (world (run_steps (exec words) j
                                         (Loop nw h [Timer id t None Tick]
                                               (Env txt i 0 false false log)))))).
Proof.
  split; [|split; [|split]].
  - intros hero t0 k.
    destruct (typing_cycles "AI Enthusiast" k t0 1 0%nat (t0 + 1200)%N "" [])
      as (nw & h & id & txt & _ & E); [lia|done|].
    exists nw, h, id, txt. exact E.
  - intros hero t0 k j Hj.
    destruct (typing_cycles "AI Enthusiast" k t0 1 0%nat (t0 + 1200)%N "" [])
      as (nw & h & id & txt & _ & E); [lia|done|].
    apply (display_follows_log ["AI Enthusiast"] _ (k * 26)); [|by rewrite length_cycles_log|done].
    change (k * 26)%nat with (k * (2 * String.length "AI Enthusiast"))%nat.
    unfold initTypingEffect, setTimeout. cbn [snd now fresh timers world app].
    by rewrite E.
  - apply cycle_log_AI_Enthusiast.
  - intros words i w nw h id t txt log Hnw Hw Hne.
    destruct (typing_cycle words i w nw h id t txt log) as (nw' & h' & id' & _ & E);
      [done..|].
    split; [by exists nw', h', id'|].
    apply display_follows_log; [by rewrite E|apply length_cycle_log].
Qed.

End TypingCycles.

Section TypingExamples.
Import EventLoop Typing.

Example cycle_log_AI :
  cycle_log 1200 "AI Enthusiast"
  = [(1200, "A"); (1295, "AI"); (1390, "AI "); (1485, "AI E"); (1580, "AI En");
     (1675, "AI Ent"); (1770, "AI Enth"); (1865, "AI Enthu"); (1960, "AI Enthus");
     (2055, "AI Enthusi"); (2150, "AI Enthusia"); (2245, "AI Enthusias");
     (2340, "AI Enthusiast");
     (4340, "AI Enthusias"); (4395, "AI Enthusia"); (4450, "AI Enthusi");
     (4505, "AI Enthus"); (4560, "AI Enthu"); (4615, "AI Enth"); (4670, "AI Ent");
     (4725, "AI En"); (4780, "AI E"); (4835, "AI "); (4890, "AI"); (4945, "A");
     (5000, "")]%N.
Proof. reflexivity. Qed.

Example typing_first_cycle :
  shown (world (run_steps (exec ["AI Enthusiast"]) 26
                  (initTypingEffect (Some "Developer") 0)))
  = cycle_log 1200 "AI Enthusiast".
Proof. by vm_compute. Qed.

Example typing_two_cycles :
  let l := run_steps (exec ["AI Enthusiast"]) 52 (initTypingEffect (Some "Developer") 0) in
  shown (world l) = cycle_log 1200 "AI Enthusiast" ++ cycle_log 5095 "AI Enthusiast"
  ∧ t_due <$> timers l = [8990%N].
Proof. by vm_compute. Qed.

Example typing_source_words :
  let l := run_steps (exec words) (2 * 18 + 2 * 13) (initTypingEffect (Some "") 0) in
  shown (world l)
  = cycle_log 1200 "Software Developer"
    ++ cycle_log (1200 + cycle_time "Software Developer") "AI Enthusiast"
  ∧ wordIdx (world l) = 2%nat.
Proof. by vm_compute. Qed.

End TypingExamples.

Section RegexProps.
Import Regex.

Lemma append_nil_inv (s1 s2 : list N) : s1 ++ s2 = [] → s1 = [] ∧ s2 = [].
Proof. destruct s1; [done|]. by cbn. Qed.

Lemma append_cons_inv (s1 s2 : list N) c s :
  s1 ++ s2 = c :: s →
  (s1 = [] ∧ s2 = c :: s) ∨ ∃ s1', s1 = c :: s1' ∧ s = s1' ++ s2.
Proof.
  destruct s1 as [|c' s1']; cbn; [by left|].
  intros [= -> <-]. right. by exists s1'.
Qed.

Lemma nullable_lang r : nullable r = true ↔ lang r [].
Proof.
  split.
  - induction r as [| |p|r1 IH1 r2 IH2|r1 IH1 r2 IH2|r IH]; cbn; try done.
    + intros _. constructor.
    + intros [H1 H2]%andb_true_iff. apply (lang_cat r1 r2 [] []); auto.
    + intros [H|H]%orb_true_iff; [apply lang_alt_l|apply lang_alt_r]; auto.
    + intros _. constructor.
  - intros H. remember [] as s eqn:Es. induction H as
      [|p c Hp|r1 r2 s1 s2 H1 IH1 H2 IH2|r1 r2 s H IH|r1 r2 s H IH| |r s1 s2 H1 IH1 H2 IH2];
      cbn; try done.
    + apply append_nil_inv in Es as [-> ->]. by rewrite IH1, IH2.
    + by rewrite IH.
    + rewrite IH by done. apply orb_true_r.
Qed.

(** A non-empty match of a star starts with a non-empty match of its body. *)
Lemma lang_star_cons_inv r c s :
  lang (Star r) (c :: s) →
  ∃ s1 s2, s = s1 ++ s2 ∧ lang r (c :: s1) ∧ lang (Star r) s2.
Proof.
  intros H. remember (Star r) as r0 eqn:Er. remember (c :: s) as s0 eqn:Es.
  revert s Es. induction H as
    [|p c' Hp|r1 r2 s1 s2 H1 IH1 H2 IH2|r1 r2 s' H IH|r1 r2 s' H IH|
     |r' s1 s2 H1 IH1 H2 IH2]; intros s Es; try done.
  injection Er as ->.
  apply append_cons_inv in Es as [[-> ->]|(s1' & -> & ->)].
  - by apply IH2.
  - by exists s1', s2.
Qed.

Lemma deriv_lang r : ∀ c s, lang (deriv c r) s ↔ lang r (c :: s).
Proof.
  induction r as [| |p|r1 IH1 r2 IH2|r1 IH1 r2 IH2|r IH]; intros c s; cbn.
  - split; inversion 1.
  - split; inversion 1.
  - destruct (p c) eqn:Hp; split; inversion 1; subst.
    + by constructor.
    + constructor.
    + congruence.
  - assert (lang (Cat (deriv c r1) r2) s →
            lang (Cat r1 r2) (c :: s)) as Hl.
    { inversion 1 as [| |? ? s1 s2 H1 H2| | | |]; subst.
      apply IH1 in H1. by apply (lang_cat r1 r2 (c :: s1) s2). }
    assert (lang (Cat r1 r2) (c :: s) →
            lang (Cat (deriv c r1) r2) s
            ∨ (nullable r1 = true ∧ lang (deriv c r2) s)) as Hr.
    { inversion 1 as [| |? ? s1 s2 H1 H2 [E1 E2] Es| | | |]; subst.
      apply append_cons_inv in Es as [[-> ->]|(s1' & -> & ->)].
      - right. split; [by apply nullable_lang|by apply IH2].
      - left. constructor; [by apply IH1|done]. }
    destruct (nullable r1) eqn:Hn.
    + split.
      * inversion 1; subst; [by apply Hl|].
        apply (lang_cat r1 r2 [] (c :: s)); [by apply nullable_lang|by apply IH2].
      * intros [H|[_ H]]%Hr; [by apply lang_alt_l|by apply lang_alt_r].
    + split; [done|]. by intros [H|[? _]]%Hr.
  - split.
    + inversion 1; subst; [apply lang_alt_l; by apply IH1|apply lang_alt_r; by apply IH2].
    + inversion 1; subst; [apply lang_alt_l; by apply IH1|apply lang_alt_r; by apply IH2].
  - split.
    + inversion 1 as [| |? ? s1 s2 H1 H2| | | |]; subst.
      apply IH in H1. by apply (lang_star_cons r (c :: s1) s2).
    + intros (s1 & s2 & -> & H1 & H2)%lang_star_cons_inv.
      constructor; [by apply IH|done].
Qed.

(** [test] decides membership in the language of the expression. *)
Lemma test_lang s : ∀ r, test r s = true ↔ lang r s.
Proof.
  induction s as [|c s IH]; intros r; cbn.
  - apply nullable_lang.
  - by rewrite IH, deriv_lang.
Qed.

End RegexProps.

Section EmailProps.
Import Regex JSString ContactForm.

Lemma lang_class_inv p s : lang (Class p) s → ∃ c, s = [c] ∧ p c = true.
Proof. inversion 1; subst. eauto. Qed.

Lemma lang_cat_inv r1 r2 s :
  lang (Cat r1 r2) s → ∃ s1 s2, s = s1 ++ s2 ∧ lang r1 s1 ∧ lang r2 s2.
Proof. inversion 1; subst. eauto. Qed.

Lemma lang_star_class p s : lang (Star (Class p)) s ↔ all_chars p s = true.
Proof.
  unfold all_chars. induction s as [|c s IH]; cbn.
  - split; [done|]. intros _. constructor.
  - rewrite andb_true_iff, <-IH. split.
    + intros (s1 & s2 & -> & (c' & [= <- ->] & Hp)%lang_class_inv & H2)%lang_star_cons_inv.
      done.
    + intros [Hp H]. apply (lang_star_cons _ [c] s); [by constructor|done].
Qed.

Lemma lang_plus_class p s :
  lang (Plus (Class p)) s ↔ s ≠ [] ∧ all_chars p s = true.
Proof.
  unfold Plus. split.
  - intros (s1 & s2 & -> & (c & -> & Hp)%lang_class_inv & H2%lang_star_class)%lang_cat_inv.
    unfold all_chars in *. cbn. by rewrite Hp, H2.
  - destruct s as [|c s]; [by intros [? _]|]. unfold all_chars. cbn.
    intros [_ [Hp H]%andb_true_iff].
    apply (lang_cat _ _ [c] s); [by constructor|by apply lang_star_class].
Qed.

(** The strings [emailRx] accepts: [local@domain.tld], each part a
    non-empty run of code units other than white space and [@]. *)
Lemma emailRx_shape s :
  test emailRx s = true
  ↔ ∃ a b c, s = a ++ [0x40%N] ++ b ++ [0x2E%N] ++ c ∧ word a ∧ word b ∧ word c.
Proof.
  rewrite test_lang. unfold emailRx, word. split.
  - intros (a & s1 & -> & Ha%lang_plus_class
              & (at_ & s2 & -> & (c1 & -> & E1%N.eqb_eq)%lang_class_inv
              & (b & s3 & -> & Hb%lang_plus_class
              & (dot & c & -> & (c2 & -> & E2%N.eqb_eq)%lang_class_inv
              & Hc%lang_plus_class)%lang_cat_inv)%lang_cat_inv)%lang_cat_inv)%lang_cat_inv.
    subst c1 c2. by exists a, b, c.
  - intros (a & b & c & -> & Ha & Hb & Hc).
    apply lang_cat; [by apply lang_plus_class|].
    apply (lang_cat _ _ [0x40%N]); [by constructor|].
    apply lang_cat; [by apply lang_plus_class|].
    apply (lang_cat _ _ [0x2E%N]); [by constructor|].
    by apply lang_plus_class.
Qed.

End EmailProps.

Section ContactFormProps.
Import EventLoop JSString ContactForm.

Local Abbreviation loop := (EventLoop.loop task dom).

Lemma valid_missing (fs : list field) :
  forallb (fun f => negb (missing f)) fs = true ↔ ∀ f, f ∈ fs → missing f = false.
Proof.
  rewrite forallb_forall. split; intros H f Hf.
  - apply negb_true_iff, H. by apply list_elem_of_In.
  - apply negb_true_iff, H. by apply list_elem_of_In.
Qed.

Lemma invalid_missing (fs : list field) :
  forallb (fun f => negb (missing f)) fs = false → ∃ f, f ∈ fs ∧ missing f = true.
Proof.
  induction fs as [|f fs IH]; cbn; [done|].
  destruct (missing f) eqn:E; cbn.
  - intros _. exists f. split; [left|done].
  - intros (g & Hg & Hm)%IH. exists g. split; [by right|done].
Qed.

Lemma missing_false f :
  missing f = false ↔ (inForm f = true → required f = true → trim (value f) ≠ []).
Proof.
  unfold missing. destruct (inForm f), (required f); cbn;
    rewrite ?bool_decide_eq_false; naive_solver.
Qed.


Lemma check_required_id (fs : list field) :
  (∀ f, f ∈ fs → missing f = false) → check_required <$> fs = fs.
Proof.
  intros H. induction fs as [|f fs IH]; [done|]. cbn. rewrite IH.
  - unfold check_required. by rewrite (H f) by left.
  - intros g Hg. apply H. by right.
Qed.

(** What [submit] does, case by case. *)
Lemma submit_cases (l : loop) :
  let d := world l in
  ((∃ f, f ∈ fields d ∧ missing f = true) ∧
   submit l = Loop (now l) (fresh l) (timers l)
                (Dom (check_required <$> fields d) (btn d) (success d) (focused d)))
  ∨ ((∀ f, f ∈ fields d → missing f = false) ∧
     ∃ i e, emailEl d = Some (i, e) ∧ Regex.test emailRx (value e) = false ∧
       submit l = Loop (now l) (fresh l) (timers l)
                    (Dom (<[i := set_border invalid e]> (fields d)) (btn d)
                         (success d) (Some i)))
  ∨ ((∀ f, f ∈ fields d → missing f = false) ∧
     (∀ i e, emailEl d = Some (i, e) → Regex.test emailRx (value e) = true) ∧
     submit l = send l).
Proof.
  intros d. unfold submit. fold d.
  destruct (forallb _ (fields d)) eqn:Hv; cbn [negb].
  - pose proof (proj1 (valid_missing _) Hv) as Hall. clear Hv. right.
    assert (with_world
              (fun d => Dom (check_required <$> fields d) (btn d) (success d) (focused d)) l
            = l) as ->.
    { unfold with_world. fold d. rewrite check_required_id by done.
      destruct l as [? ? ? []]. done. }
    fold d. destruct (emailEl d) as [[i e]|] eqn:Ee.
    + destruct (Regex.test emailRx (value e)) eqn:Et; cbn [negb].
      * right. split; [done|]. split; [|done]. by intros i' e' [= <- <-].
      * left. split; [done|]. by exists i, e.
    + right. split; [done|]. split; [|done]. by intros i' e' [=].
  - left. split; [|done]. by apply invalid_missing.
Qed.

Lemma acceptable_submit (l : loop) : acceptable (world l) → submit l = send l.
Proof.
  intros [Hreq Hmail].
  destruct (submit_cases l) as [[(f & Hf & Hm) _]|[(_ & i & e & He & Ht & _)|(_ & _ & E)]].
  - rewrite (proj2 (missing_false f)) in Hm; [done|]. by apply Hreq.
  - by rewrite (Hmail i e He) in Ht.
  - done.
Qed.

Lemma send_sending (l : loop) b :
  btn (world l) = Some b →
  send l = Loop (now l) (S (fresh l))
             (timers l ++ [Timer (fresh l) (now l + 1800) None Sent])
             (Dom (fields (world l)) (Some (busy b)) (success (world l))
                  (focused (world l))).
Proof. intros Hb. unfold send. by rewrite Hb. Qed.




Lemma restored_busy b : restored (busy b) = restored b.
Proof. unfold restored, busy. cbn. by destruct (span b), (icon b). Qed.

Lemma restored_restored b : restored (restored b) = restored b.
Proof. unfold restored. cbn. by destruct (span b), (icon b). Qed.

Lemma reset_reset f : reset (reset f) = reset f.
Proof. unfold reset. destruct (inForm f) eqn:E; cbn; by rewrite ?E. Qed.

Lemma in_flight_sent d0 b d :
  in_flight d0 b d →
  in_flight d0 b (Dom (reset <$> fields d) (restored <$> btn d)
                      (ClassList.add "show" <$> success d) (focused d))
  ∧ fields (Dom (reset <$> fields d) (restored <$> btn d)
                (ClassList.add "show" <$> success d) (focused d))
    = reset <$> fields d0
  ∧ btn (Dom (reset <$> fields d) (restored <$> btn d)
             (ClassList.add "show" <$> success d) (focused d))
    = Some (restored b)
  ∧ (∀ s, ClassList.add "show" <$> success d = Some s → "show" ∈ s).
Proof.
  intros (Hf & Hb & Hs & Hfo). cbn.
  assert (reset <$> fields d = reset <$> fields d0) as Ef.
  { destruct Hf as [->| ->]; [done|].
    rewrite <-list_fmap_compose. apply list_fmap_ext. intros i f _. apply reset_reset. }
  assert (restored <$> btn d = Some (restored b)) as Eb.
  { destruct Hb as [->| ->]; cbn; by rewrite ?restored_busy, ?restored_restored. }
  split; [|split; [done|split; [done|]]].
  - split; [right; exact Ef|]. split; [right; exact Eb|]. split; [|done].
    destruct (success d0) as [s0|], (success d) as [s|]; cbn; try done.
    intros c Hc. rewrite elem_of_add. rewrite <-(Hs c Hc). naive_solver.
  - intros s. destruct (success d) as [s'|]; [|done]. cbn. intros [= <-].
    apply elem_of_add. by right.
Qed.

Lemma in_flight_hide d0 b d :
  in_flight d0 b d →
  in_flight d0 b (Dom (fields d) (btn d) (ClassList.remove "show" <$> success d)
                      (focused d)).
Proof.
  intros (Hf & Hb & Hs & Hfo). split; [done|]. split; [done|]. split; [|done]. cbn.
  destruct (success d0) as [s0|], (success d) as [s|]; cbn; try done.
  intros c Hc. rewrite elem_of_remove. rewrite <-(Hs c Hc). naive_solver.
Qed.

Lemma split_first {A} (x : A) a b a' b' :
  a ++ x :: b = a' ++ x :: b' → x ∉ a → x ∉ a' → a = a'.
Proof.
  revert a'. induction a as [|y a IH]; intros [|y' a']; cbn.
  - done.
  - intros [= <- _] _ H. destruct H. left.
  - intros [= -> _] H _. destruct H. left.
  - intros [= <- E] H H'. f_equal. apply IH; [done| |].
    + intros ?. apply H. by right.
    + intros ?. apply H'. by right.
Qed.

(** With the send timer [Timer id0 T None Sent] pending behind the timers
    [pre] of earlier submissions, the clock run to [T] fires what is due of
    [pre], then the send timer, and nothing after it. *)
Lemma drain_to_sent (d0 : dom) (b : button) (id0 : nat) (T : N) : ∀ fuel (lc : loop) pre post,
  (length pre < fuel)%nat →
  timers lc = pre ++ Timer id0 T None Sent :: post →
  (∀ tm, tm ∈ pre → (t_id tm < id0)%nat ∧ t_every tm = None) →
  (∀ tm, tm ∈ post → (T < t_due tm)%N ∧ t_id tm ≠ id0) →
  (now lc ≤ T)%N → (T < now lc + 5000)%N →
  (id0 < fresh lc)%nat →
  in_flight d0 b (world lc) →
  ∃ l', run_until exec fuel T lc = Some l'
        ∧ now l' = T
        ∧ fields (world l') = reset <$> fields d0
        ∧ btn (world l') = Some (restored b)
        ∧ (∀ s0, success d0 = Some s0 →
             ∃ s, success (world l') = Some s ∧ "show" ∈ s
                  ∧ ∀ c, c ≠ "show" → c ∈ s ↔ c ∈ s0)
        ∧ (success d0 = None → success (world l') = None)
        ∧ focused (world l') = focused d0
        ∧ ∀ tm, tm ∈ timers l' → (T < t_due tm)%N.
Proof.
  induction fuel as [|fuel IH]; intros lc pre post Hlen Et Hpre Hpost Hnow HT Hid Hin;
    [lia|].
  set (ours := Timer id0 T None Sent) in *.
  assert (ours ∈ timers lc) as Hours.
  { rewrite Et. apply elem_of_app. right. left. }
  cbn [run_until]. destruct (earliest (timers lc)) as [x|] eqn:Ex.
  2: { destruct (timers lc) as [|t ts]; [by apply elem_of_nil in Hours|].
       cbn in Ex. destruct (earliest ts); [by destruct (_ <? _)%N|done]. }
  pose proof (earliest_min _ _ Ex ours Hours) as Hdue. cbn in Hdue.
  replace (t_due x <=? T)%N with true by (symmetry; by apply N.leb_le).
  pose proof (earliest_elem _ _ Ex) as Hx. rewrite Et in Hx.
  apply elem_of_app in Hx as [Hx|Hx]; [|apply elem_of_cons in Hx as [Hx|Hx]].
  - (* a timer of an earlier submission fires *)
    destruct (Hpre x Hx) as [Hidx Hev].
    assert (drop (t_id x) (timers lc)
            = drop (t_id x) pre ++ ours :: drop (t_id x) post) as Edrop.
    { rewrite Et. unfold drop. rewrite filter_app, filter_cons_True by (cbn; lia). done. }
    assert (length (drop (t_id x) pre) < length pre)%nat as Hshort.
    { unfold drop. apply (length_filter_lt _ _ x); [done|]. intros H. by apply H. }
    assert (∀ tm, tm ∈ drop (t_id x) pre → (t_id tm < id0)%nat ∧ t_every tm = None)
      as Hpre'.
    { intros tm Htm%elem_of_drop. by apply Hpre. }
    assert (∀ tm, tm ∈ drop (t_id x) post → (T < t_due tm)%N ∧ t_id tm ≠ id0)
      as Hpost'.
    { intros tm Htm%elem_of_drop. by apply Hpost. }
    unfold fire. rewrite Hev, Edrop.
    destruct (t_task x).
    + (* an earlier send ends *)
      unfold exec, setTimeout, with_world. cbn [snd now fresh timers world].
      destruct (in_flight_sent d0 b (world lc) Hin) as (Hin' & _).
      apply (IH _ (drop (t_id x) pre)
               (drop (t_id x) post
                ++ [Timer (fresh lc) (N.max (now lc) (t_due x) + 5000) None Hide]));
        cbn [now fresh timers world]; try done; try lia.
      * by rewrite <-app_assoc.
      * intros tm [Htm|Htm%list_elem_of_singleton]%elem_of_app; [by apply Hpost'|].
        subst tm. cbn. split; lia.
    + (* an earlier message is hidden *)
      unfold exec, with_world. cbn [now fresh timers world].
      apply (IH _ (drop (t_id x) pre) (drop (t_id x) post));
        cbn [now fresh timers world]; try done; try lia.
      by apply in_flight_hide.
  - (* the send timer itself *)
    subst x.
    destruct (earliest_split _ _ Ex) as (a & b' & Ea & Ha & Hb').
    assert (a = pre) as ->.
    { rewrite Et in Ea. symmetry in Ea. apply (split_first _ _ _ _ _ Ea).
      - intros H. apply Ha in H. lia.
      - intros H. apply Hpre in H. cbn in H. lia. }
    assert (drop id0 (timers lc) = pre ++ post) as Edrop.
    { rewrite Et. unfold drop. rewrite filter_app, filter_cons_False by (cbn; intros H; by apply H).
      f_equal.
      - clear -Hpre. induction pre as [|u pre IHp]; [done|].
        rewrite filter_cons_True by (destruct (Hpre u) as [? _]; [left|lia]).
        f_equal. apply IHp. intros tm Htm. apply Hpre. by right.
      - clear -Hpost. induction post as [|u post IHp]; [done|].
        rewrite filter_cons_True by (destruct (Hpost u) as [_ ?]; [left|done]).
        f_equal. apply IHp. intros tm Htm. apply Hpost. by right. }
    unfold fire. cbn [ours t_id t_every t_due t_task]. rewrite Edrop.
    unfold exec, setTimeout, with_world. cbn [snd now fresh timers world].
    rewrite N.max_r by done.
    destruct (in_flight_sent d0 b (world lc) Hin) as ((_ & _ & Hs & Hfo) & Ef & Eb & Hshow).
    rewrite run_until_all_later.
    + eexists. split; [done|]. cbn [now fresh timers world].
      split; [lia|]. split; [exact Ef|]. split; [exact Eb|]. split; [|split; [|split]].
      * intros s0 E0. cbn in Hs. rewrite E0 in Hs.
        destruct (success (world lc)) as [s|] eqn:E; [|done]. cbn in Hs.
        exists (ClassList.add "show" s). split; [done|].
        split; [by apply Hshow|done].
      * intros E0. cbn in Hs. rewrite E0 in Hs.
        by destruct (success (world lc)).
      * exact Hfo.
      * intros tm [[Htm|Htm]%elem_of_app|Htm%list_elem_of_singleton]%elem_of_app.
        -- by apply Ha.
        -- by apply Hpost.
        -- subst tm. cbn. lia.
    + cbn [timers].
      intros tm [[Htm|Htm]%elem_of_app|Htm%list_elem_of_singleton]%elem_of_app.
      * by apply Ha.
      * by apply Hpost.
      * subst tm. cbn. lia.
  - destruct (Hpost x Hx) as [Hlate _]. lia.
Qed.

(** C5 (as amended). A fully valid submission on a page with the submit
    button: at once the button is disabled and shows 'Sending…' with the
    spinner icon, and the send timer is scheduled behind the timers of
    earlier submissions, whatever they are.  When the clock reaches
    exactly 1800 ms later, every control of the form has its default value
    again, the button is enabled with the label 'Send Message' and the
    paper-plane icon, whatever its label was, and the success message has
    'show'.  If no timer of an earlier submission was pending at the
    submit, nothing changes before the 1800 ms are over, the message keeps
    'show' for the 5000 ms that follow, and exactly 5000 ms after it was
    shown it loses 'show' and no timer is left. *)
Theorem send_completes (l : loop) (b : button) (fuel : nat) :
  btn (world l) = Some b →
  acceptable (world l) →
  (∀ tm, tm ∈ timers l → (t_id tm < fresh l)%nat ∧ t_every tm = None) →
  (length (timers l) + 2 ≤ fuel)%nat →
  let d := world l in
  let busy_button :=
    Button true
      (match span b with Some _ => Some "Sending…" | None => None end)
      (match icon b with Some _ => Some "fas fa-spinner fa-spin" | None => None end) in
  let restored_button :=
    Button false
      (match span b with Some _ => Some "Send Message" | None => None end)
      (match icon b with Some _ => Some "fas fa-paper-plane" | None => None end) in
  let reset_field f :=
    if inForm f
    then Field (id f) true (required f) (defaultValue f) (defaultValue f)
               (borderColor f) (onInput f)
    else f in
  submit l
  = Loop (now l) (S (fresh l)) (timers l ++ [Timer (fresh l) (now l + 1800) None Sent])
      (Dom (fields d) (Some busy_button) (success d) (focused d))
  ∧ (∃ l', run_until exec fuel (now l + 1800) (submit l) = Some l'
           ∧ now l' = (now l + 1800)%N
           ∧ length (fields (world l')) = length (fields d)
           ∧ (∀ i f, fields d !! i = Some f →
                fields (world l') !! i = Some (reset_field f))
           ∧ btn (world l') = Some restored_button
           ∧ (∀ s0, success d = Some s0 →
                ∃ s, success (world l') = Some s ∧ "show" ∈ s
                     ∧ ∀ c, c ≠ "show" → c ∈ s ↔ c ∈ s0)
           ∧ focused (world l') = focused d)
  ∧ (timers l = [] →
     (∀ T, (T < now l + 1800)%N →
        ∃ l', run_until exec fuel T (submit l) = Some l'
              ∧ world l' = Dom (fields d) (Some busy_button) (success d) (focused d))
     ∧ (∀ T, (now l + 1800 ≤ T < now l + 6800)%N →
          ∃ l', run_until exec fuel T (submit l) = Some l'
                ∧ timers l' = [Timer (S (fresh l)) (now l + 6800) None Hide]
                ∧ world l' = Dom (reset_field <$> fields d) (Some restored_button)
                                 (ClassList.add "show" <$> success d) (focused d)
                ∧ ∀ s, success (world l') = Some s → "show" ∈ s)
     ∧ (∀ T, (now l + 6800 ≤ T)%N →
          ∃ l', run_until exec fuel T (submit l) = Some l'
                ∧ timers l' = []
                ∧ world l' = Dom (reset_field <$> fields d) (Some restored_button)
                                 (ClassList.remove "show"
                                    <$> (ClassList.add "show" <$> success d))
                                 (focused d)
                ∧ ∀ s, success (world l') = Some s → "show" ∉ s)).
Proof.
  intros Hb Ha Hwf Hfuel d busy_button restored_button reset_field.
  assert (busy b = busy_button) as Ebusy by done.
  assert (restored b = restored_button) as Erest by done.
  assert (∀ f, reset f = reset_field f) as Ereset.
  { intros f. unfold reset, reset_field. by destruct (inForm f) eqn:E. }
  assert (reset <$> fields d = reset_field <$> fields d) as Eresets.
  { apply list_fmap_ext. intros i f _. apply Ereset. }
  rewrite (acceptable_submit l Ha), (send_sending l b Hb). fold d. rewrite Ebusy.
  set (l1 := Loop _ _ _ _).
  split; [done|]. split.
  - destruct (drain_to_sent d b (fresh l) (now l + 1800) fuel l1 (timers l) [])
      as (l' & Hrun & Hnow & Hf & Hbt & Hs & _ & Hfo & _).
    + lia.
    + done.
    + done.
    + by intros tm ?%elem_of_nil.
    + cbn. lia.
    + cbn. lia.
    + cbn. lia.
    + subst l1. cbn. split; [by left|]. split; [left; by rewrite <-Ebusy|].
      split; [|done]. by destruct (success d).
    + exists l'. split; [done|]. split; [done|]. rewrite Hf, Hbt, Erest.
      split; [by rewrite length_fmap|]. split; [|done].
      intros i f Hi. by rewrite list_lookup_fmap, Hi, <-Ereset.
  - intros Et.
    assert (∀ T, (now l + 1800 ≤ T)%N → ∀ n,
      run_until exec (S n) T l1
      = run_until exec n T
          (Loop (now l + 1800) (S (S (fresh l)))
             [Timer (S (fresh l)) (now l + 6800) None Hide]
             (Dom (reset_field <$> fields d) (Some restored_button)
                  (ClassList.add "show" <$> success d) (focused d)))) as Hsent.
    { intros T HT n. subst l1. rewrite Et. erewrite run_until_fire; [|done|done].
      cbn. rewrite N.max_r by lia. rewrite Eresets.
      change (Button false _ _) with (restored busy_button).
      rewrite <-Ebusy, restored_busy, Erest.
      by replace (now l + 1800 + 5000)%N with (now l + 6800)%N by lia. }
    split; [|split].
    + intros T HT. subst l1. rewrite Et.
      erewrite run_until_before; [|done|by cbn]. eauto.
    + intros T [HT1 HT2]. destruct fuel as [|n]; [lia|]. rewrite (Hsent T HT1).
      erewrite run_until_before; [|done|cbn; lia]. eexists. split; [done|].
      split; [done|]. split; [done|]. cbn.
      intros s. destruct (success d) as [s0|]; [|done]. cbn. intros [= <-].
      apply elem_of_add. by right.
    + intros T HT. destruct fuel as [|[|n]]; [lia..|]. rewrite (Hsent T) by lia.
      erewrite run_until_fire; [|done|cbn; lia]. cbn.
      rewrite run_until_empty by done. cbn. eexists. split; [done|]. split; [done|].
      split; [done|]. intros s. destruct (success d) as [s0|]; [|done]. cbn.
      intros [= <-]. rewrite elem_of_remove. tauto.
Qed.

Lemma send_completes_witness :
  let l := Loop 3000 2 [Timer 1 4800 None Hide]
             (Dom [Field "name" true true (units "Ann") (units "Your name") "" 0;
                   Field "email" true true (units "ann@example.org") [] "" 0;
                   Field "search" false false (units "rocq") [] "" 0]
                  (Some (Button false (Some "Submit") (Some "fas fa-paper-plane")))
                  (Some {["form-success"; "show"]}) None) in
  ∃ l', run_until exec 3 4800 (submit l) = Some l'
        ∧ now l' = 4800%N
        ∧ fields (world l')
          = [Field "name" true true (units "Your name") (units "Your name") "" 0;
             Field "email" true true [] [] "" 0;
             Field "search" false false (units "rocq") [] "" 0]
        ∧ btn (world l')
          = Some (Button false (Some "Send Message") (Some "fas fa-paper-plane"))
        ∧ ∃ s, success (world l') = Some s ∧ "show" ∈ s.
Proof.
  intros l.
  assert (acceptable (world l)) as Ha.
  { split.
    - intros f Hf. apply missing_false. revert f Hf. apply valid_missing. reflexivity.
    - intros i e. vm_compute. by intros [= <- <-]. }
  assert (∀ tm, tm ∈ timers l → (t_id tm < fresh l)%nat ∧ t_every tm = None) as Hwf.
  { intros tm Htm%list_elem_of_singleton. subst tm. cbn. split; [lia|done]. }
  assert (length (timers l) + 2 ≤ 3)%nat as Hfuel by (cbn; lia).
  destruct (send_completes l
              (Button false (Some "Submit") (Some "fas fa-paper-plane")) 3
              eq_refl Ha Hwf Hfuel) as (_ & (l' & Hrun & Hnow & Hlen & Hf & Hb & Hs & _) & _).
  exists l'. split; [exact Hrun|]. split; [exact Hnow|]. split; [|split; [exact Hb|]].
  - apply list_eq_same_length with 3%nat; [done|by rewrite Hlen|].
    intros i x y Hi Hx Hy. destruct i as [|[|[|i]]]; [| | |lia].
    + rewrite (Hf 0%nat _ eq_refl) in Hx. cbn in Hx, Hy. congruence.
    + rewrite (Hf 1%nat _ eq_refl) in Hx. cbn in Hx, Hy. congruence.
    + rewrite (Hf 2%nat _ eq_refl) in Hx. cbn in Hx, Hy. congruence.
  - destruct (Hs {["form-success"; "show"]} eq_refl) as (s & Es & Hshow & _).
    by exists s.
Defined.

(** C5 fails as stated when the button's label was not 'Send Message':
    the handler writes that text, not the label the button had. *)
Lemma send_overwrites_label :
  span <$> btn (world (sample "Ann" "ann@example.org" "Hello" "Submit"))
  = Some (Some "Submit")
  ∧ (l' ← run_until exec 2 1800
            (submit (sample "Ann" "ann@example.org" "Hello" "Submit"));
     span <$> btn (world l'))
    = Some (Some "Send Message").
Proof. split; by vm_compute. Qed.

(** A second submission 3 s after the first message appeared: its message
    appears at 6600 and is hidden at 6800 by the first submission's
    timer. *)
Example second_message_hidden_early :
  (fun T =>
     l1 ← run_until exec 4 4800 (submit (sample "Ann" "ann@example.org" "Hello" "Send"));
     l2 ← run_until exec 4 T
            (submit (input 3 (units "Again")
                       (input 1 (units "ann@example.org") (input 0 (units "Ann") l1))));
     s ← success (world l2);
     Some (bool_decide ("show" ∈ s)))
    <$> [6599; 6600; 6799; 6800; 11600]%N
  = [Some true; Some true; Some true; Some false; Some false].
Proof. by vm_compute. Qed.

End ContactFormProps.

Section ContactFormExamples.
Import EventLoop JSString ContactForm.

Example email_shapes :
  Regex.test emailRx ∘ units <$>
    ["foo@bar.com"; "foo@bar"; "a@b.c"; "foo bar@x.y"; "@x.y";
     "a@b@c.d"; "a@.b"; "a@b."; "first.last@sub.example.org"; ""]
  = [true; false; true; false; false; false; false; false; true; false].
Proof. reflexivity. Qed.

(** Code units above U+007F: 'à' (U+00E0) is an ordinary character, an
    em space (U+2003) or a zero-width no-break space (U+FEFF) is white
    space, in an address and for [trim()]. *)
Example email_shapes_unicode :
  Regex.test emailRx <$>
    [[0xE0] ++ units "@b.c"; [0x2003] ++ units "@b.c"; units "a" ++ [0xFEFF] ++ units "@b.c";
     units "a@b." ++ [0x4E2D; 0x56FD]]%N
  = [true; false; false; true].
Proof. reflexivity. Qed.

Example trim_examples :
  trim <$> [units "  hello  "; units "   "; []; units "a b"; [0x2003; 0xFEFF; 0xA0];
            [0x2003] ++ units "x" ++ [0x3000]; [0xE0; 0x20]]%N
  = [units "hello"; []; []; units "a b"; []; units "x"; [0xE0]]%N.
Proof. reflexivity. Qed.

End ContactFormExamples.

Section NavbarMore.
Import PrimFloat Navbar.

Lemma add_add c (m : gset string) : ClassList.add c (ClassList.add c m) = ClassList.add c m.
Proof. unfold ClassList.add. set_solver. Qed.

Lemma add_remove c (m : gset string) :
  ClassList.add c (ClassList.remove c m) = ClassList.add c m.
Proof.
  unfold ClassList.add, ClassList.remove. apply set_eq. intros x.
  destruct (decide (x = c)); set_solver.
Qed.

Lemma remove_add c (m : gset string) :
  ClassList.remove c (ClassList.add c m) = ClassList.remove c m.
Proof. unfold ClassList.add, ClassList.remove. set_solver. Qed.

Lemma remove_remove c (m : gset string) :
  ClassList.remove c (ClassList.remove c m) = ClassList.remove c m.
Proof. unfold ClassList.remove. set_solver. Qed.

Lemma mark_mark c c' l : mark c (mark c' l) = mark c l.
Proof.
  unfold mark.
  destruct (decide (href l = Some ("#" +:+ c'))) as [E'|E']; cbn;
    destruct (decide (href l = Some ("#" +:+ c))) as [E|E];
    by rewrite ?remove_add, ?remove_remove.
Qed.

(** A run of the scroll handler overwrites what an earlier run left: the
    navbar and the links depend on the current scroll position only, not
    on the handler runs that came before (so that runs skipped by the
    debounce lose nothing). *)
Theorem handleScroll_forgets w secs w' secs' p :
  handleScroll w secs (handleScroll w' secs' p) = handleScroll w secs p.
Proof.
  unfold handleScroll, updateActiveNavLink. cbn. f_equal.
  - destruct (60 <? scrollY w)%float, (60 <? scrollY w')%float;
      by rewrite ?remove_add, ?remove_remove, ?add_add, ?add_remove.
  - rewrite <-list_fmap_compose. apply list_fmap_ext. intros i l _. apply mark_mark.
Qed.

(** After the scroll handler the navbar has 'scrolled' exactly when the
    page is scrolled past 60 px, and its other classes are untouched. *)
Theorem handleScroll_scrolled w secs p :
  ("scrolled" ∈ navbar (handleScroll w secs p) ↔ (60 <? scrollY w)%float = true)
  ∧ ∀ c, c ≠ "scrolled" → c ∈ navbar (handleScroll w secs p) ↔ c ∈ navbar p.
Proof.
  unfold handleScroll, ClassList.add, ClassList.remove. cbn.
  destruct (60 <? scrollY w)%float.
  - split; [|set_solver]. split; [done|set_solver].
  - split; [|set_solver]. split; [set_solver|done].
Qed.

Example handleScroll_at_60 :
  (fun y => bool_decide ("scrolled" ∈ navbar (handleScroll (Window y 600) [] (Page ∅ []))))
    <$> [0; 59.5; 60; 60.000000000000007; 61; 1200]%float
  = [false; false; false; true; true; true].
Proof. by vm_compute. Qed.

End NavbarMore.

Section HamburgerMore.
Import Hamburger.

Lemma not_contains_elem c (m : gset string) : ClassList.contains c m = false → c ∉ m.
Proof. unfold ClassList.contains. by case_bool_decide. Qed.

Lemma contains_true_elem c (m : gset string) : ClassList.contains c m = true → c ∈ m.
Proof. unfold ClassList.contains. by case_bool_decide. Qed.

Lemma add_remove_elem c (m : gset string) :
  c ∈ m → ClassList.add c (ClassList.remove c m) = m.
Proof.
  intros H. unfold ClassList.add, ClassList.remove. apply set_eq. intros x.
  destruct (decide (x = c)); set_solver.
Qed.

Lemma in_sync_step p ev : in_sync p → in_sync (step p ev).
Proof.
  intros (b & m & Hb & Hm & Hbm & Ho). destruct ev as [| |w]; unfold step.
  - unfold click. rewrite Hb, Hm.
    destruct (ClassList.contains "open" m) eqn:E.
    + rewrite toggle_open_opened by by apply contains_true_elem.
      eexists _, _. split; [done|]. split; [done|]. cbn.
      unfold ClassList.remove. split; [set_solver|].
      rewrite contains_not_elem by set_solver. done.
    + rewrite toggle_open_closed by by apply not_contains_elem.
      eexists _, _. split; [done|]. split; [done|]. cbn.
      unfold ClassList.add. split; [set_solver|].
      rewrite contains_elem by set_solver. done.
  - unfold link_click. rewrite Hb, Hm. eexists _, _.
    split; [done|]. split; [done|]. unfold ClassList.remove.
    split; [set_solver|]. rewrite contains_not_elem by set_solver. done.
  - unfold resize. cbn. destruct (768 <? w)%Z.
    + rewrite Hm. destruct (ClassList.contains "open" m) eqn:E.
      * rewrite Hb. eexists _, _. split; [done|]. split; [done|]. cbn.
        unfold ClassList.remove. split; [set_solver|].
        rewrite contains_not_elem by set_solver. done.
      * exists b, m. cbn. by rewrite E.
    + exists b, m. done.
Qed.

(** Once the page has the hamburger and the menu, every hamburger click
    and every mobile-link click leaves button, menu and body in agreement
    (button open iff menu open, body overflow 'hidden' iff open), and no
    later clicks or resizes break it. *)
Theorem menu_stays_in_sync (b : button) (m : gset string) (o : string) (w : Z)
    (evs : list event) :
  in_sync (run evs (click (Page (Some b) (Some m) o w)))
  ∧ in_sync (run evs (link_click (Page (Some b) (Some m) o w))).
Proof.
  assert (∀ p, in_sync p → in_sync (run evs p)) as Hrun.
  { unfold run. induction evs as [|ev evs IH]; intros p Hp; [done|].
    cbn. by apply IH, in_sync_step. }
  split; apply Hrun.
  - unfold click. cbn. destruct (ClassList.contains "open" m) eqn:E.
    + rewrite toggle_open_opened by by apply contains_true_elem.
      eexists _, _. split; [done|]. split; [done|]. cbn.
      unfold ClassList.remove. split; [set_solver|].
      rewrite contains_not_elem by set_solver. done.
    + rewrite toggle_open_closed by by apply not_contains_elem.
      eexists _, _. split; [done|]. split; [done|]. cbn.
      unfold ClassList.add. split; [set_solver|].
      rewrite contains_elem by set_solver. done.
  - unfold link_click. cbn. eexists _, _. split; [done|]. split; [done|].
    unfold ClassList.remove. split; [set_solver|].
    rewrite contains_not_elem by set_solver. done.
Qed.

(** On a page where button, menu, body and aria-expanded agree, two
    hamburger clicks in a row give back the very same page. *)
Theorem click_twice p : in_sync p → aria_in_sync p → click (click p) = p.
Proof.
  intros (b & m & Hb & Hm & Hbm & Ho) (b' & m' & Hb' & Hm' & Ha).
  rewrite Hb in Hb'. rewrite Hm in Hm'.
  injection Hb' as <-. injection Hm' as <-.
  destruct p as [pb pm po pw]. cbn in *. subst pb pm po.
  destruct b as [cl aria]. cbn in *. subst aria.
  unfold click. cbn. destruct (ClassList.contains "open" m) eqn:E.
  - apply contains_true_elem in E. rewrite toggle_open_opened by done. cbn.
    rewrite toggle_open_closed by (unfold ClassList.remove; set_solver). cbn.
    by rewrite !add_remove_elem by tauto.
  - apply not_contains_elem in E. rewrite toggle_open_closed by done. cbn.
    rewrite toggle_open_opened by (unfold ClassList.add; set_solver). cbn.
    by rewrite !add_remove_fresh by tauto.
Qed.

Lemma click_twice_witness :
  click (click (Page (Some (Button {["hamburger"]} (Some "false")))
                     (Some {["mobile-menu"]}) "" 390))
  = Page (Some (Button {["hamburger"]} (Some "false"))) (Some {["mobile-menu"]}) "" 390.
Proof.
  apply click_twice.
  - exists (Button {["hamburger"]} (Some "false")), {["mobile-menu"]}.
    split; [reflexivity|]. split; [reflexivity|]. split; [|reflexivity].
    split; intros H; exfalso; revert H; by vm_compute.
  - exists (Button {["hamburger"]} (Some "false")), {["mobile-menu"]}.
    split; [reflexivity|]. split; reflexivity.
Defined.

Lemma aria_in_sync_step p ev :
  (ev = Click ∨ ev = LinkClick) →
  (∃ b m, btn p = Some b ∧ menu p = Some m) → aria_in_sync (step p ev).
Proof.
  intros Hev (b & m & Hb & Hm). destruct Hev as [-> | ->]; unfold step.
  - unfold click. rewrite Hb, Hm. destruct (ClassList.contains "open" m) eqn:E.
    + rewrite toggle_open_opened by by apply contains_true_elem.
      eexists _, _. split; [done|]. split; [done|]. cbn.
      rewrite contains_not_elem by (unfold ClassList.remove; set_solver). done.
    + rewrite toggle_open_closed by by apply not_contains_elem.
      eexists _, _. split; [done|]. split; [done|]. cbn.
      rewrite contains_elem by (unfold ClassList.add; set_solver). done.
  - unfold link_click. rewrite Hb, Hm. eexists _, _.
    split; [done|]. split; [done|]. cbn.
    rewrite contains_not_elem by (unfold ClassList.remove; set_solver). done.
Qed.

(** As long as the menu is only operated by hamburger and mobile-link
    clicks (no resize closes it), aria-expanded is 'true' exactly when the
    menu is open. *)
Theorem aria_in_sync_by_clicks (b : button) (m : gset string) (o : string) (w : Z)
    (evs : list event) :
  evs ≠ [] →
  Forall (fun ev => ev = Click ∨ ev = LinkClick) evs →
  aria_in_sync (run evs (Page (Some b) (Some m) o w)).
Proof.
  intros Hne Hevs. induction evs as [|ev evs IH] using rev_ind; [done|].
  apply Forall_app in Hevs as [Hevs Hev]. apply Forall_cons in Hev as [Hev _].
  unfold run. rewrite fold_left_app. cbn [fold_left].
  apply aria_in_sync_step; [exact Hev|].
  clear IH Hne Hev. fold (run evs (Page (Some b) (Some m) o w)).
  revert b m o. induction evs as [|e evs IH]; intros b m o; [by exists b, m|].
  apply Forall_cons in Hevs as [He Hevs]. cbn.
  destruct He as [-> | ->]; cbn.
  - unfold click. cbn. destruct (ClassList.toggle "open" m) as [isOpen m'].
    by apply IH.
  - unfold link_click. cbn. by apply IH.
Qed.

Lemma aria_in_sync_by_clicks_witness :
  aria_in_sync (run [Click; Click; Click; LinkClick]
                  (Page (Some (Button {["hamburger"]} None))
                        (Some {["mobile-menu"]}) "" 390)).
Proof.
  apply aria_in_sync_by_clicks.
  - discriminate.
  - repeat (constructor; [by (left + right)|]). constructor.
Defined.

End HamburgerMore.

Section DebounceMore.
Import EventLoop Debounce.
Context {A U : Type}.
Variable fn : A → U → U.
Variable delay : N.

Local Abbreviation loop := (EventLoop.loop (@task A U) (@env A U)).

(** When every next invocation comes no sooner than [delay] after the
    previous one, the pending execution runs before it. *)
Lemma invoke_spaced fuel invs : ∀ (l : loop) a T,
  Debounce.armed fn delay (now l) a l →
  (1 ≤ fuel)%nat →
  Forall (fun i => (delay ≤ i.1)%N) invs →
  (last_time (now l) invs + delay ≤ T)%N →
  ∃ l1 l', invoke (debounce fn delay) fuel invs l = Some l1
        ∧ run_until exec fuel T l1 = Some l'
        ∧ timers l' = []
        ∧ page (world l') = apply_all fn invs (fn a (page (world l)))
        ∧ calls (world l')
          = calls (world l) ++ ((now l + delay)%N, a) :: schedule delay (now l) invs.
Proof.
  induction invs as [|[gap b] invs IH]; intros l a T (id & Et & Ev) Hfuel Hgaps HT.
  { exists l. cbn in HT. destruct fuel as [|fuel']; [lia|].
    rewrite (run_until_fire _ _ _ _ _ _ _ Et) by done. cbn [exec world now timers fresh].
    rewrite run_until_empty by done. cbn [now fresh world timers invoke].
    rewrite (N.max_r (now l)) by lia.
    eexists. split; [reflexivity|]. split; [reflexivity|]. by cbn. }
  apply Forall_cons in Hgaps as [Hgap Hgaps]. cbn in Hgap.
  cbn [invoke]. destruct fuel as [|fuel']; [lia|].
  rewrite (run_until_fire _ _ _ _ _ _ _ Et) by lia. cbn [exec world now timers fresh].
  rewrite run_until_empty by done. cbn [now fresh world timers].
  rewrite (N.max_r (now l)), N.max_r by lia.
  set (l1 := Loop _ _ _ _).
  assert (Debounce.armed fn delay (now l1) b (debounce fn delay b l1)
          ∧ now (debounce fn delay b l1) = now l1
          ∧ page (world (debounce fn delay b l1)) = page (world l1)
          ∧ calls (world (debounce fn delay b l1)) = calls (world l1))
    as (Harm1 & Hnow1 & Hp1 & Hc1).
  { unfold debounce, Debounce.armed. subst l1. cbn. rewrite Ev. cbn.
    split; [eauto|repeat split]. }
  destruct (IH (debounce fn delay b l1) b T) as (l2 & l' & Hinv & Hrun & Htm & Hp & Hc);
    [by rewrite Hnow1|lia|done|by rewrite Hnow1|].
  exists l2, l'. split; [done|]. split; [done|]. split; [done|].
  rewrite Hp, Hc, Hp1, Hc1, Hnow1. subst l1. cbn. by rewrite <-app_assoc.
Qed.

(** Invocations of the debounced wrapper that are each at least [delay]
    after the previous one are all executed: the callback runs once per
    invocation, [delay] after it, in order and with its arguments. *)
Theorem debounce_spaced_runs_all
    (t0 : N) (h0 : nat) (u0 : U) (gap1 : N) (a1 : A) (rest : list (N * A))
    (fuel : nat) (T : N) :
  Forall (fun i => (delay ≤ i.1)%N) rest →
  (1 ≤ fuel)%nat →
  (last_time t0 ((gap1, a1) :: rest) + delay ≤ T)%N →
  ∃ l l' : loop,
    invoke (debounce fn delay) fuel ((gap1, a1) :: rest) (init t0 h0 u0) = Some l
    ∧ run_until exec fuel T l = Some l'
    ∧ timers l' = []
    ∧ calls (world l') = schedule delay t0 ((gap1, a1) :: rest)
    ∧ page (world l') = apply_all fn ((gap1, a1) :: rest) u0.
Proof.
  intros Hgaps Hfuel HT. cbn [invoke].
  rewrite run_until_empty by done. set (l0 := Loop _ _ _ _).
  assert (Debounce.armed fn delay (t0 + gap1) a1 (debounce fn delay a1 l0)
          ∧ now (debounce fn delay a1 l0) = (t0 + gap1)%N
          ∧ page (world (debounce fn delay a1 l0)) = u0
          ∧ calls (world (debounce fn delay a1 l0)) = [])
    as (Harm & Hnow & Hp & Hc).
  { unfold debounce, Debounce.armed. subst l0. cbn.
    rewrite N.max_r by lia. split; [eauto|repeat split]. }
  destruct (invoke_spaced fuel rest (debounce fn delay a1 l0) a1 T)
    as (l & l' & Hinv & Hrun & Htm & Hp' & Hc'); [|done|done| |].
  - by rewrite Hnow.
  - by rewrite Hnow.
  - exists l, l'. split; [done|]. split; [done|]. split; [done|].
    rewrite Hc', Hp', Hc, Hp, Hnow. done.
Qed.

End DebounceMore.

Section DebounceMoreExamples.
Import EventLoop Debounce.

Lemma debounce_spaced_runs_all_witness :
  ∃ l l' : loop (@task nat (list nat)) (@env nat (list nat)),
    invoke (debounce cons 20) 1 [(5%N, 1%nat); (20%N, 2%nat); (35%N, 3%nat)]
      (init 0 0 []) = Some l
    ∧ run_until exec 1 80 l = Some l'
    ∧ timers l' = []
    ∧ calls (world l') = [(25%N, 1%nat); (45%N, 2%nat); (80%N, 3%nat)]
    ∧ page (world l') = [3%nat; 2%nat; 1%nat].
Proof.
  apply (debounce_spaced_runs_all cons 20 0 0 [] 5 1%nat
           [(20%N, 2%nat); (35%N, 3%nat)] 1 80).
  - repeat constructor; cbn; lia.
  - lia.
  - cbn. lia.
Defined.

End DebounceMoreExamples.

Section ContactFormMore.
Import EventLoop JSString ContactForm.

Local Abbreviation loop := (EventLoop.loop task dom).

(** On a page without [#submitBtn] the handler never starts a send: no
    timer is scheduled, and a valid submission changes nothing at all (the
    handler stops at [btn.querySelector]). *)
Theorem submit_without_button (l : loop) :
  btn (world l) = None →
  timers (submit l) = timers l
  ∧ (acceptable (world l) → submit l = l).
Proof.
  intros Hb.
  assert (send l = l) as Hsend by (unfold send; by rewrite Hb).
  split.
  - destruct (submit_cases l) as [[_ ->]|[(_ & i & e & _ & _ & ->)|(_ & _ & ->)]];
      [done|done|by rewrite Hsend].
  - intros Ha. by rewrite (acceptable_submit l Ha).
Qed.

Lemma submit_without_button_witness :
  timers (submit (Loop 0 0 [] (Dom [Field "email" true true (units "a@b.c") [] "" 0]
                                   None None None)))
  = [].
Proof.
  exact (proj1 (submit_without_button
                  (Loop 0 0 [] (Dom [Field "email" true true (units "a@b.c") [] "" 0]
                                    None None None)) eq_refl)).
Defined.

(** The script clears an invalid border only through the one-shot input
    listener that the check for empty fields installs; the check of the
    address installs none.  So an email field flagged for a badly formed
    address while no such listener is pending on it keeps the border colour
    'rgba(252, 90, 90, 0.7)' when a corrected address is typed, through the
    successful send that follows, and after the reset of the form. *)
Theorem email_border_sticks (l : loop) (b : button) i e v (fuel : nat) (T : N) :
  timers l = [] →
  btn (world l) = Some b →
  (∀ f, f ∈ fields (world l) → missing f = false) →
  emailEl (world l) = Some (i, e) →
  Regex.test emailRx (value e) = false →
  onInput e = 0%nat →
  acceptable (world (input i v (submit l))) →
  (2 ≤ fuel)%nat →
  (now l + 1800 ≤ T < now l + 6800)%N →
  ∃ l',
    fields (world (submit l)) !! i
    = Some (Field (id e) (inForm e) (required e) (value e) (defaultValue e)
                  "rgba(252, 90, 90, 0.7)" 0)
    ∧ fields (world (input i v (submit l))) !! i
      = Some (Field (id e) (inForm e) (required e) v (defaultValue e)
                    "rgba(252, 90, 90, 0.7)" 0)
    ∧ run_until exec fuel T (submit (input i v (submit l))) = Some l'
    ∧ fields (world l') !! i
      = Some (Field (id e) (inForm e) (required e)
                    (if inForm e then defaultValue e else v) (defaultValue e)
                    "rgba(252, 90, 90, 0.7)" 0)
    ∧ btn (world l')
      = Some (Button false
                (match span b with Some _ => Some "Send Message" | None => None end)
                (match icon b with Some _ => Some "fas fa-paper-plane" | None => None end)).
Proof.
  intros Et Hb Hall He Ht Hon Hacc Hfuel HT.
  destruct (submit_cases l) as
    [[(f & Hf & Hm) _]|[(_ & i' & e' & He' & _ & E)|(_ & Hmail & _)]].
  { by rewrite (Hall f Hf) in Hm. }
  2: { by rewrite (Hmail i e He) in Ht. }
  rewrite He in He'. injection He' as <- <-.
  pose proof He as (Hi & _)%list_find_Some.
  assert (i < length (fields (world l)))%nat as Hlt by by eapply lookup_lt_Some.
  rewrite E in *. cbn [world fields] in *.
  rewrite list_lookup_insert_eq by done.
  set (l2 := input i v _) in *.
  rewrite (acceptable_submit l2 Hacc).
  assert (btn (world l2) = Some b) as Hb2 by done.
  assert (timers l2 = []) as Et2 by done.
  assert (fields (world l2) !! i
          = Some (Field (id e) (inForm e) (required e) v (defaultValue e) invalid 0)) as Hf2.
  { subst l2. cbn. rewrite list_lookup_alter_eq, list_lookup_insert_eq by done.
    cbn. by rewrite Hon. }
  rewrite (send_sending l2 b Hb2), Et2. cbn [app].
  destruct fuel as [|n]; [lia|].
  erewrite run_until_fire; [|done|cbn; subst l2; cbn; lia].
  cbn [exec now fresh timers world with_world setTimeout snd].
  erewrite run_until_before; [|done|cbn; subst l2; cbn; lia].
  eexists. split; [unfold set_border; by rewrite Hon|]. split; [exact Hf2|].
  split; [done|].
  cbn [world fields btn fmap option_fmap option_map].
  rewrite list_lookup_fmap, Hf2. cbn. unfold reset. cbn.
  split; [by destruct (inForm e)|]. by rewrite restored_busy.
Qed.

Lemma email_border_sticks_witness :
  ∃ l',
    fields (world (submit (sample "Ann" "ann@example" "Hello" "Send Message")))
      !! 1%nat
    = Some (Field "email" true true (units "ann@example") []
                  "rgba(252, 90, 90, 0.7)" 0)
    ∧ fields (world (input 1 (units "ann@example.org")
                       (submit (sample "Ann" "ann@example" "Hello" "Send Message"))))
        !! 1%nat
      = Some (Field "email" true true (units "ann@example.org") []
                    "rgba(252, 90, 90, 0.7)" 0)
    ∧ run_until exec 2 1800
        (submit (input 1 (units "ann@example.org")
                   (submit (sample "Ann" "ann@example" "Hello" "Send Message"))))
      = Some l'
    ∧ fields (world l') !! 1%nat
      = Some (Field "email" true true [] [] "rgba(252, 90, 90, 0.7)" 0)
    ∧ btn (world l')
      = Some (Button false (Some "Send Message") (Some "fas fa-paper-plane")).
Proof.
  apply (email_border_sticks (sample "Ann" "ann@example" "Hello" "Send Message")
           (Button false (Some "Send Message") (Some "fas fa-paper-plane"))
           1 (Field "email" true true (units "ann@example") [] "" 0)
           (units "ann@example.org") 2 1800).
  - reflexivity.
  - reflexivity.
  - apply valid_missing. reflexivity.
  - reflexivity.
  - reflexivity.
  - reflexivity.
  - split.
    + intros f Hf. apply missing_false. revert f Hf. apply valid_missing. reflexivity.
    + intros i e. vm_compute. by intros [= <- <-].
  - lia.
  - cbn. lia.
Defined.

(** A later submit with the field empty does install the listener, and
    the next input then clears the border. *)
Example border_cleared_after_empty_submit :
  (λ l, (λ f, (borderColor f, onInput f)) <$> fields (world l) !! 1%nat)
    <$> [submit (sample "Ann" "ann@example" "Hello" "Send Message");
         input 1 [] (submit (sample "Ann" "ann@example" "Hello" "Send Message"));
         submit (input 1 []
                   (submit (sample "Ann" "ann@example" "Hello" "Send Message")));
         input 1 (units "a")
           (submit (input 1 []
                      (submit (sample "Ann" "ann@example" "Hello" "Send Message"))))]
  = [Some ("rgba(252, 90, 90, 0.7)", 0%nat); Some ("rgba(252, 90, 90, 0.7)", 0%nat);
     Some ("rgba(252, 90, 90, 0.7)", 1%nat); Some ("", 0%nat)].
Proof. by vm_compute. Qed.

End ContactFormMore.

Section TypingMore.
Import EventLoop Typing.
Variable words : list string.

Local Abbreviation exec := (Typing.exec words).

(** From a pending first tick on word [i], the words from [i] to the end
    of the list are typed and deleted one after the other. *)
Lemma typing_rest ws : ∀ i nw h id t txt log,
  skipn i words = ws → ws ≠ [] →
  Forall (fun w => w ≠ "") ws →
  (nw ≤ t)%N →
  ∃ nw' h' id',
    (nw' ≤ t + pass_time ws)%N
    ∧ run_steps exec (pass_steps ws)
        (Loop nw h [Timer id t None Tick] (Env txt i 0 false false log))
      = Loop nw' h' [Timer id' (t + pass_time ws) None Tick]
          (Env "" 0 0 false false (log ++ pass_log t ws)).
Proof.
  induction ws as [|w ws IH]; intros i nw h id t txt log Hdrop Hne Hall Hnw; [done|].
  apply Forall_cons in Hall as [Hw Hall].
  assert (words !! i = Some w) as Hi.
  { rewrite <-(Nat.add_0_r i), <-lookup_drop, Hdrop. done. }
  assert (skipn (S i) words = ws) as Hdrop'.
  { rewrite (drop_S _ _ _ Hi) in Hdrop. by injection Hdrop. }
  cbn [pass_steps pass_time pass_log fold_right].
  fold (pass_steps ws). fold (pass_time ws).
  rewrite run_steps_add.
  destruct (typing_cycle words i w nw h id t txt log) as (nw1 & h1 & id1 & Hnw1 & ->);
    [done..|].
  destruct ws as [|w' ws'].
  - exists nw1, h1, id1. cbn. rewrite N.add_0_r, app_nil_r. split; [done|].
    assert (length words = S i) as Hlen.
    { apply (f_equal length) in Hdrop'. rewrite length_drop in Hdrop'. cbn in Hdrop'.
      apply lookup_lt_Some in Hi. lia. }
    replace (i + 1)%nat with (S i) by lia. by rewrite Hlen, Nat.Div0.mod_same.
  - assert (S i < length words)%nat as Hlt.
    { apply (f_equal length) in Hdrop'. rewrite length_drop in Hdrop'. cbn in Hdrop'. lia. }
    replace ((i + 1) mod length words)%nat with (S i)
      by (rewrite Nat.mod_small; lia).
    destruct (IH (S i) nw1 h1 id1 (t + cycle_time w)%N "" (log ++ cycle_log t w))
      as (nw2 & h2 & id2 & Hnw2 & ->); [done..|].
    exists nw2, h2, id2. split; [lia|].
    rewrite <-app_assoc, N.add_assoc. done.
Qed.

(** With only non-empty words in the list, the effect types and deletes
    every word in list order, each in its own cycle: after its [j]-th firing
    the element shows the [j]-th text of the pass, written at the time given
    with it; and after the last word it is back at the first with the next
    tick pending. *)
Theorem typing_full_pass (hero : string) (t0 : N) :
  words ≠ [] →
  Forall (fun w => w ≠ "") words →
  (∃ nw h id,
     run_steps exec (pass_steps words) (initTypingEffect (Some hero) t0)
     = Loop nw h [Timer id (t0 + 1200 + pass_time words) None Tick]
         (Env "" 0 0 false false (pass_log (t0 + 1200) words)))
  ∧ ∀ j, (1 ≤ j ≤ pass_steps words)%nat →
      pass_log (t0 + 1200) words !! (j - 1)%nat
      = Some (now (run_steps exec j (initTypingEffect (Some hero) t0)),
              textContent (world (run_steps exec j (initTypingEffect (Some hero) t0)))).
Proof.
  intros Hne Hall.
  destruct (typing_rest words 0 t0 1%nat 0%nat (t0 + 1200)%N "" [])
    as (nw & h & id & _ & E); [done|done|done|lia|].
  split; [by exists nw, h, id|].
  apply display_follows_log; [|apply length_pass_log].
  unfold initTypingEffect, setTimeout. cbn [snd now fresh timers world app].
  by rewrite E.
Qed.

Lemma tick_empty_word nw h id t i c txt log :
  (nw ≤ t)%N → words !! i = Some "" →
  run_steps exec 1
    (Loop nw h [Timer id t None Tick] (Env txt i (Z.of_nat c) false false log))
  = Loop t (S h) [Timer h (t + 95) None Tick]
      (Env "" i (Z.of_nat (S c)) false false (log ++ [(t, "")])).
Proof.
  intros Hnw Hw. rewrite (run_steps_timeout _ _ id t Tick) by done.
  unfold Typing.exec, tick. cbn [world wordIdx deleting negb charIdx shown now paused].
  rewrite Hw. replace (Z.of_nat c + 1)%Z with (Z.of_nat (S c)) by lia.
  replace (Z.of_nat (S c) =? Z.of_nat (String.length ""))%Z with false
    by (symmetry; apply Z.eqb_neq; cbn; lia).
  unfold setTimeout, with_world. cbn [snd now fresh timers world app negb].
  rewrite N.max_r by done.
  assert (∀ n, String.substring 0 n "" = "") as Hsub by (by intros []).
  unfold slice0. by rewrite Hsub.
Qed.

Lemma stall_steps i (Hw : words !! i = Some "") m : ∀ c nw h id t txt log,
  (nw ≤ t)%N →
  ∃ nw' h' id',
    run_steps exec (S m)
      (Loop nw h [Timer id t None Tick] (Env txt i (Z.of_nat c) false false log))
    = Loop nw' h' [Timer id' (t + 95 * N.of_nat (S m)) None Tick]
        (Env "" i (Z.of_nat (c + S m)) false false
             (log ++ imap (fun k _ => ((t + 95 * N.of_nat k)%N, "")) (replicate (S m) tt)))
    ∧ (nw' ≤ t + 95 * N.of_nat (S m))%N.
Proof.
  induction m as [|m IH]; intros c nw h id t txt log Hnw.
  - rewrite tick_empty_word by done. exists t, (S h), h.
    replace (c + 1)%nat with (S c) by lia. cbn [replicate imap].
    rewrite N.mul_0_r, N.add_0_r. split; [done|lia].
  - rewrite run_steps_S, tick_empty_word by done.
    destruct (IH (S c) t (S h) h (t + 95)%N "" (log ++ [(t, "")]))
      as (nw' & h' & id' & E & Hnw'); [lia|].
    rewrite E. exists nw', h', id'.
    replace (t + 95 + 95 * N.of_nat (S m))%N with (t + 95 * N.of_nat (S (S m)))%N by lia.
    replace (S c + S m)%nat with (c + S (S m))%nat by lia.
    split; [|lia]. rewrite <-app_assoc. do 3 f_equal.
    change (replicate (S (S m)) tt) with (tt :: replicate (S m) tt).
    rewrite imap_cons. cbn [app]. rewrite N.mul_0_r, N.add_0_r. f_equal.
    apply imap_ext. intros k [] _. cbn. f_equal. lia.
Qed.

(** A word that is the empty string is never finished: from the pending
    first tick on it, a tick runs every 95 ms for ever, each writes the
    empty text, the character index grows by one each time and the word
    index never moves on. *)
Theorem typing_stalls_on_empty_word i nw h id t txt log (m : nat) :
  words !! i = Some "" →
  (nw ≤ t)%N →
  ∃ nw' h' id',
    run_steps exec (S m)
      (Loop nw h [Timer id t None Tick] (Env txt i 0 false false log))
    = Loop nw' h' [Timer id' (t + 95 * N.of_nat (S m)) None Tick]
        (Env "" i (Z.of_nat (S m)) false false
             (log ++ imap (fun k _ => ((t + 95 * N.of_nat k)%N, "")) (replicate (S m) tt))).
Proof.
  intros Hw Hnw.
  destruct (stall_steps i Hw m 0 nw h id t txt log Hnw) as (nw' & h' & id' & E & _).
  exists nw', h', id'. exact E.
Qed.

End TypingMore.

Section TypingMoreExamples.
Import EventLoop Typing.

Lemma typing_full_pass_witness :
  (∃ nw h id,
     run_steps (exec words) 146 (initTypingEffect (Some "") 0)
     = Loop nw h [Timer id 19930 None Tick]
         (Env "" 0 0 false false (pass_log 1200 words)))
  ∧ ∀ j, (1 ≤ j ≤ 146)%nat →
      pass_log 1200 words !! (j - 1)%nat
      = Some (now (run_steps (exec words) j (initTypingEffect (Some "") 0)),
              textContent (world (run_steps (exec words) j
                                    (initTypingEffect (Some "") 0)))).
Proof.
  apply (typing_full_pass words "" 0).
  - discriminate.
  - unfold words. repeat (constructor; [discriminate|]). constructor.
Defined.

Example pass_log_starts :
  take 3 (pass_log 1200 words) = [(1200, "S"); (1295, "So"); (1390, "Sof")]%N
  ∧ (λ j, pass_log 1200 words !! j) <$> [17; 18; 35; 36; 145]%nat
    = [Some (2815, "Software Developer"); Some (4815, "Software Develope");
       Some (5750, ""); Some (5845, "A"); Some (19835, "")]%N.
Proof. split; reflexivity. Qed.

Lemma typing_stalls_on_empty_word_witness :
  ∃ nw h id,
    run_steps (exec ["Developer"; ""; "Designer"]) 3
      (Loop 0 1 [Timer 0 1200 None Tick] (Env "" 1 0 false false []))
    = Loop nw h [Timer id 1485 None Tick]
        (Env "" 1 3 false false [(1200, ""); (1295, ""); (1390, "")]%N).
Proof.
  apply (typing_stalls_on_empty_word ["Developer"; ""; "Designer"] 1 0 1 0 1200 "" [] 2).
  - reflexivity.
  - lia.
Defined.

End TypingMoreExamples.

Section CounterMore.
Import EventLoop Observer Counters.

Local Abbreviation loop := (EventLoop.loop task env).

Lemma pretty_N_char_digit r :
  (r < 10)%N →
  is_digit (pretty_N_char r) = true ∧ (N_of_ascii (pretty_N_char r) - 48 = r)%N.
Proof.
  intros Hr. rewrite <-(N2Nat.id r).
  assert (N.to_nat r < 10)%nat as Hn by lia. revert Hn.
  generalize (N.to_nat r). intros n Hn.
  do 10 (destruct n as [|n]; [split; reflexivity|]). lia.
Qed.

Lemma parse_pretty_go x : ∀ s acc,
  (0 < x)%N → default 0%N acc = 0%N →
  parse_digits (pretty_N_go x s) acc = parse_digits s (Some x).
Proof.
  induction (N.lt_wf_0 x) as [x _ IH]. intros s acc Hx Hacc.
  rewrite pretty_N_go_step by done.
  destruct (pretty_N_char_digit (x mod 10)) as [Hd Hv]; [apply N.mod_lt; lia|].
  pose proof (N.div_mod x 10) as Hdm.
  destruct (decide (x / 10 = 0)%N) as [E|E].
  - rewrite E, pretty_N_go_0. cbn [parse_digits]. rewrite Hd, Hv, Hacc.
    do 2 f_equal. lia.
  - rewrite (IH (x / 10)%N) with (acc := acc);
      [|apply N.div_lt; lia|by apply N.neq_0_lt_0|done].
    cbn [parse_digits]. rewrite Hd, Hv. cbn [from_option id]. do 2 f_equal. lia.
Qed.

Lemma keep_pretty_go (p : ascii → bool) b x : ∀ s,
  (∀ r, (r < 10)%N → p (pretty_N_char r) = b) →
  keep p (pretty_N_go x s)
  = if b then pretty_N_go x (keep p s) else keep p s.
Proof.
  induction (N.lt_wf_0 x) as [x _ IH]. intros s Hp.
  destruct (decide (0 < x)%N) as [Hx|Hx].
  - rewrite pretty_N_go_step by done.
    rewrite IH by (done || apply N.div_lt; lia). cbn [keep].
    rewrite Hp by (apply N.mod_lt; lia).
    destruct b; [|done]. by rewrite <-pretty_N_go_step.
  - replace x with 0%N by lia. rewrite !pretty_N_go_0. by destruct b.
Qed.

Lemma pretty_go_app x : ∀ s t, pretty_N_go x s +:+ t = pretty_N_go x (s +:+ t).
Proof.
  induction (N.lt_wf_0 x) as [x _ IH]. intros s t.
  destruct (decide (0 < x)%N) as [Hx|Hx].
  - rewrite (pretty_N_go_step x s), (pretty_N_go_step x (s +:+ t)) by done.
    rewrite IH; [reflexivity|]. apply N.div_lt; lia.
  - replace x with 0%N by lia. by rewrite !pretty_N_go_0.
Qed.

Lemma keep_digit_free s :
  keep is_digit s = "" → keep (fun c => negb (is_digit c)) s = s.
Proof.
  induction s as [|c s IH]; [done|]. cbn. destruct (is_digit c); [done|].
  cbn. intros H. by rewrite IH.
Qed.

(** A text made of the decimal numeral of [n] and a digit-free suffix is
    split by the two [replace] calls into that numeral and that suffix, and
    [parseInt] reads the Number of [n]. *)
Lemma split_numeral n sfx :
  n ≠ 0%N → keep is_digit sfx = "" →
  parseInt (keep is_digit (pretty n +:+ sfx)) = Some (toNumber n)
  ∧ keep (fun c => negb (is_digit c)) (pretty n +:+ sfx) = sfx.
Proof.
  intros Hn Hs. unfold pretty, pretty_N. rewrite decide_False by done.
  rewrite pretty_go_app. change ("" +:+ sfx) with sfx. split.
  - rewrite (keep_pretty_go _ true) by (intros r Hr; apply pretty_N_char_digit, Hr).
    rewrite Hs. unfold parseInt. rewrite parse_pretty_go by (done || lia). done.
  - rewrite (keep_pretty_go _ false).
    + by apply keep_digit_free.
    + intros r Hr. by rewrite (proj1 (pretty_N_char_digit r Hr)).
Qed.

Lemma ticks_bounds n :
  n ≠ 0%N →
  (1 ≤ ticks (ceil_div n 35) n ≤ 35)%nat
  ∧ ((n ≤ 35)%N → ticks (ceil_div n 35) n = N.to_nat n)
  ∧ (∀ m, n = (35 * m)%N → ticks (ceil_div n 35) n = 35%nat)
  ∧ (N.of_nat (ticks (ceil_div n 35) n - 1) * ceil_div n 35 < n
     ≤ N.of_nat (S (ticks (ceil_div n 35) n - 1)) * ceil_div n 35)%N.
Proof.
  intros Hn.
  destruct (ceil_div_bounds n 35) as (Hs1 & Hslo & Hshi); [lia..|].
  destruct (ceil_div_bounds n (ceil_div n 35)) as (HK1 & HKlo & HKhi); [lia..|].
  unfold ticks. revert Hs1 Hslo Hshi HK1 HKlo HKhi.
  generalize (ceil_div n (ceil_div n 35)). generalize (ceil_div n 35).
  intros s K Hs1 Hslo Hshi HK1 HKlo HKhi.
  split; [nia|]. split; [|split].
  - intros H35. assert (s = 1%N) as -> by nia. nia.
  - intros m ->. assert (s = m) as -> by nia. nia.
  - replace (N.of_nat (N.to_nat K - 1)) with (K - 1)%N by lia.
    replace (N.of_nat (S (N.to_nat K - 1))) with K by lia. done.
Qed.

(** The animation towards a target below 2^53 is over after at most 35
    ticks, so within 1330 ms: the number of ticks is between 1 and 35, it
    is [n] itself for a target up to 35 and 35 for a multiple of 35; with
    no other timer pending, 35 firings after the start nothing is pending,
    no more than 1330 ms have passed, and the element shows the target
    before the non-digits of the original text.  (From 2^53 on the sums
    round and 35 ticks need not be enough, see [counter_beyond_2_53].) *)
Theorem counter_within_35_ticks (l : loop) el t n :
  timers l = [] →
  texts (world l) !! el = Some t →
  parseInt (keep is_digit t) = Some (Fin n) → n ≠ 0%N → (n < 2 ^ 53)%N →
  let K := ticks (ceil_div n 35) n in
  let l' := run_steps exec 35 (on_entry l (Entry el true)) in
  (1 ≤ K ≤ 35)%nat
  ∧ ((n ≤ 35)%N → K = N.to_nat n)
  ∧ (∀ m, n = (35 * m)%N → K = 35%nat)
  ∧ timers l' = []
  ∧ now l' = (now l + 38 * N.of_nat K)%N
  ∧ (now l' ≤ now l + 1330)%N
  ∧ texts (world l') !! el
    = Some (pretty n +:+ keep (fun c => negb (is_digit c)) t).
Proof.
  intros Et Ht Hn Hn0 Hn53 K l'.
  destruct (ticks_bounds n Hn0) as (HK & Hsmall & Hmult & Hlast). fold K in HK, Hsmall, Hmult, Hlast.
  split; [done|]. split; [done|]. split; [done|].
  destruct (counter_last_tick l el t n (K - 1) Et Ht Hn Hn0 Hn53 Hlast) as (Hnow & Htm & Htx).
  replace (S (K - 1)) with K in * by lia.
  assert (l' = run_steps exec K (on_entry l (Entry el true))) as ->.
  { subst l'. replace 35%nat with (K + (35 - K))%nat by lia.
    rewrite run_steps_add. apply run_steps_idle. by rewrite Htm. }
  split; [done|]. split; [done|]. split; [lia|done].
Qed.

Lemma counter_within_35_ticks_witness :
  timers (run_steps exec 35 (on_entry (initCounters 500 ["1,200 km"]) (Entry 0 true)))
  = []
  ∧ now (run_steps exec 35 (on_entry (initCounters 500 ["1,200 km"]) (Entry 0 true)))
    = (500 + 38 * N.of_nat (ticks (ceil_div 1200 35) 1200))%N
  ∧ texts (world (run_steps exec 35
                    (on_entry (initCounters 500 ["1,200 km"]) (Entry 0 true))))
      !! 0%nat
    = Some (pretty 1200%N +:+ ", km").
Proof.
  assert (1200%N ≠ 0%N) as H0 by lia.
  assert (1200 < 2 ^ 53)%N as H53 by reflexivity.
  destruct (counter_within_35_ticks (initCounters 500 ["1,200 km"]) 0 "1,200 km" 1200
              eq_refl eq_refl eq_refl H0 H53) as (_ & _ & _ & Htm & Hnow & _ & Htx).
  split; [exact Htm|]. split; [exact Hnow|exact Htx].
Defined.

(** Round trip: when the text of a counter is the decimal numeral of a
    non-zero [n] below 2^53 followed by a suffix without digits, the
    animation ends on exactly that text again.  (From 2^53 on the numeral
    need not be that of a Number, see [counter_beyond_2_53].) *)
Theorem counter_ends_on_own_text (l : loop) el n sfx :
  timers l = [] →
  texts (world l) !! el = Some (pretty n +:+ sfx) →
  n ≠ 0%N → (n < 2 ^ 53)%N →
  keep is_digit sfx = "" →
  let K := ticks (ceil_div n 35) n in
  let l' := run_steps exec K (on_entry l (Entry el true)) in
  timers l' = []
  ∧ texts (world l') !! el = texts (world l) !! el.
Proof.
  intros Et Ht Hn0 Hn53 Hs K l'.
  destruct (split_numeral n sfx Hn0 Hs) as [Hn Hsfx].
  rewrite toNumber_small in Hn by done.
  destruct (ticks_bounds n Hn0) as (HK & _ & _ & Hlast). fold K in HK, Hlast.
  destruct (counter_last_tick l el _ n (K - 1) Et Ht Hn Hn0 Hn53 Hlast) as (_ & Htm & Htx).
  replace (S (K - 1)) with K in * by lia. subst l'.
  split; [done|]. by rewrite Htx, Hsfx, Ht.
Qed.

Lemma counter_ends_on_own_text_witness :
  timers (run_steps exec 30 (on_entry (initCounters 0 ["120+"; "7"]) (Entry 0 true)))
  = []
  ∧ texts (world (run_steps exec 30
                    (on_entry (initCounters 0 ["120+"; "7"]) (Entry 0 true)))) !! 0%nat
    = Some "120+".
Proof.
  assert (120%N ≠ 0%N) as H0 by lia.
  assert (120 < 2 ^ 53)%N as H53 by reflexivity.
  exact (counter_ends_on_own_text (initCounters 0 ["120+"; "7"]) 0 120 "+"
           eq_refl eq_refl H0 H53 eq_refl).
Defined.

End CounterMore.

Section SkillBarMore.
Import Observer SkillBars.
Variable css : string → option string.

Local Abbreviation on_entry := (SkillBars.on_entry css).
Local Abbreviation callback := (SkillBars.callback css).
Local Abbreviation frame := (SkillBars.frame css).
Local Abbreviation run := (SkillBars.run css).

(** The bar after the one assignment the script makes to its width. *)
Local Abbreviation assigned b :=
  (Bar (dataWidth b)
       (from_option id (styleWidth b)
          (css (match dataWidth b with
                | Some "" | None => "80%"
                | Some w => w +:+ "%"
                end)))).

Lemma filled_assigned b : SkillBars.filled css b = assigned b.
Proof.
  unfold SkillBars.filled, SkillBars.set_width, width_or_default.
  destruct b as [[[|c w]|] sw]; cbn; by destruct (css _).
Qed.

(** Handling deliverable entries keeps every bar in one of two states:
    still observed, never fired and untouched; or unobserved, fired and
    assigned its width. *)
Lemma skill_callback_partition (bs : list bar) es : ∀ s,
  deliverable es (observed s) →
  (∀ i b, bs !! i = Some b →
     (i ∈ observed s ∧ (i ∉ fired s) ∧ bars s !! i = Some b)
     ∨ ((i ∉ observed s) ∧ (i ∈ fired s) ∧ bars s !! i = Some (assigned b))) →
  ∀ i b, bs !! i = Some b →
    (i ∈ observed (callback es s) ∧ (i ∉ fired (callback es s))
     ∧ bars (callback es s) !! i = Some b)
    ∨ ((i ∉ observed (callback es s)) ∧ (i ∈ fired (callback es s))
       ∧ bars (callback es s) !! i = Some (assigned b)).
Proof.
  induction es as [|e es IH]; intros s Hdel Hinv; [done|]. cbn.
  destruct (isIntersecting e) eqn:Ei.
  - apply IH.
    + unfold SkillBars.on_entry. rewrite Ei. cbn. destruct Hdel as [Hnd Hin].
      apply NoDup_cons in Hnd as [Hhd Hnd]. split; [done|].
      intros e' He'. apply unobserve_spec. split; [apply Hin; by right|].
      intros E. apply Hhd. rewrite <-E. by apply list_elem_of_fmap_2.
    + intros i b Hb. unfold SkillBars.on_entry. rewrite Ei. cbn.
      rewrite unobserve_spec, elem_of_app, list_elem_of_singleton.
      destruct (decide (i = target e)) as [->|Hne].
      * right. destruct (Hinv _ _ Hb) as [(Ho & Hf & Hbar)|(Ho & _)].
        -- rewrite list_lookup_alter_eq, Hbar. split; [tauto|]. split; [by right|].
           cbn. f_equal. apply filled_assigned.
        -- destruct Ho. apply Hdel. left.
      * rewrite list_lookup_alter_ne by done.
        destruct (Hinv _ _ Hb) as [(Ho & Hf & Hbar)|(Ho & Hf & Hbar)].
        -- left. split; [done|]. split; [tauto|done].
        -- right. split; [tauto|]. split; [by left|done].
  - assert (on_entry s e = s) as -> by (unfold SkillBars.on_entry; by rewrite Ei).
    apply IH; [by eapply deliverable_tail|done].
Qed.

(** Whatever the observer delivers after [initSkillBars], every bar is in
    exactly one of two states.  Either it is still observed and its width
    was never assigned: the bar is as it was.  Or it is no longer observed
    and the script has assigned '80%' (for a [data-width] that is absent or
    empty) or the [data-width] followed by '%' to its width exactly once:
    the style holds the browser's serialisation of that text, or its old
    value when the browser rejected the text. *)
Theorem skill_bars_partition (bs : list bar) (frames : list (gmap nat bool)) i b :
  bs !! i = Some b →
  let s := run frames (initSkillBars bs) in
  (i ∈ observed s ∧ (i ∉ fired s) ∧ bars s !! i = Some b)
  ∨ ((i ∉ observed s) ∧ (i ∈ fired s)
     ∧ bars s !! i
       = Some (Bar (dataWidth b)
                   (from_option id (styleWidth b)
                      (css (match dataWidth b with
                            | Some "" | None => "80%"
                            | Some w => w +:+ "%"
                            end))))).
Proof.
  intros Hb s. subst s. revert i b Hb.
  assert (∀ s0,
    NoDup (observed s0) →
    (∀ i b, bs !! i = Some b →
       (i ∈ observed s0 ∧ (i ∉ fired s0) ∧ bars s0 !! i = Some b)
       ∨ ((i ∉ observed s0) ∧ (i ∈ fired s0) ∧ bars s0 !! i = Some (assigned b))) →
    ∀ i b, bs !! i = Some b →
      (i ∈ observed (run frames s0) ∧ (i ∉ fired (run frames s0))
       ∧ bars (run frames s0) !! i = Some b)
      ∨ ((i ∉ observed (run frames s0)) ∧ (i ∈ fired (run frames s0))
         ∧ bars (run frames s0) !! i = Some (assigned b))) as Hrun.
  { induction frames as [|c frames IH]; intros s0 Hnd Hinv; [done|]. cbn.
    apply IH.
    - unfold SkillBars.frame. generalize (entries c (observed s0)). intros es. clear Hinv.
      revert s0 Hnd.
      induction es as [|e es IHes]; intros s0 Hnd; [done|]. cbn. apply IHes.
      unfold SkillBars.on_entry. destruct (isIntersecting e); [|done]. cbn.
      by apply unobserve_NoDup.
    - apply skill_callback_partition; [|done]. by apply deliverable_entries. }
  apply Hrun.
  - cbn. apply observe_each_NoDup.
  - intros i b Hb. left. cbn. rewrite observe_all_seq, elem_of_seq.
    split; [|split; [apply not_elem_of_nil|done]].
    apply lookup_lt_Some in Hb. lia.
Qed.

End SkillBarMore.

Section SkillBarMoreExamples.
Import Observer SkillBars.

Lemma skill_bars_partition_witness :
  let s := run css_percent [{[1%nat := true]}; {[0%nat := false; 1%nat := true]}]
               (initSkillBars [Bar (Some "95") ""; Bar (Some "wide") "12px"]) in
  (1%nat ∈ observed s ∧ (1%nat ∉ fired s)
   ∧ bars s !! 1%nat = Some (Bar (Some "wide") "12px"))
  ∨ ((1%nat ∉ observed s) ∧ (1%nat ∈ fired s)
     ∧ bars s !! 1%nat
       = Some (Bar (Some "wide")
                   (from_option id "12px" (css_percent ("wide" +:+ "%"))))).
Proof.
  exact (skill_bars_partition css_percent [Bar (Some "95") ""; Bar (Some "wide") "12px"]
           [{[1%nat := true]}; {[0%nat := false; 1%nat := true]}] 1
           (Bar (Some "wide") "12px") eq_refl).
Defined.

End SkillBarMoreExamples.

Section RevealMore.
Import EventLoop Observer Reveal.

Local Abbreviation loop := (EventLoop.loop task env).

Lemma earliest_head {Task} (tm : timer Task) rest :
  (∀ u, u ∈ rest → (t_due tm ≤ t_due u)%N) → earliest (tm :: rest) = Some tm.
Proof.
  intros H. cbn. destruct (earliest rest) as [u|] eqn:E; [|done].
  apply earliest_elem, H in E.
  by replace (t_due u <? t_due tm)%N with false by (symmetry; apply N.ltb_ge; lia).
Qed.

Lemma drop_head {Task} (tm : timer Task) rest :
  (∀ u, u ∈ rest → t_id u ≠ t_id tm) → drop (t_id tm) (tm :: rest) = rest.
Proof.
  intros H. unfold drop. rewrite filter_cons_False by (intros E; by apply E).
  induction rest as [|u rest IH]; [done|].
  rewrite filter_cons_True by (apply H; left). f_equal. apply IH.
  intros v Hv. apply H. by right.
Qed.

Lemma stagger_spec sibs : ∀ idx (l : loop),
  stagger sibs idx l
  = Loop (now l) (fresh l + length sibs)
      (timers l ++ staggered sibs (fresh l) (now l) idx) (world l).
Proof.
  induction sibs as [|el sibs IH]; intros idx l.
  - cbn. rewrite Nat.add_0_r, app_nil_r. by destruct l.
  - cbn [stagger]. rewrite IH. cbn. rewrite <-app_assoc. f_equal. lia.
Qed.

Lemma staggered_elem sibs : ∀ h t idx u,
  u ∈ staggered sibs h t idx → (t + idx * 90 ≤ t_due u)%N ∧ (h ≤ t_id u)%nat.
Proof.
  induction sibs as [|el sibs IH]; intros h t idx u; cbn.
  - by intros ?%elem_of_nil.
  - intros [->|Hu]%elem_of_cons; [cbn; lia|]. apply IH in Hu. lia.
Qed.

Lemma lookup_staggered sibs : ∀ h t idx k el,
  sibs !! k = Some el →
  staggered sibs h t idx !! k
  = Some (Timer (h + k) (t + (idx + N.of_nat k) * 90) None (Show el)).
Proof.
  induction sibs as [|el' sibs IH]; intros h t idx k el; [done|].
  destruct k as [|k]; cbn.
  - intros [= ->]. do 2 f_equal; lia.
  - intros Hk. rewrite (IH _ _ _ _ _ Hk). do 2 f_equal; lia.
Qed.

(** The staggered timers fire in order and leave the queue empty. *)
Lemma run_staggered sibs : ∀ h t idx nw fr (w : env),
  (nw ≤ t + idx * 90)%N →
  run_steps exec (length sibs) (Loop nw fr (staggered sibs h t idx) w)
  = Loop (match sibs with
          | [] => nw
          | _ => t + (idx + N.of_nat (length sibs - 1)) * 90
          end)%N
      fr [] (Env (reveal_all sibs (nodes w)) (observed w) (fired w)).
Proof.
  induction sibs as [|el sibs IH]; intros h t idx nw fr w Hnw.
  - cbn. by destruct w.
  - cbn [length run_steps staggered timers].
    rewrite earliest_head by (intros u Hu%staggered_elem; cbn; lia).
    unfold fire. cbn [timers t_id t_every t_due t_task now fresh world].
    rewrite (drop_head (Timer h (t + idx * 90) None (Show el)))
      by (intros u Hu%staggered_elem; cbn; lia).
    cbn [exec with_world now fresh timers world].
    rewrite N.max_r by done. unfold with_world. cbn [now fresh timers world].
    rewrite IH by lia. cbn [nodes observed fired reveal_all fold_left].
    f_equal. destruct sibs as [|el' sibs']; cbn [length Nat.sub]; lia.
Qed.

Lemma lookup_reveal_all els : ∀ ns i,
  reveal_all els ns !! i
  = (fun n => if bool_decide (i ∈ els) then add_visible n else n) <$> ns !! i.
Proof.
  induction els as [|el els IH]; intros ns i.
  - cbn. by destruct (ns !! i).
  - cbn [reveal_all fold_left]. fold (reveal_all els (alter add_visible el ns)).
    rewrite IH. destruct (decide (i = el)) as [->|Hne].
    + rewrite list_lookup_alter_eq, (bool_decide_eq_true_2 (el ∈ el :: els)) by left.
      destruct (ns !! el) as [n|]; [|done]. cbn.
      case_bool_decide; by rewrite ?add_visible_idemp.
    + rewrite list_lookup_alter_ne by done. destruct (ns !! i) as [n|]; [|done]. cbn.
      rewrite (bool_decide_ext (i ∈ el :: els) (i ∈ els)); [done|].
      rewrite elem_of_cons. naive_solver.
Qed.

Lemma length_reveal_all els : ∀ ns, length (reveal_all els ns) = length ns.
Proof.
  induction els as [|el els IH]; intros ns; [done|]. cbn [reveal_all fold_left].
  fold (reveal_all els (alter add_visible el ns)). by rewrite IH, length_alter.
Qed.

Lemma elem_of_hidden p ns i :
  i ∈ querySelectorAll_hidden p ns
  ↔ ∃ n, ns !! i = Some n ∧ hidden_under p n = true.
Proof.
  unfold querySelectorAll_hidden. rewrite list_elem_of_filter, elem_of_seq. split.
  - intros [H _]. destruct (ns !! i) as [n|]; [|done]. exists n. split; [done|].
    by injection H.
  - intros (n & Hn & Hh). rewrite Hn. cbn. rewrite Hh. split; [done|].
    apply lookup_lt_Some in Hn. lia.
Qed.

Lemma hidden_under_visible p n : hidden_under p (add_visible n) = false.
Proof.
  unfold hidden_under, add_visible. cbn.
  rewrite (contains_elem "visible") by (apply elem_of_add; by right).
  cbn. by rewrite andb_false_r.
Qed.

(** An intersecting entry schedules one timeout for each hidden 'reveal'
    descendant of the target's parent, in document order, the first due at
    once and each 90 ms after the one before.  With no other timer pending
    they fire in that order; when the last has fired the parent has no
    hidden 'reveal' descendant left, and the only elements changed are the
    target and those descendants, which gained 'visible'. *)
Theorem reveal_entry_staggers (l : loop) tgt n p anc :
  timers l = [] →
  nodes (world l) !! tgt = Some n →
  ancestors n = p :: anc →
  let sibs := querySelectorAll_hidden p (nodes (world l)) in
  ∃ l',
    on_entry l (Entry tgt true) = Some l'
    ∧ timers l' = staggered sibs (fresh l) (now l) 0
    ∧ (∀ k el, sibs !! k = Some el →
         timers l' !! k
         = Some (Timer (fresh l + k) (now l + 90 * N.of_nat k) None (Show el)))
    ∧ timers (run_steps exec (length sibs) l') = []
    ∧ now (run_steps exec (length sibs) l')
      = (now l + 90 * N.of_nat (length sibs - 1))%N
    ∧ querySelectorAll_hidden p (nodes (world (run_steps exec (length sibs) l'))) = []
    ∧ ∀ i m, nodes (world l) !! i = Some m →
        nodes (world (run_steps exec (length sibs) l')) !! i
        = Some (if bool_decide (i = tgt ∨ i ∈ sibs) then add_visible m else m).
Proof.
  intros Et Hn Hp sibs. unfold on_entry. cbn [isIntersecting target].
  rewrite Hn. cbn [fmap option_fmap option_map]. rewrite Hp. fold sibs.
  rewrite stagger_spec, Et. unfold with_world. cbn [app now fresh timers world].
  eexists. split; [done|]. cbn [timers]. split; [done|].
  assert (∀ i m, nodes (world l) !! i = Some m →
    reveal_all sibs (alter add_visible tgt (nodes (world l))) !! i
    = Some (if bool_decide (i = tgt ∨ i ∈ sibs) then add_visible m else m)) as Hnodes.
  { intros i m Hm. rewrite lookup_reveal_all.
    destruct (decide (i = tgt)) as [->|Hne].
    - rewrite list_lookup_alter_eq, Hm. cbn.
      rewrite (bool_decide_eq_true_2 (tgt = tgt ∨ _)) by by left.
      case_bool_decide; by rewrite ?add_visible_idemp.
    - rewrite list_lookup_alter_ne, Hm by done. cbn.
      rewrite (bool_decide_ext (i = tgt ∨ i ∈ sibs) (i ∈ sibs)); [done|]. naive_solver. }
  split.
  { intros k el Hk. rewrite (lookup_staggered _ _ _ _ _ _ Hk). do 2 f_equal. lia. }
  rewrite run_staggered by (cbn; lia). cbn [timers now world nodes].
  split; [done|]. split.
  { destruct sibs; cbn [length Nat.sub]; lia. }
  split; [|done].
  apply elem_of_nil_inv. intros i (m' & Hm' & Hh)%elem_of_hidden.
  assert (is_Some (nodes (world l) !! i)) as [m Hm].
  { apply lookup_lt_is_Some. apply lookup_lt_Some in Hm'.
    by rewrite length_reveal_all, length_alter in Hm'. }
  rewrite (Hnodes i m Hm) in Hm'. injection Hm' as <-.
  case_bool_decide as Hd.
  - by rewrite hidden_under_visible in Hh.
  - apply Hd. right. apply elem_of_hidden. by exists m.
Qed.

End RevealMore.

Section RevealMoreExamples.
Import EventLoop Observer Reveal.

Lemma reveal_entry_staggers_witness :
  let l := initReveal 0 [Node [] ∅; Node [0%nat] {["reveal"]};
                         Node [0%nat] {["reveal"]}; Node [0%nat] {["reveal"]}] in
  let sibs := querySelectorAll_hidden 0 (nodes (world l)) in
  ∃ l',
    on_entry l (Entry 2 true) = Some l'
    ∧ timers l' = staggered sibs 0 0 0
    ∧ timers (run_steps exec (length sibs) l') = []
    ∧ querySelectorAll_hidden 0 (nodes (world (run_steps exec (length sibs) l'))) = [].
Proof.
  intros l sibs.
  destruct (reveal_entry_staggers l 2 (Node [0%nat] {["reveal"]}) 0 [])
    as (l' & H1 & H2 & _ & H3 & _ & H4 & _).
  - reflexivity.
  - reflexivity.
  - reflexivity.
  - exists l'. split; [exact H1|]. split; [exact H2|]. split; [exact H3|exact H4].
Defined.

End RevealMoreExamples.

Section ReducedMotionProps.
Import EventLoop Observer Reveal ReducedMotion.

Local Abbreviation loop := (EventLoop.loop task env).

Lemma elem_of_elements ns i :
  i ∈ elements ns ↔ ∃ n, ns !! i = Some n ∧ "reveal" ∈ classList n.
Proof.
  unfold elements. rewrite list_elem_of_filter, elem_of_seq. split.
  - intros [H _]. destruct (ns !! i) as [n|]; [|done]. exists n. split; [done|].
    cbn in H. injection H. apply contains_true_elem.
  - intros (n & Hn & Hr). rewrite Hn. cbn. rewrite (contains_elem _ _ Hr).
    split; [done|]. apply lookup_lt_Some in Hn. lia.
Qed.

Lemma elem_of_observe_each els i : i ∈ observe_each els → i ∈ els.
Proof.
  unfold observe_each.
  assert (∀ ts, i ∈ fold_left (fun ts i => observe i ts) els ts → i ∈ ts ∨ i ∈ els) as H.
  { induction els as [|el els IH]; intros ts; cbn; [by left|].
    intros [Hi|Hi]%IH; [|right; by right]. revert Hi. unfold observe.
    destruct (decide (el ∈ ts)); [by left|].
    rewrite elem_of_app, list_elem_of_singleton. intros [?| ->]; [by left|right; left]. }
  intros [?%elem_of_nil|?]%H; done.
Qed.

Lemma all_visible_hidden ns p : all_visible ns → querySelectorAll_hidden p ns = [].
Proof.
  intros Hv. apply elem_of_nil_inv. intros i (n & Hn & Hh)%elem_of_hidden.
  unfold hidden_under in Hh. apply andb_true_iff in Hh as [Hh Hvis].
  apply andb_true_iff in Hh as [_ Hr].
  apply contains_true_elem in Hr. apply negb_true_iff, not_contains_elem in Hvis.
  apply Hvis. by apply (Hv i n).
Qed.

Lemma all_visible_alter ns tgt :
  all_visible ns → tgt ∈ elements ns → alter add_visible tgt ns = ns.
Proof.
  intros Hv (n & Hn & Hr)%elem_of_elements. apply list_eq. intros j.
  destruct (decide (j = tgt)) as [->|Hne].
  - rewrite list_lookup_alter_eq, Hn. cbn. f_equal. unfold add_visible.
    rewrite add_elem by by apply (Hv tgt n). by destruct n.
  - by rewrite list_lookup_alter_ne.
Qed.

(** On a page where every 'reveal' element is visible, no event ever
    schedules a timer or changes an element. *)
Lemma quiet_run ns t0 evs : ∀ l : loop,
  all_visible ns →
  timers l = [] → now l = t0 → nodes (world l) = ns →
  (∀ i, i ∈ observed (world l) → i ∈ elements ns) →
  timers (run evs l) = [] ∧ now (run evs l) = t0 ∧ nodes (world (run evs l)) = ns.
Proof.
  intros l Hv. revert l. induction evs as [|ev evs IH]; intros l Et Hnow Hns Hobs; [done|].
  cbn. assert (timers (step l ev) = [] ∧ now (step l ev) = t0
               ∧ nodes (world (step l ev)) = ns
               ∧ ∀ i, i ∈ observed (world (step l ev)) → i ∈ elements ns) as (?&?&?&?).
  { destruct ev as [changes|]; unfold step.
    - assert (∀ e, e ∈ entries changes (observed (world l)) → target e ∈ elements ns)
        as Hes.
      { intros [t b] He. apply elem_of_entries in He as [Ht _]. by apply Hobs. }
      revert Hes. generalize (entries changes (observed (world l))). intros es.
      revert l Et Hnow Hns Hobs.
      induction es as [|e es IHes]; intros l Et Hnow Hns Hobs Hes; [done|]. cbn.
      unfold on_entry. destruct (isIntersecting e) eqn:Ei.
      + destruct (ancestors <$> nodes (world l) !! target e) as [[|p r]|]; [done| |done].
        rewrite Hns, (all_visible_hidden ns p Hv). cbn [stagger].
        apply IHes; cbn.
        * done.
        * done.
        * rewrite Hns. apply all_visible_alter; [done|]. apply Hes. left.
        * intros i [Hi _]%unobserve_spec. by apply Hobs.
        * intros e' He'. apply Hes. by right.
      + apply IHes; try done. intros e' He'. apply Hes. by right.
    - rewrite run_steps_idle by by rewrite Et. done. }
  by apply IH.
Qed.

Lemma lookup_fold_insert (v : string) els : ∀ (m : gmap nat string) i,
  fold_left (fun m el => <[el := v]> m) els m !! i
  = if bool_decide (i ∈ els) then Some v else m !! i.
Proof.
  induction els as [|el els IH]; intros m i; [done|]. cbn. rewrite IH.
  destruct (decide (i = el)) as [->|Hne].
  - rewrite lookup_insert_eq, (bool_decide_eq_true_2 (el ∈ el :: els)) by left.
    by case_bool_decide.
  - rewrite lookup_insert_ne by done.
    rewrite (bool_decide_ext (i ∈ el :: els) (i ∈ els)); [done|].
    rewrite elem_of_cons. naive_solver.
Qed.

(** When the media query matches, [respectReducedMotion] sets
    [--ease-spring] to 'linear', the animation of exactly the 'blob'
    elements to 'none', and adds 'visible' to exactly the 'reveal' elements.
    On the page it leaves, the reveal observer set up afterwards never
    schedules a timer and never changes an element, whatever it delivers. *)
Theorem reduced_motion_reveals_at_once (d : doc) (t0 : N) (evs : list event) :
  let d' := respectReducedMotion true d in
  let l := run evs (initReveal t0 (dom d')) in
  easeSpring d' = Some "linear"
  ∧ (∀ i, animation d' !! i
          = if bool_decide (i ∈ blobs (dom d)) then Some "none" else animation d !! i)
  ∧ (∀ i n, dom d !! i = Some n →
       dom d' !! i
       = Some (if ClassList.contains "reveal" (classList n) then add_visible n else n))
  ∧ all_visible (dom d')
  ∧ timers l = [] ∧ now l = t0 ∧ nodes (world l) = dom d'.
Proof.
  intros d' l.
  assert (∀ i n, dom d !! i = Some n →
    dom d' !! i
    = Some (if ClassList.contains "reveal" (classList n) then add_visible n else n))
    as Hdom.
  { intros i n Hn. cbn. rewrite lookup_reveal_all, Hn. cbn. f_equal.
    unfold ClassList.contains. apply (f_equal (fun b : bool => if b then _ else _)).
    apply bool_decide_ext. rewrite elem_of_elements. split.
    - intros (n' & Hn' & Hr). by simplify_eq.
    - intros Hr. by exists n. }
  assert (all_visible (dom d')) as Hv.
  { intros i n' Hn' Hr.
    assert (is_Some (dom d !! i)) as [n Hn].
    { apply lookup_lt_is_Some. apply lookup_lt_Some in Hn'. cbn in Hn'.
      by rewrite length_reveal_all in Hn'. }
    rewrite (Hdom i n Hn) in Hn'. injection Hn' as <-.
    destruct (ClassList.contains "reveal" (classList n)) eqn:E.
    - apply elem_of_add. by right.
    - by apply not_contains_elem in E. }
  split; [done|]. split; [intros i; apply lookup_fold_insert|].
  split; [done|]. split; [done|].
  apply quiet_run; try done.
  intros i. cbn. apply elem_of_observe_each.
Qed.

End ReducedMotionProps.

Section BackTopProps.
Import EventLoop Debounce BackTop.

Local Abbreviation loop := (EventLoop.loop (@task Q state) (@env Q state)).

Lemma scroll_burst fuel invs : ∀ (l : loop) y,
  armed update 50 (now l) y l →
  scrollY (page (world l)) = y →
  Forall (fun i => (i.1 < 50)%N) invs →
  ∃ l', invoke scroll fuel invs l = Some l'
        ∧ now l' = last_time (now l) invs
        ∧ armed update 50 (now l') (last_args y invs) l'
        ∧ scrollY (page (world l')) = last_args y invs
        ∧ classList (page (world l')) = classList (page (world l))
        ∧ calls (world l') = calls (world l).
Proof.
  induction invs as [|[gap b] invs IH]; intros l y Harm Hy Hgaps.
  { exists l. by cbn. }
  apply Forall_cons in Hgaps as [Hgap Hgaps]. cbn in Hgap.
  destruct Harm as (id & Et & Ev). cbn [invoke].
  rewrite (run_until_before _ _ _ _ _ Et) by (cbn; lia).
  set (l1 := Loop _ _ _ _). unfold scroll.
  set (l2 := with_world _ l1).
  destruct (debounce_rearms update 50 b l2) as (Harm1 & Hnow1 & Hw1).
  { right. exists (now l), y, id. by cbn. }
  destruct (IH (debounce update 50 b l2) b) as (l' & Hinv & Hnow & Harm' & Hy' & Hp & Hc);
    [by rewrite Hnow1|by rewrite Hw1|done|].
  rewrite Hnow1 in Hnow. rewrite Hw1 in Hp, Hc.
  assert (now l2 = (now l + gap)%N) as E1 by (subst l2 l1; cbn; lia).
  exists l'. split; [done|]. split; [by rewrite Hnow, E1|].
  split; [exact Harm'|]. split; [exact Hy'|]. by rewrite Hp, Hc.
Qed.

(** After a burst of scroll events, each less than 50 ms after the one
    before, the button is untouched until 50 ms after the last event; then
    the callback runs once, and the button has 'show' exactly when the
    window is then more than 500 px down, which is where the last event
    left it, wherever the page was during the burst.  No other class of the
    button changes. *)
Theorem backtop_follows_last_scroll
    (t0 : N) (h0 : nat) (y0 : Q) (cl0 : gset string)
    (gap1 : N) (y1 : Q) (rest : list (N * Q)) (fuel : nat) :
  Forall (fun i => (i.1 < 50)%N) rest →
  (1 ≤ fuel)%nat →
  let tN := last_time t0 ((gap1, y1) :: rest) in
  let yN := last_args y1 rest in
  ∃ l : loop,
    invoke scroll fuel ((gap1, y1) :: rest) (init t0 h0 (State y0 cl0)) = Some l
    ∧ (∀ T, (T < tN + 50)%N →
         ∃ l', run_until exec fuel T l = Some l'
               ∧ calls (world l') = []
               ∧ classList (page (world l')) = cl0)
    ∧ (∀ T, (tN + 50 ≤ T)%N →
         ∃ l', run_until exec fuel T l = Some l'
               ∧ timers l' = []
               ∧ fst <$> calls (world l') = [(tN + 50)%N]
               ∧ ("show" ∈ classList (page (world l')) ↔ (inject_Z 500 < yN)%Q)
               ∧ ∀ c, c ≠ "show" →
                   (c ∈ classList (page (world l')) ↔ c ∈ cl0)).
Proof.
  intros Hgaps Hfuel tN yN. cbn [invoke].
  rewrite run_until_empty by done. set (l0 := Loop _ _ _ _). unfold scroll at 2.
  set (l0' := with_world _ l0).
  destruct (debounce_rearms update 50 y1 l0') as (Harm1 & Hnow1 & Hw1); [by left|].
  destruct (scroll_burst fuel rest (debounce update 50 y1 l0') y1) as
    (l & Hinv & Hnow & (id & Et & Ev) & Hy & Hp & Hc);
    [by rewrite Hnow1|by rewrite Hw1|done|].
  assert (now l = tN) as HtN.
  { rewrite Hnow, Hnow1. subst tN l0' l0. unfold last_time. cbn. f_equal. lia. }
  rewrite Hw1 in Hp, Hc. cbn in Hp, Hc. rewrite HtN in Et.
  exists l. split; [done|]. split.
  - intros T HT. rewrite (run_until_before _ _ _ _ _ Et) by done. eauto.
  - intros T HT. destruct fuel as [|fuel']; [lia|].
    rewrite (run_until_late update _ _ _ _ _ _ Et) by (done || lia).
    eexists. split; [done|]. cbn [timers world calls page]. split; [done|].
    split; [by rewrite Hc|].
    unfold update. cbn [classList]. rewrite Hy, Hp. fold yN.
    unfold ClassList.toggle_force.
    destruct (Qle_bool yN (inject_Z 500)) eqn:E; cbn [negb].
    + apply Qle_bool_iff in E. split.
      * rewrite elem_of_remove. split; [by intros [_ ?]|].
        intros Hlt. by apply Qlt_not_le in Hlt.
      * intros c Hc'. rewrite elem_of_remove. tauto.
    + assert (inject_Z 500 < yN)%Q as Hlt.
      { apply Qnot_le_lt. intros Hle. apply Qle_bool_iff in Hle. congruence. }
      split.
      * rewrite elem_of_add. split; [done|]. intros _. by right.
      * intros c Hc'. rewrite elem_of_add. tauto.
Qed.

Lemma backtop_follows_last_scroll_witness :
  ∃ l : loop,
    invoke scroll 1 [(10%N, 100%Q); (20%N, 700%Q); (30%N, 300%Q)]
      (init 0 0 (State 0 {["back-top"; "show"]})) = Some l
    ∧ ∀ T, (60 + 50 ≤ T)%N →
        ∃ l', run_until exec 1 T l = Some l'
              ∧ timers l' = []
              ∧ fst <$> calls (world l') = [110%N]
              ∧ ("show" ∈ classList (page (world l')) ↔ (inject_Z 500 < 300)%Q)
              ∧ ∀ c, c ≠ "show" →
                  (c ∈ classList (page (world l')) ↔ c ∈ ({["back-top"; "show"]} : gset string)).
Proof.
  destruct (backtop_follows_last_scroll 0 0 0 {["back-top"; "show"]} 10 100
              [(20%N, 700%Q); (30%N, 300%Q)] 1) as (l & H1 & _ & H2).
  - repeat constructor.
  - lia.
  - exists l. split; [exact H1|exact H2].
Defined.

End BackTopProps.

Section TrimProps.
Import JSString ContactForm.

Lemma trimStart_blank s : trimStart s = [] ↔ all_chars is_space s = true.
Proof.
  unfold all_chars. induction s as [|c s IH]; cbn; [done|].
  destruct (is_space c); cbn; [done|]. split; discriminate.
Qed.

Lemma trimStart_idemp s : trimStart (trimStart s) = trimStart s.
Proof.
  induction s as [|c s IH]; cbn; [done|].
  destruct (is_space c) eqn:E; [done|]. cbn. by rewrite E.
Qed.

Lemma all_chars_reverse p s : all_chars p (reverse s) = all_chars p s.
Proof.
  unfold all_chars. induction s as [|c s IH]; [done|].
  rewrite reverse_cons, forallb_app, IH. cbn.
  by destruct (p c), (forallb p s).
Qed.

Lemma reverse_empty (s : list N) : reverse s = [] → s = [].
Proof.
  intros H. apply (f_equal length) in H. rewrite length_reverse in H.
  by destruct s.
Qed.

(** [trim()] leaves the empty string exactly for the strings made of
    white space only: those are the values for which a required field
    counts as not filled in. *)
Lemma trim_empty_iff_blank s : trim s = [] ↔ all_chars is_space s = true.
Proof.
  unfold trim. split.
  - intros H%reverse_empty%trimStart_blank. rewrite all_chars_reverse in H.
    apply trimStart_blank in H. rewrite trimStart_idemp in H. by apply trimStart_blank.
  - intros H%trimStart_blank. by rewrite H.
Qed.

(** A required field of the form is rejected by the submit handler
    exactly when every code unit of its value is white space of
    JavaScript (WhiteSpace or LineTerminator), the empty value included:
    one of U+0009 to U+000D, U+0020, U+00A0, U+1680, U+2000 to U+200A,
    U+2028, U+2029, U+202F, U+205F, U+3000, U+FEFF. *)
Theorem missing_iff_blank f :
  inForm f = true → required f = true →
  (missing f = true
   ↔ ∀ c, c ∈ value f →
       (0x9 ≤ c ≤ 0xD ∨ c = 0x20 ∨ c = 0xA0 ∨ c = 0x1680 ∨ 0x2000 ≤ c ≤ 0x200A
        ∨ c = 0x2028 ∨ c = 0x2029 ∨ c = 0x202F ∨ c = 0x205F ∨ c = 0x3000
        ∨ c = 0xFEFF)%N).
Proof.
  intros Hf Hr. unfold missing. rewrite Hf, Hr. cbn.
  rewrite bool_decide_eq_true, trim_empty_iff_blank. unfold all_chars.
  rewrite forallb_forall. split.
  - intros H c Hc%list_elem_of_In. apply H in Hc. revert Hc. unfold is_space.
    rewrite !orb_true_iff, !andb_true_iff, !N.leb_le, !N.eqb_eq. tauto.
  - intros H c Hc%list_elem_of_In. apply H in Hc. unfold is_space.
    rewrite !orb_true_iff, !andb_true_iff, !N.leb_le, !N.eqb_eq. tauto.
Qed.

Lemma missing_iff_blank_witness :
  missing (Field "name" true true [0x20; 0x2003; 0xFEFF; 0x9]%N [] "" 0) = true.
Proof.
  apply (missing_iff_blank (Field "name" true true [0x20; 0x2003; 0xFEFF; 0x9]%N [] "" 0)).
  - reflexivity.
  - reflexivity.
  - cbn. intros c Hc. repeat (apply elem_of_cons in Hc as [->|Hc]; [lia|]).
    by apply elem_of_nil in Hc.
Defined.

End TrimProps.
